(** * kafka_exporter: the collection cycle of [kafka_exporter.go]

    A shallow embedding of [Exporter.collect] and of the package-level state
    it keeps between scrapes ([lastOffset], [topicOffset], [lastScrape],
    [start]), of the start-up code around it (the constant labels parsed
    in [main], [NewExporter] with [CanReadCertAndKey], the variable labels
    of the descriptors of [setup], the list of [Describe]), followed by the
    properties of the collection engine and of the start-up.

    Conventions of the embedding.
    - Go's [int64] is a [Z] kept in range by [Int64.wrap]; [+] and [-] on
      [int64] are [Int64.add] and [Int64.sub].
    - Go's [float64] is Rocq's primitive binary64 [float].
    - A Go map that is only read and written by key is a [gmap].  A Go map
      that the code ranges over is given as the list of its entries in the
      order the [range] loop visits them (Go leaves that order unspecified,
      so statements quantify over every such list).
    - A Go map value is a reference.  The inner maps of [lastOffset] live in
      a store indexed by locations, so that two keys holding the same
      reference see each other's writes.
    - A call returning [(T, error)] is a pair [(T * goerror)]; the value is
      kept next to the error because the code sometimes uses it after a
      failure.
    - Every [ch <- prometheus.MustNewConstMetric(...)] and every
      [glog.Error...] call appends one [Event] to the trace of the cycle.
      [glog.Info...] calls are not traced.
    - Goroutines of one cycle (topic workers, one per-broker scanner each)
      are run one after the other, in list order, by the functions below;
      the goroutine structure of the topic pool itself is the step machine
      of [Module TopicPool], and that of [Collect] and [collectChans], with
      the goroutine that drains [original], the step machine of
      [Module Scrapes]. *)

From Stdlib Require Import ZArith List Bool Lia Uint63 PrimFloat Ascii.
From stdpp Require Import base strings gmap.
Import ListNotations.
Open Scope Z_scope.

(** ** Machine numbers *)

Module Int64.

Definition modulus : Z := 2 ^ 64.
Definition half : Z := 2 ^ 63.

(** Two's-complement reduction of an integer to the [int64] range. *)
Definition wrap (z : Z) : Z := (z + half) mod modulus - half.

Definition add (a b : Z) : Z := wrap (a + b).
Definition sub (a b : Z) : Z := wrap (a - b).

Definition in_range (z : Z) : Prop := - half <= z < half.

(** [float64(x)] for [x : int64]. *)
Definition to_float (z : Z) : float :=
  if z =? - half then
    PrimFloat.opp (PrimFloat.mul (PrimFloat.of_uint63 (Uint63.of_Z (2 ^ 62)))
                                 (PrimFloat.of_uint63 (Uint63.of_Z 2)))
  else if z <? 0 then PrimFloat.opp (PrimFloat.of_uint63 (Uint63.of_Z (- z)))
  else PrimFloat.of_uint63 (Uint63.of_Z z).

End Int64.

(** ** The metric sink *)

(** The descriptors declared at lines 41-58. *)
Inductive Desc : Type :=
| clusterBrokers
| topicPartitions
| topicCurrentOffset
| topicOldestOffset
| topicPartitionLeader
| topicPartitionReplicas
| topicPartitionInSyncReplicas
| topicPartitionUsesPreferredReplica
| topicUnderReplicatedPartition
| consumergroupCurrentOffset
| consumergroupCurrentOffsetSum
| consumergroupLag
| consumergroupLagSumRate
| consumergroupLagZookeeper
| consumergroupMembers.

(** A label value before [strconv] renders it: a string, an integer
    ([FormatInt], [Itoa]) or a float ([FormatFloat]). *)
Inductive Label : Type :=
| LStr (s : string)
| LInt (z : Z)
| LFloat (f : float).

(** One constant gauge.  [value] is the integer the code passes to
    [float64(...)]: a length, a broker id or an [int64] offset. *)
Record Metric : Type := mkMetric {
  desc : Desc;
  value : Z;
  labels : list Label
}.

(** The [glog.Errorf] / [glog.Errorln] call sites of [collect]. *)
Inductive LogMsg : Type :=
| CannotRefreshTopics
| CannotGetTopics
| CannotGetPartitions (topic : string)
| CannotGetLeader (topic : string) (partition : Z)
| CannotGetCurrentOffset (topic : string) (partition : Z)
| CannotGetOldestOffset (topic : string) (partition : Z)
| CannotGetReplicas (topic : string) (partition : Z)
| CannotGetInSyncReplicas (topic : string) (partition : Z)
| CannotGetConsumerGroupZk
| CannotConnectToBroker (broker : Z)
| CannotGetConsumerGroup
| CannotGetDescribeGroups
| CannotGetMemberAssignment (group : string)
| CannotGetOffsetOfGroup (group : string)
| ErrorForPartition (partition : Z)
| NoValidBroker.

Inductive Event : Type :=
| Emit (m : Metric)
| LogError (l : LogMsg).

Definition Trace : Type := list Event.

(** ** The cluster gateway (sarama client, brokers, kazoo) *)

(** A non-nil Go [error].  [broker.Open] distinguishes
    [sarama.ErrAlreadyConnected] from every other error (line 545). *)
Inductive GoError : Type :=
| ErrAlreadyConnected
| ErrOther (msg : string).

(** Go's [error]: [None] is [nil]. *)
Definition goerror : Type := option GoError.

Definition failed (e : goerror) : bool :=
  match e with Some _ => true | None => false end.

(** [sarama.KError]; [ErrNoError] is code 0. *)
Definition ErrNoError : Z := 0.

Inductive OffsetTime : Type := OffsetNewest | OffsetOldest.

(** The program point that issues a [client.GetOffset] call.  The latest
    offset of one partition is asked for during the topic walk (line 415)
    and again, for every group, during the group scan (line 641); the two
    answers come from different requests. *)
Inductive CallSite : Type :=
| TopicWalk
| GroupScan (broker : Z) (group : string).

(** [sarama.OffsetFetchResponseBlock]. *)
Record OffsetFetchResponseBlock : Type := mkBlock {
  Offset : Z;
  Err : Z
}.

(** [OffsetFetchResponse.Blocks]: topic, then partition, in visiting order. *)
Definition Blocks : Type := list (string * list (Z * OffsetFetchResponseBlock)).

(** [sarama.OffsetFetchRequest]: the group and the partitions added by
    [AddPartition], in the order of the calls. *)
Record OffsetFetchRequest : Type := mkRequest {
  ConsumerGroup : string;
  Version : Z;
  partitions : list (string * Z)
}.

Definition AddPartition (r : OffsetFetchRequest) (topic : string) (partition : Z)
  : OffsetFetchRequest :=
  mkRequest (ConsumerGroup r) (Version r) (partitions r ++ [(topic, partition)]).

(** [sarama.GroupMemberDescription]: only [GetMemberAssignment] is used;
    its [Topics] map is given in visiting order. *)
Record GroupMember : Type := mkMember {
  GetMemberAssignment : list (string * list Z) * goerror
}.

(** [sarama.GroupDescription]. *)
Record GroupDescription : Type := mkGroup {
  GroupId : string;
  Members : list GroupMember
}.

(** The answer of [client.Leader]: a broker (its [ID()]) with a nil error,
    or an error next to a broker pointer that may be nil. *)
Inductive LeaderResult : Type :=
| LeaderFound (id : Z)
| LeaderError (broker : option Z) (err : GoError).

(** What the collaborators answer during one cycle.  A slice that may be
    [nil] is an [option]. *)
Record Gateway : Type := mkGateway {
  Brokers : list Z;
  RefreshMetadata : goerror;
  Topics : list string * goerror;
  Partitions : string -> list Z * goerror;
  Leader : string -> Z -> LeaderResult;
  GetOffset : CallSite -> string -> Z -> OffsetTime -> Z * goerror;
  Replicas : string -> Z -> option (list Z) * goerror;
  InSyncReplicas : string -> Z -> option (list Z) * goerror;
  (* broker-level requests, by broker id *)
  Open : Z -> goerror;
  ListGroups : Z -> list string * goerror;
  DescribeGroups : Z -> list string -> list GroupDescription * goerror;
  FetchOffset : Z -> OffsetFetchRequest -> Blocks * goerror;
  (* kazoo *)
  Consumergroups : list string * goerror;
  ZkFetchOffset : string -> string -> Z -> Z
}.

(** The fields of [Exporter] that [collect] reads.  The filters are the
    [MatchString] of the compiled expressions. *)
Record Exporter : Type := mkExporter {
  client : Gateway;
  topicFilter : string -> bool;
  groupFilter : string -> bool;
  useZooKeeperLag : bool;
  metadataRefreshInterval : Z;
  offsetShowAll : bool;
  topicWorkers : Z
}.

(** The readings of [time.Now()] taken by one cycle: at line 363, at line
    538 (once per broker, in seconds) and at line 711 (in seconds). *)
Record Clock : Type := mkClock {
  now : Z;
  unixAtBroker : Z -> Z;
  unixAtEnd : Z
}.

(** ** State that outlives a cycle *)

(** A location of the store of inner maps. *)
Definition loc : Type := nat.

(** The package-level variables of lines 35-40 and the one mutable field
    of [Exporter] ([nextMetadataRefresh]).  [lastOffset] maps a group to a
    reference; [topicOffset] is the reference created at line 36. *)
Record Globals : Type := mkGlobals {
  store : gmap loc (gmap string Z);
  lastOffset : gmap string loc;
  topicOffset : loc;
  lastScrape : Z;
  start : bool;
  nextMetadataRefresh : Z
}.

(** The state at process start: [topicOffset] is the only inner map, and it
    is empty; [lastOffset] has no key. *)
Definition initGlobals (refreshAt : Z) : Globals :=
  mkGlobals {[ 0%nat := ∅ ]} ∅ 0%nat 0 true refreshAt.

(** [m[k]] on a possibly nil [map[string]int64]: zero when absent. *)
Definition readMap (m : option (gmap string Z)) (k : string) : Z :=
  match m with
  | Some m => default 0 (m !! k)
  | None => 0
  end.

(** [lastOffset[group][topic]] (lines 664, 666, 694). *)
Definition readLastOffset (G : Globals) (group topic : string) : Z :=
  match lastOffset G !! group with
  | Some l => readMap (store G !! l) topic
  | None => 0
  end.

(** Lines 681-682:
<<
    topicOffset[topic] = currentOffsetSum
    lastOffset[group.GroupId] = topicOffset
>>
    The first line writes into the map [topicOffset] refers to; the second
    stores that same reference under the group. *)
Definition storeBaseline (G : Globals) (group topic : string) (currentOffsetSum : Z)
  : Globals :=
  let l := topicOffset G in
  let inner := default ∅ (store G !! l) in
  mkGlobals (<[ l := <[ topic := currentOffsetSum ]> inner ]> (store G))
            (<[ group := l ]> (lastOffset G))
            l (lastScrape G) (start G) (nextMetadataRefresh G).

(** Lines 663-679: the rate and the drain time of one (group, topic). *)
Definition consumeRateTime (G : Globals) (group topic : string)
    (currentOffsetSum timeDiff : Z) : float * float :=
  if negb (start G) then
    let consume := Int64.sub currentOffsetSum (readLastOffset G group topic) in
    if consume <=? 0 then (0%float, (-1)%float)
    else
      let consumeRate :=
        PrimFloat.div (Int64.to_float consume) (Int64.to_float timeDiff) in
      let consumeTime :=
        PrimFloat.div (Int64.to_float currentOffsetSum) consumeRate in
      (consumeRate, consumeTime)
  else ((-1)%float, (-2)%float).

(** ** The offset snapshot builder (lines 360-361, 383-531) *)

(** The two maps of lines 360-361. *)
Record Snapshot : Type := mkSnapshot {
  offset : gmap string (gmap Z Z);
  topicsPartitions : gmap string (list Z)
}.

Definition emptySnapshot : Snapshot := mkSnapshot ∅ ∅.

Definition len {A} (l : list A) : Z := Z.of_nat (length l).

(** [len] of a slice that may be nil. *)
Definition lenSlice (s : option (list Z)) : Z :=
  match s with Some l => len l | None => 0 end.

(** Line 455: [broker != nil && replicas != nil && len(replicas) > 0 &&
    broker.ID() == replicas[0]]. *)
Definition usesPreferredReplica (broker : option Z) (replicas : option (list Z)) : bool :=
  match broker, replicas with
  | Some id, Some (r0 :: _) => id =? r0
  | _, _ => false
  end.

(** Line 465: [replicas != nil && inSyncReplicas != nil &&
    len(inSyncReplicas) < len(replicas)]. *)
Definition underReplicated (replicas inSyncReplicas : option (list Z)) : bool :=
  match replicas, inSyncReplicas with
  | Some r, Some i => len i <? len r
  | _, _ => false
  end.

Definition partitionLabels (topic : string) (partition : Z) : list Label :=
  [LStr topic; LInt partition].

Section Cycle.

(** The exporter whose cycle is run. *)
Variable e : Exporter.

(** Lines 475-492: the ZooKeeper lag of one partition.  [currentOffset] is
    the value line 415 returned, error or not. *)
Definition zookeeperLag (topic : string) (partition currentOffset : Z)
  : Trace :=
  if useZooKeeperLag e then
    let '(consumerGroups, err) := Consumergroups (client e) in
    (if failed err then [LogError CannotGetConsumerGroupZk] else []) ++
    flat_map (fun group =>
      let offset := ZkFetchOffset (client e) group topic partition in
      if 0 <? offset then
        [Emit (mkMetric consumergroupLagZookeeper (Int64.sub currentOffset offset)
                        [LStr group; LStr topic; LInt partition])]
      else []) consumerGroups
  else [].

(** Lines 406-492: the body of the loop over the partitions of one topic.
    [offs] is [offset[topic]]. *)
Definition partitionFacts (topic : string) (partition : Z)
    (offs : gmap Z Z) : Trace * gmap Z Z :=
  let gw := client e in
  let lbl := partitionLabels topic partition in
  let '(broker, leaderEvents) :=
    match Leader gw topic partition with
    | LeaderFound id => (Some id, [Emit (mkMetric topicPartitionLeader id lbl)])
    | LeaderError b _ => (b, [LogError (CannotGetLeader topic partition)])
    end in
  let '(currentOffset, err) := GetOffset gw TopicWalk topic partition OffsetNewest in
  let '(currentEvents, offs) :=
    if failed err then ([LogError (CannotGetCurrentOffset topic partition)], offs)
    else ([Emit (mkMetric topicCurrentOffset currentOffset lbl)],
          <[ partition := currentOffset ]> offs) in
  let '(oldestOffset, err) := GetOffset gw TopicWalk topic partition OffsetOldest in
  let oldestEvents :=
    if failed err then [LogError (CannotGetOldestOffset topic partition)]
    else [Emit (mkMetric topicOldestOffset oldestOffset lbl)] in
  let '(replicas, err) := Replicas gw topic partition in
  let replicasEvents :=
    if failed err then [LogError (CannotGetReplicas topic partition)]
    else [Emit (mkMetric topicPartitionReplicas (lenSlice replicas) lbl)] in
  let '(inSyncReplicas, err) := InSyncReplicas gw topic partition in
  let inSyncEvents :=
    if failed err then [LogError (CannotGetInSyncReplicas topic partition)]
    else [Emit (mkMetric topicPartitionInSyncReplicas (lenSlice inSyncReplicas) lbl)] in
  let preferred :=
    Emit (mkMetric topicPartitionUsesPreferredReplica
            (if usesPreferredReplica broker replicas then 1 else 0) lbl) in
  let under :=
    Emit (mkMetric topicUnderReplicatedPartition
            (if underReplicated replicas inSyncReplicas then 1 else 0) lbl) in
  (leaderEvents ++ currentEvents ++ oldestEvents ++ replicasEvents ++ inSyncEvents
     ++ [preferred; under] ++ zookeeperLag topic partition currentOffset,
   offs).

(** Line 405: [for _, partition := range partitions]. *)
Fixpoint partitionsLoop (topic : string) (ps : list Z)
    (offs : gmap Z Z) : Trace * gmap Z Z :=
  match ps with
  | [] => ([], offs)
  | partition :: ps =>
      let '(tr, offs) := partitionFacts topic partition offs in
      let '(tr', offs) := partitionsLoop topic ps offs in
      (tr ++ tr', offs)
  end.

(** Lines 383-495: the closure [getTopicMetrics]. *)
Definition getTopicMetrics (topic : string) (snap : Snapshot)
  : Trace * Snapshot :=
  if negb (topicFilter e topic) then ([], snap)
  else
    let '(ps, err) := Partitions (client e) topic in
    if failed err then ([LogError (CannotGetPartitions topic)], snap)
    else
      let '(tr, offs) := partitionsLoop topic ps ∅ in
      (Emit (mkMetric topicPartitions (len ps) [LStr topic]) :: tr,
       mkSnapshot (<[ topic := offs ]> (offset snap))
                  (<[ topic := ps ]> (topicsPartitions snap))).

(** Lines 508-514. *)
Definition minx (x y : Z) : Z := if x <? y then x else y.

(** Line 516: [N := minx(len(topics)/2, e.topicWorkers)]. *)
Definition poolSize (topics : list string) : Z :=
  minx (Z.quot (len topics) 2) (topicWorkers e).

(** The topics handed to [getTopicMetrics], one after the other. *)
Fixpoint runTopics (queued : list string) (snap : Snapshot)
  : Trace * Snapshot :=
  match queued with
  | [] => ([], snap)
  | topic :: queued =>
      let '(tr, snap) := getTopicMetrics topic snap in
      let '(tr', snap) := runTopics queued snap in
      (tr ++ tr', snap)
  end.

(** Lines 516-531.  [topicChannel] is unbuffered: the send of line 526
    completes only when a worker receives.  Without a worker
    ([poolSize <= 0]) the first topic that passes the filter blocks the
    cycle for ever, which is [None]; see [Module TopicPool] for the
    goroutines. *)
Definition topicPhase (topics : list string)
  : option (Trace * Snapshot) :=
  match List.filter (topicFilter e) topics with
  | [] => Some ([], emptySnapshot)
  | queued =>
      if poolSize topics <=? 0 then None
      else Some (runTopics queued emptySnapshot)
  end.

(** ** The consumer group scanner (lines 533-699) *)

(** Lines 610-618: some partition of the topic has a committed offset. *)
Definition topicConsumed (bs : list (Z * OffsetFetchResponseBlock)) : bool :=
  existsb (fun pb => negb (Offset (snd pb) =? -1)) bs.

Definition groupLabels (group topic : string) (partition : Z) : list Label :=
  [LStr group; LStr topic; LInt partition].

(** Lines 626-658: one iteration of the loop over the partition blocks of a
    reported topic, from the sums so far to the events and the new sums. *)
Definition partitionLag (broker : Z) (group topic : string)
    (partition : Z) (blk : OffsetFetchResponseBlock) (currentOffsetSum lagSum : Z)
  : Trace * Z * Z :=
  if negb (Err blk =? ErrNoError) then
    ([LogError (ErrorForPartition partition)], currentOffsetSum, lagSum)
  else
    let committed := Offset blk in
    let currentOffsetSum :=
      if negb (committed =? -1) then Int64.add currentOffsetSum committed
      else currentOffsetSum in
    let offsetEvent :=
      Emit (mkMetric consumergroupCurrentOffset committed
                     (groupLabels group topic partition)) in
    let '(currentOffset, error) :=
      GetOffset (client e) (GroupScan broker group) topic partition OffsetNewest in
    let fetchEvents :=
      if failed error then [LogError (CannotGetCurrentOffset topic partition)]
      else [] in
    let '(lag, lagSum) :=
      if Offset blk =? -1 then (-1, lagSum)
      else
        let lag := Int64.sub currentOffset (Offset blk) in
        (lag, Int64.add lagSum lag) in
    (offsetEvent :: fetchEvents ++
       [Emit (mkMetric consumergroupLag lag (groupLabels group topic partition))],
     currentOffsetSum, lagSum).

(** Line 625: [for partition, offsetFetchResponseBlock := range partitions]. *)
Fixpoint partitionLags (broker : Z) (group topic : string)
    (bs : list (Z * OffsetFetchResponseBlock)) (currentOffsetSum lagSum : Z)
  : Trace * Z * Z :=
  match bs with
  | [] => ([], currentOffsetSum, lagSum)
  | (partition, blk) :: bs =>
      let '(tr, currentOffsetSum, lagSum) :=
        partitionLag broker group topic partition blk currentOffsetSum lagSum in
      let '(tr', currentOffsetSum, lagSum) :=
        partitionLags broker group topic bs currentOffsetSum lagSum in
      (tr ++ tr', currentOffsetSum, lagSum)
  end.

(** Lines 623-695: a topic that passed the [topicConsumed] test. *)
Definition reportTopic (broker : Z) (group topic : string)
    (bs : list (Z * OffsetFetchResponseBlock)) (timeDiff : Z) (G : Globals)
  : Trace * Globals :=
  let '(tr, currentOffsetSum, lagSum) := partitionLags broker group topic bs 0 0 in
  let '(consumeRate, consumeTime) :=
    consumeRateTime G group topic currentOffsetSum timeDiff in
  let G := storeBaseline G group topic currentOffsetSum in
  (tr ++
     [Emit (mkMetric consumergroupLagSumRate lagSum
              [LStr group; LStr topic; LFloat consumeRate; LFloat consumeTime;
               LInt timeDiff]);
      Emit (mkMetric consumergroupCurrentOffsetSum currentOffsetSum
              [LStr group; LStr topic])],
   G).

(** Line 608: [for topic, partitions := range offsetFetchResponse.Blocks]. *)
Fixpoint blocksLoop (broker : Z) (group : string) (blocks : Blocks)
    (timeDiff : Z) (G : Globals) : Trace * Globals :=
  match blocks with
  | [] => ([], G)
  | (topic, bs) :: blocks =>
      if topicConsumed bs then
        let '(tr, G) := reportTopic broker group topic bs timeDiff G in
        let '(tr', G) := blocksLoop broker group blocks timeDiff G in
        (tr ++ tr', G)
      else blocksLoop broker group blocks timeDiff G
  end.

Definition addPartitions (r : OffsetFetchRequest) (tp : string * list Z)
  : OffsetFetchRequest :=
  fold_left (fun r partition => AddPartition r (fst tp) partition) (snd tp) r.

(** Lines 578-583: every partition of every topic of the snapshot. *)
Definition requestShowAll (snap : Snapshot) (r : OffsetFetchRequest)
  : OffsetFetchRequest :=
  fold_left addPartitions (map_to_list (topicsPartitions snap)) r.

(** Lines 585-596: the partitions the members report; [None] when a member's
    assignment cannot be read, where the closure returns. *)
Fixpoint requestAssigned (members : list GroupMember) (r : OffsetFetchRequest)
  : option OffsetFetchRequest :=
  match members with
  | [] => Some r
  | member :: members =>
      let '(assignment, err) := GetMemberAssignment member in
      if failed err then None
      else requestAssigned members (fold_left addPartitions assignment r)
  end.

(** Lines 574-697: [for _, group := range describeGroups.Groups]. *)
Fixpoint groupsLoop (snap : Snapshot) (broker : Z)
    (groups : list GroupDescription) (timeDiff : Z) (G : Globals)
  : Trace * Globals :=
  match groups with
  | [] => ([], G)
  | group :: groups =>
      let offsetFetchRequest := mkRequest (GroupId group) 1 [] in
      let request :=
        if offsetShowAll e then Some (requestShowAll snap offsetFetchRequest)
        else requestAssigned (Members group) offsetFetchRequest in
      match request with
      | None => ([LogError (CannotGetMemberAssignment (GroupId group))], G)
      | Some request =>
          let members :=
            Emit (mkMetric consumergroupMembers (len (Members group))
                           [LStr (GroupId group)]) in
          let '(blocks, err) := FetchOffset (client e) broker request in
          if failed err then
            let '(tr, G) := groupsLoop snap broker groups timeDiff G in
            (members :: LogError (CannotGetOffsetOfGroup (GroupId group)) :: tr, G)
          else
            let '(tr, G) := blocksLoop broker (GroupId group) blocks timeDiff G in
            let '(tr', G) := groupsLoop snap broker groups timeDiff G in
            (members :: tr ++ tr', G)
      end
  end.

(** Lines 537-543. *)
Definition timeDiffAt (clk : Clock) (broker : Z) (G : Globals) : Z :=
  if start G then 0 else Int64.sub (unixAtBroker clk broker) (lastScrape G).

(** Lines 533-699: the closure [getConsumerGroupMetrics]. *)
Definition getConsumerGroupMetrics (snap : Snapshot) (clk : Clock)
    (broker : Z) (G : Globals) : Trace * Globals :=
  let gw := client e in
  let timeDiff := timeDiffAt clk broker G in
  match Open gw broker with
  | Some (ErrOther _) => ([LogError (CannotConnectToBroker broker)], G)
  | _ =>
      let '(groups, err) := ListGroups gw broker in
      if failed err then ([LogError CannotGetConsumerGroup], G)
      else
        let groupIds := List.filter (groupFilter e) groups in
        let '(describeGroups, err) := DescribeGroups gw broker groupIds in
        if failed err then ([LogError CannotGetDescribeGroups], G)
        else groupsLoop snap broker describeGroups timeDiff G
  end.

(** Lines 703-707: one scanner per broker. *)
Fixpoint brokersLoop (snap : Snapshot) (clk : Clock)
    (brokers : list Z) (G : Globals) : Trace * Globals :=
  match brokers with
  | [] => ([], G)
  | broker :: brokers =>
      let '(tr, G) := getConsumerGroupMetrics snap clk broker G in
      let '(tr', G) := brokersLoop snap clk brokers G in
      (tr ++ tr', G)
  end.

(** ** One collection cycle (lines 348-713) *)

(** How a call of [collect] ends: it returns, or it stays blocked in the
    send of line 526 with the events emitted so far. *)
Inductive Outcome : Type :=
| Returned (tr : Trace) (G : Globals)
| Blocked (tr : Trace) (G : Globals).

(** Lines 365-373. *)
Definition refreshMetadata (clk : Clock) (G : Globals)
  : Trace * Globals :=
  if nextMetadataRefresh G <? now clk then
    ((if failed (RefreshMetadata (client e)) then [LogError CannotRefreshTopics]
      else []),
     mkGlobals (store G) (lastOffset G) (topicOffset G) (lastScrape G) (start G)
               (now clk + metadataRefreshInterval e))
  else ([], G).

(** Lines 711-712. *)
Definition endOfCycle (clk : Clock) (G : Globals) : Globals :=
  mkGlobals (store G) (lastOffset G) (topicOffset G) (unixAtEnd clk) false
            (nextMetadataRefresh G).

(** Lines 701-710. *)
Definition groupPhase (snap : Snapshot) (clk : Clock) (G : Globals)
  : Trace * Globals :=
  if 0 <? len (Brokers (client e)) then
    brokersLoop snap clk (Brokers (client e)) G
  else ([LogError NoValidBroker], G).

Definition collect (clk : Clock) (G : Globals) : Outcome :=
  let brokers := Emit (mkMetric clusterBrokers (len (Brokers (client e))) []) in
  let '(refresh, G) := refreshMetadata clk G in
  let '(topics, err) := Topics (client e) in
  if failed err then Returned (brokers :: refresh ++ [LogError CannotGetTopics]) G
  else
    match topicPhase topics with
    | None => Blocked (brokers :: refresh) G
    | Some (walk, snap) =>
        let '(scan, G) := groupPhase snap clk G in
        Returned (brokers :: refresh ++ walk ++ scan) (endOfCycle clk G)
    end.

End Cycle.

(** ** The goroutines of the topic pool (lines 497-531)

    The main goroutine and the [N] workers started at line 519, as a step
    relation over their program points.  [topicChannel] is unbuffered, so a
    send and a receive happen together, in one step.  A call of
    [getTopicMetrics] (with its deferred [wg.Done()]) is one step of the
    worker that runs it. *)

Module TopicPool.

(** Where the main goroutine stands. *)
Inductive MainPc : Type :=
| Feeding (rest : list string)
    (* line 522: at the head of the range loop, [rest] still to visit *)
| Sending (topic : string) (rest : list string)
    (* line 526: [wg.Add(1)] done, the send is pending *)
| Waiting
    (* line 531: the channel is closed, in [wg.Wait()] *)
| HandedOver.
    (* line 533 on: the consumer group scanner *)

(** Where a worker ([loopTopics]) stands. *)
Inductive WorkerPc : Type :=
| Receiving
    (* line 500: [topic, open := <-topicChannel] *)
| Running (topic : string)
    (* line 503: inside [getTopicMetrics(topic)] *)
| Exited.

Record State : Type := mkState {
  main : MainPc;
  workers : list WorkerPc;
  closed : bool;
  wg : Z;
  processed : list string
}.

(** Lines 516-520: [N] workers, all about to receive. *)
Definition init (topics : list string) (N : Z) : State :=
  mkState (Feeding topics) (replicate (Z.to_nat N) Receiving) false 0 [].

Section Steps.

Variable topicFilter : string -> bool.

Inductive step : State -> State -> Prop :=
| step_skip topic rest ws c n done :
    topicFilter topic = false ->
    step (mkState (Feeding (topic :: rest)) ws c n done)
         (mkState (Feeding rest) ws c n done)
| step_add topic rest ws c n done :
    topicFilter topic = true ->
    step (mkState (Feeding (topic :: rest)) ws c n done)
         (mkState (Sending topic rest) ws c (n + 1) done)
| step_rendezvous topic rest ws c n done (i : nat) :
    ws !! i = Some Receiving ->
    step (mkState (Sending topic rest) ws c n done)
         (mkState (Feeding rest) (<[ i := Running topic ]> ws) c n done)
| step_close ws c n done :
    step (mkState (Feeding []) ws c n done)
         (mkState Waiting ws true n done)
| step_wait ws c done :
    step (mkState Waiting ws c 0 done)
         (mkState HandedOver ws c 0 done)
| step_done m ws c n done (i : nat) topic :
    ws !! i = Some (Running topic) ->
    step (mkState m ws c n done)
         (mkState m (<[ i := Receiving ]> ws) c (n - 1) (done ++ [topic]))
| step_exit m ws n done (i : nat) :
    ws !! i = Some Receiving ->
    step (mkState m ws true n done)
         (mkState m (<[ i := Exited ]> ws) true n done).

(** The states of the executions that start in [s]. *)
Inductive reachable (s : State) : State -> Prop :=
| reach_refl : reachable s s
| reach_step s1 s2 : reachable s s1 -> step s1 s2 -> reachable s s2.

(** No goroutine can move. *)
Definition stuck (s : State) : Prop := forall s', ~ step s s'.

End Steps.

(** The topics the workers are running. *)
Definition running (ws : list WorkerPc) : list string :=
  omap (fun w => match w with Running topic => Some topic | _ => None end) ws.

(** The topic of a pending send. *)
Definition pending (m : MainPc) : list string :=
  match m with Sending topic _ => [topic] | _ => [] end.

(** The topics the range loop has not reached. *)
Definition remaining (m : MainPc) : list string :=
  match m with Feeding rest | Sending _ rest => rest | _ => [] end.

Definition mainWeight (m : MainPc) : nat :=
  match m with
  | Feeding rest => 3 * length rest + 2
  | Sending _ rest => 3 * length rest + 4
  | Waiting => 1
  | HandedOver => 0
  end%nat.

Definition workerWeight (w : WorkerPc) : nat :=
  match w with Running _ => 2 | Receiving => 1 | Exited => 0 end%nat.

(** A bound on the number of steps left. *)
Definition weight (s : State) : nat :=
  (mainWeight (main s) + sum_list_with workerWeight (workers s))%nat.

(** Executions by their number of steps. *)
Inductive steps (topicFilter : string -> bool) : nat -> State -> State -> Prop :=
| steps_O s : steps topicFilter O s s
| steps_S n s1 s2 s3 :
    step topicFilter s1 s2 -> steps topicFilter n s2 s3 ->
    steps topicFilter (S n) s1 s3.

(** What holds of every state of an execution that starts in
    [init topics N]: the wait group counts the topics handed out and not
    yet done, the channel is closed exactly when the range loop is over,
    no worker has left before that, a topic is done only by a worker, and
    every topic that passes the filter is done, being run, being sent or
    still to be visited. *)
Record Inv (topicFilter : string -> bool) (topics : list string) (N : Z)
    (s : State) : Prop := mkInv {
  inv_workers : length (workers s) = Z.to_nat N;
  inv_wg : wg s = len (running (workers s)) + len (pending (main s));
  inv_closed : closed s = true <-> (main s = Waiting \/ main s = HandedOver);
  inv_exited : closed s = false -> Forall (fun w => w <> Exited) (workers s);
  inv_handed : main s = HandedOver -> wg s = 0;
  inv_done : workers s = [] -> processed s = [];
  inv_topics :
    Permutation
      (processed s ++ running (workers s) ++ pending (main s)
         ++ List.filter topicFilter (remaining (main s)))
      (List.filter topicFilter topics)
}.

End TopicPool.

(** ** Readings of a cycle *)

Definition traceOf (o : Outcome) : Trace :=
  match o with Returned tr _ | Blocked tr _ => tr end.

Definition globalsOf (o : Outcome) : Globals :=
  match o with Returned _ G | Blocked _ G => G end.

Definition returned (o : Outcome) : bool :=
  match o with Returned _ _ => true | Blocked _ _ => false end.

(** The samples of a trace, without the log lines. *)
Definition metricsOf (tr : Trace) : list Metric :=
  omap (fun ev => match ev with Emit m => Some m | LogError _ => None end) tr.

Definition isRefreshLog (ev : Event) : bool :=
  match ev with LogError CannotRefreshTopics => true | _ => false end.

(** The sample of [consumergroup.lag_sum_rate] on a cycle that has no
    earlier scrape to compare with: rate [-1], drain time [-2], elapsed 0. *)
Definition rateUnavailable (ev : Event) : Prop :=
  match ev with
  | Emit m =>
      desc m = consumergroupLagSumRate ->
      exists group topic,
        labels m = [LStr group; LStr topic; LFloat (-1)%float; LFloat (-2)%float;
                    LInt 0]
  | LogError _ => True
  end.

(** The events and the two sums the loop of line 625 leaves, from zero. *)
Definition lagEvents (e : Exporter) (broker : Z) (group topic : string)
    (bs : list (Z * OffsetFetchResponseBlock)) : Trace :=
  fst (fst (partitionLags e broker group topic bs 0 0)).

Definition currentOffsetSumOf (e : Exporter) (broker : Z) (group topic : string)
    (bs : list (Z * OffsetFetchResponseBlock)) : Z :=
  snd (fst (partitionLags e broker group topic bs 0 0)).

Definition lagSumOf (e : Exporter) (broker : Z) (group topic : string)
    (bs : list (Z * OffsetFetchResponseBlock)) : Z :=
  snd (partitionLags e broker group topic bs 0 0).

(** Every member of the group lets its assignment be read. *)
Definition readable (group : GroupDescription) : Prop :=
  Forall (fun member => failed (snd (GetMemberAssignment member)) = false)
         (Members group).

(** An event that is not a [consumergroup.lag_sum_rate] sample. *)
Definition notRate (ev : Event) : Prop :=
  match ev with
  | Emit m => desc m <> consumergroupLagSumRate
  | LogError _ => True
  end.

(** Every entry of [lastOffset] refers to the one map [topicOffset]. *)
Definition allAliased (G : Globals) : Prop :=
  forall group l, lastOffset G !! group = Some l -> l = topicOffset G.

(** The same gateway with another answer to [RefreshMetadata]. *)
Definition withRefreshMetadata (r : goerror) (gw : Gateway) : Gateway :=
  mkGateway (Brokers gw) r (Topics gw) (Partitions gw) (Leader gw) (GetOffset gw)
            (Replicas gw) (InSyncReplicas gw) (Open gw) (ListGroups gw)
            (DescribeGroups gw) (FetchOffset gw) (Consumergroups gw)
            (ZkFetchOffset gw).

(** The same gateway with another answer to [Topics]. *)
Definition withTopics (r : list string * goerror) (gw : Gateway) : Gateway :=
  mkGateway (Brokers gw) (RefreshMetadata gw) r (Partitions gw) (Leader gw)
            (GetOffset gw) (Replicas gw) (InSyncReplicas gw) (Open gw)
            (ListGroups gw) (DescribeGroups gw) (FetchOffset gw)
            (Consumergroups gw) (ZkFetchOffset gw).

(** The same gateway with another answer to [DescribeGroups]. *)
Definition withDescribeGroups
    (r : Z -> list string -> list GroupDescription * goerror) (gw : Gateway)
  : Gateway :=
  mkGateway (Brokers gw) (RefreshMetadata gw) (Topics gw) (Partitions gw)
            (Leader gw) (GetOffset gw) (Replicas gw) (InSyncReplicas gw) (Open gw)
            (ListGroups gw) r (FetchOffset gw) (Consumergroups gw)
            (ZkFetchOffset gw).

Definition withClient (gw : Gateway) (e : Exporter) : Exporter :=
  mkExporter gw (topicFilter e) (groupFilter e) (useZooKeeperLag e)
             (metadataRefreshInterval e) (offsetShowAll e) (topicWorkers e).

(** No sample of descriptor [d] is in the trace. *)
Definition omitted (d : Desc) (tr : Trace) : Prop :=
  forall v l, ~ In (Emit (mkMetric d v l)) tr.

(** The same exporter with another answer to [RefreshMetadata]. *)
Definition refreshAnswering (r : goerror) (e : Exporter) : Exporter :=
  withClient (withRefreshMetadata r (client e)) e.

(** The facts of one partition are reported one by one: the answer to each
    of the five requests of lines 406-453 decides its own sample or log
    line (and, for the latest offset, the snapshot entry), whatever the
    other four answer; the two derived samples of lines 455-473 are always
    there. *)
Definition factsIsolated (e : Exporter) (topic : string) (p : Z)
    (offs : gmap Z Z) : Prop :=
  let tr := fst (partitionFacts e topic p offs) in
  let lbl := partitionLabels topic p in
  match Leader (client e) topic p with
  | LeaderFound id => In (Emit (mkMetric topicPartitionLeader id lbl)) tr
  | LeaderError _ _ =>
      In (LogError (CannotGetLeader topic p)) tr
      /\ omitted topicPartitionLeader tr
  end
  /\ (let r := GetOffset (client e) TopicWalk topic p OffsetNewest in
      if failed (snd r) then
        In (LogError (CannotGetCurrentOffset topic p)) tr
        /\ omitted topicCurrentOffset tr
        /\ snd (partitionFacts e topic p offs) = offs
      else
        In (Emit (mkMetric topicCurrentOffset (fst r) lbl)) tr
        /\ snd (partitionFacts e topic p offs) = <[ p := fst r ]> offs)
  /\ (let r := GetOffset (client e) TopicWalk topic p OffsetOldest in
      if failed (snd r) then
        In (LogError (CannotGetOldestOffset topic p)) tr
        /\ omitted topicOldestOffset tr
      else In (Emit (mkMetric topicOldestOffset (fst r) lbl)) tr)
  /\ (let r := Replicas (client e) topic p in
      if failed (snd r) then
        In (LogError (CannotGetReplicas topic p)) tr
        /\ omitted topicPartitionReplicas tr
      else In (Emit (mkMetric topicPartitionReplicas (lenSlice (fst r)) lbl)) tr)
  /\ (let r := InSyncReplicas (client e) topic p in
      if failed (snd r) then
        In (LogError (CannotGetInSyncReplicas topic p)) tr
        /\ omitted topicPartitionInSyncReplicas tr
      else
        In (Emit (mkMetric topicPartitionInSyncReplicas (lenSlice (fst r)) lbl)) tr)
  /\ (exists v, In (Emit (mkMetric topicPartitionUsesPreferredReplica v lbl)) tr)
  /\ (exists v, In (Emit (mkMetric topicUnderReplicatedPartition v lbl)) tr).

(** ** A small cluster, for the concrete runs

    One broker, two topics of two partitions, two groups that both read
    [orders].  The latest offset of a partition is 1000 when the topic walk
    asks and 1200 when the group scan asks.  Group [g1] has committed 900
    on partition 0 of [orders] and nothing on partition 1; every other
    group has committed 500 and nothing. *)
Module Cluster.

Definition member : GroupMember :=
  mkMember ([("orders"%string, [0; 1])], None).

Definition unreadableMember : GroupMember :=
  mkMember ([], Some (ErrOther "insufficient data to decode packet")).

Definition committed (group : string) : Z :=
  if String.eqb group "g1" then 900 else 500.

Definition gateway : Gateway :=
  mkGateway
    [1]
    None
    (["orders"%string; "payments"%string], None)
    (fun _ => ([0; 1], None))
    (fun _ _ => LeaderFound 1)
    (fun site _ _ time =>
       match time, site with
       | OffsetOldest, _ => (0, None)
       | OffsetNewest, TopicWalk => (1000, None)
       | OffsetNewest, GroupScan _ _ => (1200, None)
       end)
    (fun _ _ => (Some [1; 2; 3], None))
    (fun _ _ => (Some [1; 2], None))
    (fun _ => None)
    (fun _ => (["g1"%string; "g2"%string], None))
    (fun _ ids => (map (fun id => mkGroup id [member]) ids, None))
    (fun _ request =>
       ([("orders"%string,
          [(0, mkBlock (committed (ConsumerGroup request)) ErrNoError);
           (1, mkBlock (-1) ErrNoError)])],
        None))
    ([], None)
    (fun _ _ _ => 0).

(** Every topic and group passes the filters; assigned-only mode; 100
    workers asked for. *)
Definition exporter : Exporter :=
  mkExporter gateway (fun _ => true) (fun _ => true) false 30 false 100.

(** A first cycle at second 1000 and a second one sixty seconds later. *)
Definition firstClock : Clock := mkClock 1000 (fun _ => 1000) 1001.
Definition secondClock : Clock := mkClock 1060 (fun _ => 1061) 1062.

(** The cluster when [Topics] fails. *)
Definition noTopicList : Exporter :=
  withClient (withTopics ([], Some (ErrOther "out of brokers")) gateway) exporter.

(** The cluster with [orders] as its only topic. *)
Definition singleTopic : Exporter :=
  withClient (withTopics (["orders"%string], None) gateway) exporter.

(** The cluster when the first group described, [g1], has a member whose
    assignment cannot be decoded. *)
Definition unreadableAssignment : Exporter :=
  withClient
    (withDescribeGroups
       (fun _ ids =>
          (map (fun id => mkGroup id
                  [if String.eqb id "g1" then unreadableMember else member]) ids,
           None))
       gateway)
    exporter.

(** The blocks [FetchOffset] answers for group [g1]. *)
Definition ordersOfG1 : list (Z * OffsetFetchResponseBlock) :=
  [(0, mkBlock 900 ErrNoError); (1, mkBlock (-1) ErrNoError)].

(** The snapshot the topic walk of a cycle builds. *)
Definition snapshot : Snapshot :=
  match topicPhase exporter (fst (Topics gateway)) with
  | Some (_, snap) => snap
  | None => emptySnapshot
  end.

(** The state after the first cycle. *)
Definition afterFirstCycle : Globals :=
  globalsOf (collect exporter firstClock (initGlobals 0)).

End Cluster.

(** ** Two sentences of the specification, as it words them *)

(** "lag = latest-produced-offset (from the snapshot) - committed-offset
    [...] a partition missing from the snapshot [...] must not be treated
    as zero - lag for that partition is simply not computed/reported":
    every lag sample of a partition with a committed offset carries the
    snapshot's latest offset minus the committed one, and there is no such
    sample when the snapshot has no entry for the partition. *)
Definition lagFromSnapshot (e : Exporter) (snap : Snapshot) (broker : Z)
    (group topic : string) (bs : list (Z * OffsetFetchResponseBlock)) : Prop :=
  forall partition blk lag,
    In (partition, blk) bs ->
    Err blk = ErrNoError ->
    Offset blk <> -1 ->
    In (Emit (mkMetric consumergroupLag lag (groupLabels group topic partition)))
       (lagEvents e broker group topic bs) ->
    match offset snap !! topic with
    | Some offs =>
        match offs !! partition with
        | Some latest => lag = Int64.sub latest (Offset blk)
        | None => False
        end
    | None => False
    end.

(** "nothing inside a cycle is allowed to abort the whole cycle except a
    metadata-refresh failure [...] or a total absence of brokers", read for
    the topic-list fetch: when [Topics] fails no topic is known, and the
    samples of the group scan over the empty snapshot are still produced. *)
Definition topicListFailureIsolated (e : Exporter) (clk : Clock) (G : Globals)
  : Prop :=
  failed (snd (Topics (client e))) = true ->
  forall m,
    In m (metricsOf (fst (groupPhase e emptySnapshot clk
                            (snd (refreshMetadata e clk G))))) ->
    In m (metricsOf (traceOf (collect e clk G))).

(** ** Constant labels from the command line (lines 768-778) *)

Module Labels.

(** [strings.Split(s, sep)] for a separator [sep] of one byte: the pieces of
    [s] between the occurrences of [sep], in order; never empty. *)
Fixpoint Split (s : string) (sep : ascii) : list string :=
  match s with
  | EmptyString => [EmptyString]
  | String c s =>
      if Ascii.eqb c sep then EmptyString :: Split s sep
      else
        match Split s sep with
        | piece :: pieces => String c piece :: pieces
        | [] => [String c EmptyString]
        end
  end.

(** Lines 773-776: the body of the loop over the comma-separated labels. *)
Definition addLabel (labels : gmap string string) (label : string)
  : gmap string string :=
  match Split label "="%char with
  | key :: val :: _ => <[ key := val ]> labels
  | _ => labels
  end.

(** Lines 768-778: the map built from [opts.labels]. *)
Definition parseLabels (optsLabels : string) : gmap string string :=
  if String.eqb optsLabels "" then ∅
  else fold_left addLabel (Split optsLabels ","%char) ∅.

(** The byte [c] occurs in [s]. *)
Fixpoint occurs (c : ascii) (s : string) : bool :=
  match s with
  | EmptyString => false
  | String c' s => Ascii.eqb c' c || occurs c s
  end.

(** A key or a value that holds neither [,] nor [=]. *)
Definition plain (s : string) : Prop :=
  occurs ","%char s = false /\ occurs "="%char s = false.

(** [k1=v1,k2=v2,...]: the flag value that lists the pairs of [l]. *)
Definition render (l : list (string * string)) : string :=
  String.concat "," (map (fun kv => fst kv +:+ "=" +:+ snd kv) l).

End Labels.

(** ** Start-up: the exporter and its client configuration (lines 108-265)

    [NewExporter] calls into sarama, kazoo, [crypto/tls], [regexp], [os] and
    [time]; what those calls answer is the record [Env].  A field of
    [Config] is [None] as long as it holds what [sarama.NewConfig()] put
    there, and [Some v] once [NewExporter] has assigned [v]. *)

Module Startup.

(** The struct [kafkaOpts] (lines 80-106). *)
Module Opts.

Record kafkaOpts : Type := mkOpts {
  uri : list string;
  useSASL : bool;
  useSASLHandshake : bool;
  saslUsername : string;
  saslPassword : string;
  saslMechanism : string;
  useTLS : bool;
  tlsCAFile : string;
  tlsCertFile : string;
  tlsKeyFile : string;
  tlsInsecureSkipTLSVerify : bool;
  kafkaVersion : string;
  useZooKeeperLag : bool;
  uriZookeeper : list string;
  labels : string;
  metadataRefreshInterval : string;
  serviceName : string;
  kerberosConfigPath : string;
  realm : string;
  keyTabPath : string;
  kerberosAuthType : string;
  offsetShowAll : bool;
  topicWorkers : Z;
  allowConcurrent : bool;
  verbosityLogLevel : Z
}.

End Opts.

(** The hash of an [XDGSCRAMClient] (lines 158, 161). *)
Inductive HashGeneratorFcn : Type := SHA256 | SHA512.

(** The sarama constants assigned to [config.Net.SASL.Mechanism]. *)
Inductive SASLMechanism : Type :=
| SASLTypeSCRAMSHA512
| SASLTypeSCRAMSHA256
| SASLTypeGSSAPI.

(** The sarama constants assigned to [config.Net.SASL.GSSAPI.AuthType]. *)
Inductive KerberosAuthType : Type := KRB5_KEYTAB_AUTH | KRB5_USER_AUTH.

(** [config.Net.SASL.GSSAPI]. *)
Record GSSAPIConfig : Type := mkGSSAPI {
  ServiceName : option string;
  KerberosConfigPath : option string;
  Realm : option string;
  Username : option string;
  AuthType : option KerberosAuthType;
  KeyTabPath : option string;
  GSSAPIPassword : option string
}.

Definition clientID : string := "kafka_exporter".

(** The cases of the switch of lines 156-182. *)
Inductive MechanismCase : Type :=
| CaseScramSha512
| CaseScramSha256
| CaseGssapi
| CasePlain
| CaseDefault.

Definition mechanismCase (saslMechanism : string) : MechanismCase :=
  if String.eqb saslMechanism "scram-sha512" then CaseScramSha512
  else if String.eqb saslMechanism "scram-sha256" then CaseScramSha256
  else if String.eqb saslMechanism "gssapi" then CaseGssapi
  else if String.eqb saslMechanism "plain" then CasePlain
  else CaseDefault.

(** Why [NewExporter] returns no exporter: the error of a call, as it is
    or wrapped, or one that [NewExporter] or [CanReadCertAndKey] makes. *)
Inductive StartupError : Type :=
| VersionError (err : GoError)
    (* line 149 *)
| InvalidSASLMechanism (saslMechanism : string)
    (* lines 178-181 *)
| CAFileError (err : GoError)
    (* line 208 *)
| CertAndKeyError (path : string)
    (* lines 119 and 123, wrapped at line 214 *)
| KeyPairError (err : GoError)
    (* line 221 *)
| ZookeeperError (err : GoError)
    (* line 230 *)
| IntervalError (err : GoError)
    (* line 236 *)
| ClientError (err : GoError).
    (* line 244 *)

(** How a call of [NewExporter] ends; [regexp.MustCompile] panics on an
    expression that does not compile. *)
Inductive Started (A : Type) : Type :=
| Ready (a : A)
| Failed (err : StartupError)
| Panicked.

Arguments Ready {A} a.
Arguments Failed {A} err.
Arguments Panicked {A}.

Section WithLibraries.

(** What the libraries hand back: a parsed version, a certificate, a
    zookeeper client, a sarama client, a compiled expression. *)
Context {KafkaVersion Certificate Kazoo Client Regexp : Type}.

(** The [tls.Config] of lines 199-202 and what is added to it. *)
Record TLSConfig : Type := mkTLS {
  RootCAs : list string;
  InsecureSkipVerify : bool;
  Certificates : list Certificate
}.

(** The fields of [sarama.Config] that [NewExporter] assigns. *)
Record Config : Type := mkConfig {
  ClientID : option string;
  Version : option KafkaVersion;
  SCRAMClientGeneratorFunc : option HashGeneratorFcn;
  Mechanism : option SASLMechanism;
  GSSAPI : GSSAPIConfig;
  SASLEnable : option bool;
  Handshake : option bool;
  User : option string;
  Password : option string;
  TLSEnable : option bool;
  TLS : option TLSConfig;
  RefreshFrequency : option Z
}.

(** The struct [Exporter] (lines 62-78) as [NewExporter] fills it; the
    mutexes are left out. *)
Record Exporter : Type := mkExporter {
  client : Client;
  topicFilter : Regexp;
  groupFilter : Regexp;
  useZooKeeperLag : bool;
  zookeeperClient : option Kazoo;
  nextMetadataRefresh : Z;
  metadataRefreshInterval : Z;
  offsetShowAll : bool;
  topicWorkers : Z;
  allowConcurrent : bool;
  sgWaitCh : option unit;
  sgChans : list unit;
  consumerGroupFetchAll : bool
}.

(** The answers of the libraries. *)
Record Env : Type := mkEnv {
  ParseKafkaVersion : string -> KafkaVersion * goerror;
  ToLower : string -> string;
  osOpen : string -> goerror;
  ReadFile : string -> string * goerror;
  LoadX509KeyPair : string -> string -> Certificate * goerror;
  NewKazoo : list string -> Kazoo * goerror;
  ParseDuration : string -> Z * goerror;
  NewClient : list string -> Config -> Client * goerror;
  Compile : string -> option Regexp;
  timeNow : Z;
  IsAtLeastV2_0_0_0 : KafkaVersion -> bool
}.

Variable env : Env.

(** Lines 131-140. *)
Definition canReadFile (path : string) : bool :=
  if failed (osOpen env path) then false else true.

(** Lines 110-127; the error is the path its message names. *)
Definition CanReadCertAndKey (certPath keyPath : string) : bool * option string :=
  let certReadable := canReadFile certPath in
  let keyReadable := canReadFile keyPath in
  if negb certReadable && negb keyReadable then (false, None)
  else if negb certReadable then (false, Some certPath)
  else if negb keyReadable then (false, Some keyPath)
  else (true, None).

(** Lines 163-175: the GSSAPI fields. *)
Definition gssapiConfig (opts : Opts.kafkaOpts) : GSSAPIConfig :=
  if String.eqb (Opts.kerberosAuthType opts) "keytabAuth" then
    mkGSSAPI (Some (Opts.serviceName opts)) (Some (Opts.kerberosConfigPath opts))
             (Some (Opts.realm opts)) (Some (Opts.saslUsername opts))
             (Some KRB5_KEYTAB_AUTH) (Some (Opts.keyTabPath opts)) None
  else
    mkGSSAPI (Some (Opts.serviceName opts)) (Some (Opts.kerberosConfigPath opts))
             (Some (Opts.realm opts)) (Some (Opts.saslUsername opts))
             (Some KRB5_USER_AUTH) None (Some (Opts.saslPassword opts)).

Definition noGSSAPI : GSSAPIConfig :=
  mkGSSAPI None None None None None None None.

Definition nonEmpty (s : string) : option string :=
  if String.eqb s "" then None else Some s.

(** Lines 196-224: the TLS part of the configuration. *)
Definition tlsConfig (opts : Opts.kafkaOpts) : Started (option TLSConfig) :=
  if Opts.useTLS opts then
    let readCA :=
      if negb (String.eqb (Opts.tlsCAFile opts) "") then
        let '(ca, err) := ReadFile env (Opts.tlsCAFile opts) in
        match err with
        | None => Ready [ca]
        | Some err => Failed (CAFileError err)
        end
      else Ready [] in
    match readCA with
    | Ready rootCAs =>
        match CanReadCertAndKey (Opts.tlsCertFile opts) (Opts.tlsKeyFile opts) with
        | (_, Some path) => Failed (CertAndKeyError path)
        | (true, None) =>
            let '(cert, err) :=
              LoadX509KeyPair env (Opts.tlsCertFile opts) (Opts.tlsKeyFile opts) in
            match err with
            | None =>
                Ready (Some (mkTLS rootCAs (Opts.tlsInsecureSkipTLSVerify opts)
                                   [cert]))
            | Some err => Failed (KeyPairError err)
            end
        | (false, None) =>
            Ready (Some (mkTLS rootCAs (Opts.tlsInsecureSkipTLSVerify opts) []))
        end
    | Failed err => Failed err
    | Panicked => Panicked
    end
  else Ready None.

(** Lines 143-265. *)
Definition NewExporter (opts : Opts.kafkaOpts) (topicFilter groupFilter : string)
  : Started Exporter :=
  let '(kafkaVersion, err) := ParseKafkaVersion env (Opts.kafkaVersion opts) in
  match err with
  | Some err => Failed (VersionError err)
  | None =>
      let saslMechanism := ToLower env (Opts.saslMechanism opts) in
      if Opts.useSASL opts && match mechanismCase saslMechanism with
                              | CaseDefault => true
                              | _ => false
                              end
      then Failed (InvalidSASLMechanism saslMechanism)
      else
        match tlsConfig opts with
        | Failed err => Failed err
        | Panicked => Panicked
        | Ready tls =>
            let '(kazoo, err) :=
              if Opts.useZooKeeperLag opts then
                let '(zk, err) := NewKazoo env (Opts.uriZookeeper opts) in
                (Some zk, err)
              else (None, None) in
            match err with
            | Some err => Failed (ZookeeperError err)
            | None =>
                let '(interval, err) :=
                  ParseDuration env (Opts.metadataRefreshInterval opts) in
                match err with
                | Some err => Failed (IntervalError err)
                | None =>
                    let sasl := Opts.useSASL opts in
                    let mechanism :=
                      if sasl then mechanismCase saslMechanism else CasePlain in
                    let config :=
                      mkConfig
                        (Some clientID)
                        (Some kafkaVersion)
                        match mechanism with
                        | CaseScramSha512 => Some SHA512
                        | CaseScramSha256 => Some SHA256
                        | _ => None
                        end
                        match mechanism with
                        | CaseScramSha512 => Some SASLTypeSCRAMSHA512
                        | CaseScramSha256 => Some SASLTypeSCRAMSHA256
                        | CaseGssapi => Some SASLTypeGSSAPI
                        | _ => None
                        end
                        match mechanism with
                        | CaseGssapi => gssapiConfig opts
                        | _ => noGSSAPI
                        end
                        (if sasl then Some true else None)
                        (if sasl then Some (Opts.useSASLHandshake opts) else None)
                        (if sasl then nonEmpty (Opts.saslUsername opts) else None)
                        (if sasl then nonEmpty (Opts.saslPassword opts) else None)
                        (if Opts.useTLS opts then Some true else None)
                        tls
                        (Some interval) in
                    let '(client, err) := NewClient env (Opts.uri opts) config in
                    match err with
                    | Some err => Failed (ClientError err)
                    | None =>
                        match Compile env topicFilter, Compile env groupFilter with
                        | Some topicFilter, Some groupFilter =>
                            Ready (mkExporter
                                     client topicFilter groupFilter
                                     (Opts.useZooKeeperLag opts) kazoo
                                     (timeNow env) interval
                                     (Opts.offsetShowAll opts)
                                     (Opts.topicWorkers opts)
                                     (Opts.allowConcurrent opts)
                                     None []
                                     (IsAtLeastV2_0_0_0 env kafkaVersion))
                        | _, _ => Panicked
                        end
                    end
                end
            end
        end
  end.

End WithLibraries.

End Startup.

(** A start-up environment for the concrete runs: every library call
    succeeds, strings are already in lower case, the certificate file can
    be opened and the key file cannot. *)
Module StartupExample.

Definition env : @Startup.Env Z unit unit unit string :=
  Startup.mkEnv
    (fun _ => (2, None))
    (fun s => s)
    (fun path => if String.eqb path "client.key" then
                   Some (ErrOther "no such file or directory")
                 else None)
    (fun _ => (""%string, None))
    (fun _ _ => (tt, None))
    (fun _ => (tt, None))
    (fun _ => (30, None))
    (fun _ _ => (tt, None))
    (fun expr => Some expr)
    1000
    (fun v => 2 <=? v).

(** The defaults of the flags of lines 727-760. *)
Definition defaults : Startup.Opts.kafkaOpts :=
  Startup.Opts.mkOpts
    ["kafka:9092"%string] false true "" "" "" false "" "" "" false "2.0.0"
    false ["localhost:2181"%string] "" "30s" "" "" "" "" "" true 100 false 0.

(** The defaults with [--sasl.enabled]. *)
Definition saslEnabled : Startup.Opts.kafkaOpts :=
  Startup.Opts.mkOpts
    ["kafka:9092"%string] true true "" "" "" false "" "" "" false "2.0.0"
    false ["localhost:2181"%string] "" "30s" "" "" "" "" "" true 100 false 0.

(** The defaults with TLS and a certificate and key file. *)
Definition tlsEnabled : Startup.Opts.kafkaOpts :=
  Startup.Opts.mkOpts
    ["kafka:9092"%string] false true "" "" "" true "" "client.crt" "client.key"
    false "2.0.0"
    false ["localhost:2181"%string] "" "30s" "" "" "" "" "" true 100 false 0.

End StartupExample.

(** ** The descriptors as [setup] declares them (lines 802-893) *)

(** The variable labels given to [prometheus.NewDesc]. *)
Definition variableLabels (d : Desc) : list string :=
  match d with
  | clusterBrokers => []
  | topicPartitions => ["topic"]
  | topicCurrentOffset
  | topicOldestOffset
  | topicPartitionLeader
  | topicPartitionReplicas
  | topicPartitionInSyncReplicas
  | topicPartitionUsesPreferredReplica
  | topicUnderReplicatedPartition => ["topic"; "partition"]
  | consumergroupCurrentOffset
  | consumergroupLag
  | consumergroupLagZookeeper => ["consumergroup"; "topic"; "partition"]
  | consumergroupCurrentOffsetSum => ["consumergroup"; "topic"]
  | consumergroupLagSumRate =>
      ["consumergroup"; "topic"; "rate"; "time"; "timeDiff"]
  | consumergroupMembers => ["consumergroup"]
  end%string.

(** The descriptors of the topic walk. *)
Definition topicLevel (d : Desc) : bool :=
  match d with
  | topicPartitions
  | topicCurrentOffset
  | topicOldestOffset
  | topicPartitionLeader
  | topicPartitionReplicas
  | topicPartitionInSyncReplicas
  | topicPartitionUsesPreferredReplica
  | topicUnderReplicatedPartition => true
  | _ => false
  end.

(** [topic] passes the filter and its partition list was fetched. *)
Definition walkedTopic (e : Exporter) (topic : string) : Prop :=
  topicFilter e topic = true /\ snd (Partitions (client e) topic) = None.

(** [p] is a partition of the walked topic [topic]. *)
Definition walkedPartition (e : Exporter) (topic : string) (p : Z) : Prop :=
  walkedTopic e topic /\ In p (fst (Partitions (client e) topic)).

(** What an event of a cycle looks like, descriptor by descriptor. *)
Definition eventShape (e : Exporter) (ev : Event) : Prop :=
  match ev with
  | LogError _ => True
  | Emit m =>
      match desc m with
      | clusterBrokers =>
          labels m = [] /\ value m = len (Brokers (client e))
      | topicPartitions =>
          exists topic,
            labels m = [LStr topic] /\ walkedTopic e topic
            /\ value m = len (fst (Partitions (client e) topic))
      | topicCurrentOffset
      | topicOldestOffset
      | topicPartitionLeader
      | topicPartitionReplicas
      | topicPartitionInSyncReplicas =>
          exists topic p,
            labels m = [LStr topic; LInt p] /\ walkedPartition e topic p
      | topicPartitionUsesPreferredReplica
      | topicUnderReplicatedPartition =>
          exists topic p,
            labels m = [LStr topic; LInt p] /\ walkedPartition e topic p
            /\ (value m = 0 \/ value m = 1)
      | consumergroupLagZookeeper =>
          exists group topic p,
            labels m = [LStr group; LStr topic; LInt p]
            /\ useZooKeeperLag e = true
            /\ walkedPartition e topic p
            /\ In group (fst (Consumergroups (client e)))
      | consumergroupMembers =>
          exists group, labels m = [LStr group] /\ 0 <= value m
      | consumergroupCurrentOffset
      | consumergroupLag =>
          exists group topic p, labels m = [LStr group; LStr topic; LInt p]
      | consumergroupCurrentOffsetSum =>
          exists group topic, labels m = [LStr group; LStr topic]
      | consumergroupLagSumRate =>
          exists group topic rate time timeDiff,
            labels m = [LStr group; LStr topic; LFloat rate; LFloat time;
                        LInt timeDiff]
      end
  end.

(** [topic] is walked from the queue [queued]: it is in the queue, passes
    the filter and its partition list is fetched. *)
Definition walks (e : Exporter) (queued : list string) (topic : string) : bool :=
  existsb (String.eqb topic) queued
  && topicFilter e topic
  && negb (failed (snd (Partitions (client e) topic))).

(** The partitions of the entries of a map from topics to partition
    lists, in the order of the entries. *)
Definition partitionsOf (entries : list (string * list Z)) : list (string * Z) :=
  flat_map (fun tp => map (pair (fst tp)) (snd tp)) entries.

(** ** The process over its cycles *)

(** The states the package-level variables go through: the state at
    process start, and the state a cycle that returns leaves behind. *)
Inductive afterCycles (e : Exporter) : Globals -> Prop :=
| cycles_start refreshAt : afterCycles e (initGlobals refreshAt)
| cycles_next G clk tr G' :
    afterCycles e G -> collect e clk G = Returned tr G' -> afterCycles e G'.

(** The cycle gets to lines 711-712. *)
Definition completes (e : Exporter) : bool :=
  negb (failed (snd (Topics (client e))))
  && match topicPhase e (fst (Topics (client e))) with
     | Some _ => true
     | None => false
     end.

(** ** The sums of a reported topic, as integers *)

Definition sumZ (l : list Z) : Z := fold_right Z.add 0 l.

(** The block enters the two sums of lines 623-624: no error code and a
    committed offset. *)
Definition counted (pb : Z * OffsetFetchResponseBlock) : bool :=
  (Err (snd pb) =? ErrNoError) && negb (Offset (snd pb) =? -1).

(** The committed offsets of the counted blocks, added up without
    overflow. *)
Definition committedTotal (bs : list (Z * OffsetFetchResponseBlock)) : Z :=
  sumZ (map (fun pb => Offset (snd pb)) (List.filter counted bs)).

(** The distances from the committed offset to the latest offset fetched
    at line 641, over the counted blocks, added up without overflow. *)
Definition lagTotal (e : Exporter) (broker : Z) (group topic : string)
    (bs : list (Z * OffsetFetchResponseBlock)) : Z :=
  sumZ (map (fun pb =>
               fst (GetOffset (client e) (GroupScan broker group) topic (fst pb)
                      OffsetNewest)
               - Offset (snd pb))
            (List.filter counted bs)).

(** ** The samples of the consumer group scan *)

(** The descriptors of the consumer group scan. *)
Definition groupLevel (d : Desc) : bool :=
  match d with
  | consumergroupCurrentOffset
  | consumergroupCurrentOffsetSum
  | consumergroupLag
  | consumergroupLagSumRate
  | consumergroupMembers => true
  | _ => false
  end.

(** Lines 552-572: the groups a broker describes, asked about the groups
    it lists that pass the filter. *)
Definition describedGroups (e : Exporter) (broker : Z) : list GroupDescription :=
  fst (DescribeGroups (client e) broker
         (List.filter (groupFilter e) (fst (ListGroups (client e) broker)))).

(** The sample [m] is about the described group [group], in a scan that
    computed the elapsed time [timeDiff]. *)
Definition describes (group : GroupDescription) (timeDiff : Z) (m : Metric)
  : Prop :=
  match desc m with
  | consumergroupMembers =>
      labels m = [LStr (GroupId group)] /\ value m = len (Members group)
  | consumergroupLagSumRate =>
      exists topic rate time,
        labels m = [LStr (GroupId group); LStr topic; LFloat rate; LFloat time;
                    LInt timeDiff]
  | consumergroupCurrentOffset
  | consumergroupLag =>
      exists topic p, labels m = [LStr (GroupId group); LStr topic; LInt p]
  | consumergroupCurrentOffsetSum =>
      exists topic, labels m = [LStr (GroupId group); LStr topic]
  | _ => False
  end.

(** The events of the scan of [groups]. *)
Definition scanned (groups : list GroupDescription) (timeDiff : Z) (ev : Event)
  : Prop :=
  match ev with
  | LogError _ => True
  | Emit m => exists group, In group groups /\ describes group timeDiff m
  end.

(** A sample of a cycle with a descriptor of the group scan comes from the
    scan of some broker, and is about a group that broker described. *)
Definition scanShape (e : Exporter) (clk : Clock) (G : Globals) (ev : Event)
  : Prop :=
  match ev with
  | LogError _ => True
  | Emit m =>
      groupLevel (desc m) = true ->
      exists broker group,
        In broker (Brokers (client e))
        /\ In group (describedGroups e broker)
        /\ describes group (timeDiffAt clk broker G) m
  end.

(** An event of the topic walk. *)
Definition walkShape (ev : Event) : Prop :=
  match ev with
  | LogError _ => True
  | Emit m => groupLevel (desc m) = false
  end.

(** ** What [Describe] announces (lines 281-296) *)

(** The descriptors [Describe] sends, in the order of the sends. *)
Definition Describe : list Desc :=
  [clusterBrokers; topicCurrentOffset; topicOldestOffset; topicPartitions;
   topicPartitionLeader; topicPartitionReplicas; topicPartitionInSyncReplicas;
   topicPartitionUsesPreferredReplica; topicUnderReplicatedPartition;
   consumergroupCurrentOffset; consumergroupCurrentOffsetSum; consumergroupLag;
   consumergroupLagZookeeper].

#[global] Instance Desc_eq_dec : EqDecision Desc.
Proof. solve_decision. Defined.

(** The samples of a trace that carry the descriptor [d], in the order of
    the sends. *)
Definition samplesOf (d : Desc) (tr : Trace) : list Metric :=
  List.filter (fun m => bool_decide (desc m = d)) (metricsOf tr).

(** The topics of a fetch response the group has a commit in. *)
Definition consumedTopics (blocks : Blocks) : Blocks :=
  List.filter (fun tb => topicConsumed (snd tb)) blocks.

(** The scan of a broker gets as far as the loop over the described
    groups: the connection is open or opens, and the two requests of lines
    551 and 568 succeed. *)
Definition scansGroups (e : Exporter) (broker : Z) : bool :=
  match Open (client e) broker with
  | Some (ErrOther _) => false
  | _ => true
  end
  && negb (failed (snd (ListGroups (client e) broker)))
  && negb (failed (snd (DescribeGroups (client e) broker
                          (List.filter (groupFilter e)
                             (fst (ListGroups (client e) broker)))))).

(** ** The facts of one partition *)

(** The broker variable of line 407 after the call. *)
Definition leaderOf (r : LeaderResult) : option Z :=
  match r with
  | LeaderFound id => Some id
  | LeaderError broker _ => broker
  end.

(** ** The (group, topic) pairs a cycle processes *)

(** Lines 575-597: the offset request built for a described group; [None]
    when, in assigned-only mode, a member's assignment cannot be read. *)
Definition offsetRequest (e : Exporter) (snap : Snapshot)
    (group : GroupDescription) : option OffsetFetchRequest :=
  if offsetShowAll e
  then Some (requestShowAll snap (mkRequest (GroupId group) 1 []))
  else requestAssigned (Members group) (mkRequest (GroupId group) 1 []).

(** The scan of [broker] processes [topic] for [group] with the partition
    blocks [bs]: the cycle gets past the topic walk, the scan of the broker
    gets to its described groups, the loop over these groups reaches
    [group] (in assigned-only mode no group before it stops the scan), the
    request for [group] is built and answered, and the answer has the
    blocks [bs] for [topic], with a commit in at least one of them. *)
Definition processed (e : Exporter) (broker : Z) (group : GroupDescription)
    (topic : string) (bs : list (Z * OffsetFetchResponseBlock)) : Prop :=
  completes e = true
  /\ In broker (Brokers (client e))
  /\ scansGroups e broker = true
  /\ exists before after walk snap request blocks,
       describedGroups e broker = before ++ group :: after
       /\ (offsetShowAll e = true \/ Forall readable before)
       /\ topicPhase e (fst (Topics (client e))) = Some (walk, snap)
       /\ offsetRequest e snap group = Some request
       /\ FetchOffset (client e) broker request = (blocks, None)
       /\ In (topic, bs) blocks
       /\ topicConsumed bs = true.

(** ** Coalesced scrapes (lines 298-346)

    [Collect] with [allowConcurrent] off, [collectChans] and the goroutine
    that drains [original], as a step relation over their program points.
    A caller is one call of [Collect]; its channel [ch] is written by
    index, and [got] is what the registry has read from it.  [original] is
    unbuffered, so a send of [collect] and the receive of the drain
    goroutine happen together, in one step; the [append] of line 328 is a
    step of its own.  The samples [collect] sends are those of the cycle
    of [Section Cycle], in the order of its trace.  A wait channel is a
    number; [closedChs] lists those closed so far. *)

Module Scrapes.

(** Where a call of [Collect] stands. *)
Inductive CallerPc : Type :=
| AtLock
    (* line 304: about to take [sgMutex] *)
| Locked
    (* lines 305-313: holding [sgMutex] *)
| Unlocking (waiter : option nat)
    (* line 315: [waiter] read, about to release [sgMutex] *)
| Waiting (waiter : option nat)
    (* line 317: [<-waiter] *)
| Done.
    (* [Collect] has returned *)

Record Caller : Type := mkCaller {
  cpc : CallerPc;
  got : list Metric
}.

(** Where the goroutine of lines 326-330 stands. *)
Inductive DrainPc : Type :=
| Ranging
    (* line 327: at [range original] *)
| Appending (m : Metric)
    (* line 328: [m] received, not yet appended *)
| Drained.
    (* [original] is closed, the loop is over *)

(** Where a call of [collectChans] stands. *)
Inductive CyclePc : Type :=
| Starting
    (* lines 324-329 *)
| Collecting (rest : list Metric) (o : Outcome)
    (* line 330: inside [e.collect(original)], [rest] still to send *)
| Closing
    (* line 331 *)
| Locking
    (* line 333 *)
| Replaying (chs : list nat)
    (* lines 334-338: holding [sgMutex], [chs] still to serve *)
| Notifying
    (* line 343: [sgChans] is reset *)
| Releasing
    (* line 345 *)
| Finished.

Record Cycle : Type := mkCycle {
  kpc : CyclePc;
  quit : nat;
  originalClosed : bool;
  container : list Metric;
  drain : DrainPc
}.

Record State : Type := mkState {
  sgMutex : bool;
  sgChans : list nat;
  sgWaitCh : option nat;
  closedChs : list nat;
  fresh : nat;
  callers : list Caller;
  cycles : list Cycle;
  globals : Globals
}.

(** [n] calls of [Collect] about to begin, no cycle under way. *)
Definition init (n : nat) (G : Globals) : State :=
  mkState false [] None [] 0 (replicate n (mkCaller AtLock [])) [] G.

Section Steps.

Variable e : Exporter.

Inductive step : State -> State -> Prop :=
| caller_lock chans w cl f cs ks G i g :
    (* line 304 *)
    cs !! i = Some (mkCaller AtLock g) ->
    step (mkState false chans w cl f cs ks G)
         (mkState true chans w cl f (<[ i := mkCaller Locked g ]> cs) ks G)
| caller_first m w cl f cs ks G i g :
    (* lines 305-310 and 313: the slice was empty, a cycle is started *)
    cs !! i = Some (mkCaller Locked g) ->
    step (mkState m [] w cl f cs ks G)
         (mkState m [i] (Some f) cl (S f)
                  (<[ i := mkCaller (Unlocking (Some f)) g ]> cs)
                  (ks ++ [mkCycle Starting f false [] Ranging]) G)
| caller_more m chans w cl f cs ks G i g :
    (* lines 305-306 and 310-313: a cycle is under way *)
    cs !! i = Some (mkCaller Locked g) ->
    chans <> [] ->
    step (mkState m chans w cl f cs ks G)
         (mkState m (chans ++ [i]) w cl f
                  (<[ i := mkCaller (Unlocking w) g ]> cs) ks G)
| caller_unlock m chans w cl f cs ks G i g waiter :
    (* line 315 *)
    cs !! i = Some (mkCaller (Unlocking waiter) g) ->
    step (mkState m chans w cl f cs ks G)
         (mkState false chans w cl f
                  (<[ i := mkCaller (Waiting waiter) g ]> cs) ks G)
| caller_return m chans w cl f cs ks G i g q :
    (* line 317: the wait channel is closed *)
    cs !! i = Some (mkCaller (Waiting (Some q)) g) ->
    In q cl ->
    step (mkState m chans w cl f cs ks G)
         (mkState m chans w cl f (<[ i := mkCaller Done g ]> cs) ks G)
| cycle_enter m chans w cl f cs ks G k q oc ct d clk :
    (* line 330: [collect] is entered *)
    ks !! k = Some (mkCycle Starting q oc ct d) ->
    step (mkState m chans w cl f cs ks G)
         (mkState m chans w cl f cs
                  (<[ k := mkCycle
                             (Collecting
                                (metricsOf (traceOf (collect e clk G)))
                                (collect e clk G))
                             q oc ct d ]> ks) G)
| cycle_send m chans w cl f cs ks G k q oc ct x rest o :
    (* a send of [collect] meets the receive of line 327 *)
    ks !! k = Some (mkCycle (Collecting (x :: rest) o) q oc ct Ranging) ->
    step (mkState m chans w cl f cs ks G)
         (mkState m chans w cl f cs
                  (<[ k := mkCycle (Collecting rest o) q oc ct (Appending x) ]>
                     ks) G)
| drain_append m chans w cl f cs ks G k pc q oc ct x :
    (* line 328 *)
    ks !! k = Some (mkCycle pc q oc ct (Appending x)) ->
    step (mkState m chans w cl f cs ks G)
         (mkState m chans w cl f cs
                  (<[ k := mkCycle pc q oc (ct ++ [x]) Ranging ]> ks) G)
| cycle_return m chans w cl f cs ks G k q oc ct d o :
    (* [collect] returns, with the state it leaves *)
    ks !! k = Some (mkCycle (Collecting [] o) q oc ct d) ->
    returned o = true ->
    step (mkState m chans w cl f cs ks G)
         (mkState m chans w cl f cs
                  (<[ k := mkCycle Closing q oc ct d ]> ks) (globalsOf o))
| cycle_close m chans w cl f cs ks G k q oc ct d :
    (* line 331 *)
    ks !! k = Some (mkCycle Closing q oc ct d) ->
    step (mkState m chans w cl f cs ks G)
         (mkState m chans w cl f cs
                  (<[ k := mkCycle Locking q true ct d ]> ks) G)
| drain_exit m chans w cl f cs ks G k pc q ct :
    (* line 327: [original] is closed and empty *)
    ks !! k = Some (mkCycle pc q true ct Ranging) ->
    step (mkState m chans w cl f cs ks G)
         (mkState m chans w cl f cs
                  (<[ k := mkCycle pc q true ct Drained ]> ks) G)
| cycle_lock chans w cl f cs ks G k q oc ct d :
    (* lines 333-334 *)
    ks !! k = Some (mkCycle Locking q oc ct d) ->
    step (mkState false chans w cl f cs ks G)
         (mkState true chans w cl f cs
                  (<[ k := mkCycle (Replaying chans) q oc ct d ]> ks) G)
| cycle_replay m chans w cl f cs ks G k q oc ct d c chs pc g :
    (* lines 335-337: [container], as it is now, is sent to one channel *)
    ks !! k = Some (mkCycle (Replaying (c :: chs)) q oc ct d) ->
    cs !! c = Some (mkCaller pc g) ->
    step (mkState m chans w cl f cs ks G)
         (mkState m chans w cl f (<[ c := mkCaller pc (g ++ ct) ]> cs)
                  (<[ k := mkCycle (Replaying chs) q oc ct d ]> ks) G)
| cycle_reset m chans w cl f cs ks G k q oc ct d :
    (* line 341 *)
    ks !! k = Some (mkCycle (Replaying []) q oc ct d) ->
    step (mkState m chans w cl f cs ks G)
         (mkState m [] w cl f cs
                  (<[ k := mkCycle Notifying q oc ct d ]> ks) G)
| cycle_notify m chans w cl f cs ks G k q oc ct d :
    (* line 343 *)
    ks !! k = Some (mkCycle Notifying q oc ct d) ->
    step (mkState m chans w cl f cs ks G)
         (mkState m chans w (q :: cl) f cs
                  (<[ k := mkCycle Releasing q oc ct d ]> ks) G)
| cycle_release m chans w cl f cs ks G k q oc ct d :
    (* line 345 *)
    ks !! k = Some (mkCycle Releasing q oc ct d) ->
    step (mkState m chans w cl f cs ks G)
         (mkState false chans w cl f cs
                  (<[ k := mkCycle Finished q oc ct d ]> ks) G).

(** The states of the executions that start in [s]. *)
Inductive reachable (s : State) : State -> Prop :=
| reach_refl : reachable s s
| reach_step s1 s2 : reachable s s1 -> step s1 s2 -> reachable s s2.

End Steps.

(** The goroutine holds [sgMutex]. *)
Definition holdsC (c : Caller) : nat :=
  match cpc c with Locked | Unlocking _ => 1 | _ => 0 end%nat.

Definition holdsK (k : Cycle) : nat :=
  match kpc k with Replaying _ | Notifying | Releasing => 1 | _ => 0 end%nat.

(** The call of [collectChans] has not got to its end. *)
Definition activeK (k : Cycle) : nat :=
  match kpc k with Finished => 0 | _ => 1 end%nat.

(** The call of [collectChans] is past line 341. *)
Definition resetK (k : Cycle) : nat :=
  match kpc k with Notifying | Releasing => 1 | _ => 0 end%nat.

(** The number of calls of [collectChans] under way. *)
Definition underWay (s : State) : nat := sum_list_with activeK (cycles s).

(** What holds of every state of an execution that starts in [init n G]:
    [sgMutex] is taken exactly when one goroutine is in a critical
    section, at most one call of [collectChans] is under way, and while
    [sgChans] is empty a call under way is past its reset, with the
    mutex. *)
Record Inv (s : State) : Prop := mkInv {
  inv_mutex :
    (sum_list_with holdsC (callers s) + sum_list_with holdsK (cycles s)
     = if sgMutex s then 1 else 0)%nat;
  inv_one : (underWay s <= 1)%nat;
  inv_reset :
    sgChans s = [] -> underWay s = sum_list_with resetK (cycles s)
}.

End Scrapes.

(** * Properties *)

(** ** Machine numbers *)

Lemma wrap_in_range z : Int64.in_range (Int64.wrap z).
Proof.
  unfold Int64.in_range, Int64.wrap, Int64.half, Int64.modulus.
  pose proof (Z.mod_pos_bound (z + 2 ^ 63) (2 ^ 64)). lia.
Qed.

(** In range, the reduction changes nothing. *)
Lemma wrap_exact z : Int64.in_range z -> Int64.wrap z = z.
Proof.
  unfold Int64.in_range, Int64.wrap, Int64.half, Int64.modulus. intros Hz.
  rewrite Z.mod_small by lia. lia.
Qed.

Lemma sub_exact a b : Int64.in_range (a - b) -> Int64.sub a b = a - b.
Proof. apply wrap_exact. Qed.

Lemma add_exact a b : Int64.in_range (a + b) -> Int64.add a b = a + b.
Proof. apply wrap_exact. Qed.

Lemma float_neq_by_class (x y : float) :
  PrimFloat.classify x <> PrimFloat.classify y -> x <> y.
Proof. intros Hc Heq. apply Hc. now rewrite Heq. Qed.

Lemma minus_one_not_zero : (-1)%float <> 0%float.
Proof. apply float_neq_by_class. vm_compute. discriminate. Qed.

Lemma minus_two_not_zero : (-2)%float <> 0%float.
Proof. apply float_neq_by_class. vm_compute. discriminate. Qed.

(** ** The consumption rate estimator *)

Section Estimator.

Variables (G : Globals) (group topic : string).

Lemma storeBaseline_start v : start (storeBaseline G group topic v) = start G.
Proof. reflexivity. Qed.

Lemma storeBaseline_lastScrape v :
  lastScrape (storeBaseline G group topic v) = lastScrape G.
Proof. reflexivity. Qed.

Lemma storeBaseline_topicOffset v :
  topicOffset (storeBaseline G group topic v) = topicOffset G.
Proof. reflexivity. Qed.

(** The key just written reads back the value written. *)
Lemma readLastOffset_storeBaseline v :
  readLastOffset (storeBaseline G group topic v) group topic = v.
Proof.
  unfold readLastOffset, storeBaseline; simpl.
  rewrite lookup_insert_eq. simpl.
  rewrite lookup_insert_eq. simpl.
  now rewrite lookup_insert_eq.
Qed.

(** Every group whose entry refers to [topicOffset] reads the value just
    written for [topic], whoever wrote it. *)
Lemma readLastOffset_alias v (other : string) :
  lastOffset G !! other = Some (topicOffset G) ->
  readLastOffset (storeBaseline G group topic v) other topic = v.
Proof.
  intros Hother. unfold readLastOffset, storeBaseline; simpl.
  destruct (decide (group = other)) as [->|Hne].
  - rewrite lookup_insert_eq. simpl. rewrite lookup_insert_eq. simpl.
    now rewrite lookup_insert_eq.
  - rewrite lookup_insert_ne by assumption. rewrite Hother.
    rewrite lookup_insert_eq. simpl. now rewrite lookup_insert_eq.
Qed.

(** Another topic of the same inner map keeps its value. *)
Lemma readLastOffset_other_topic v (other topic' : string) :
  topic <> topic' ->
  lastOffset G !! other = Some (topicOffset G) ->
  readLastOffset (storeBaseline G group topic v) other topic'
  = readLastOffset G other topic'.
Proof.
  intros Hne Hother. unfold readLastOffset, storeBaseline; simpl.
  rewrite Hother.
  assert (Hl : <[group:=topicOffset G]> (lastOffset G) !! other
               = Some (topicOffset G)).
  { destruct (decide (group = other)) as [->|Hg].
    - now rewrite lookup_insert_eq.
    - now rewrite lookup_insert_ne. }
  rewrite Hl, lookup_insert_eq. simpl.
  rewrite lookup_insert_ne by assumption.
  destruct (store G !! topicOffset G); simpl; [reflexivity|].
  now rewrite lookup_empty.
Qed.

(** No earlier scrape: the two sentinels, whatever the other inputs. *)
Lemma consumeRateTime_first v timeDiff :
  start G = true ->
  consumeRateTime G group topic v timeDiff = ((-1)%float, (-2)%float).
Proof. intros Hs. unfold consumeRateTime. now rewrite Hs. Qed.

(** A delta that is not positive: rate 0 and the "not applicable" drain
    time. *)
Lemma consumeRateTime_no_progress v timeDiff :
  start G = false ->
  Int64.sub v (readLastOffset G group topic) <= 0 ->
  consumeRateTime G group topic v timeDiff = (0%float, (-1)%float).
Proof.
  intros Hs Hle. unfold consumeRateTime. rewrite Hs; simpl.
  destruct (Z.leb_spec (Int64.sub v (readLastOffset G group topic)) 0);
    [reflexivity | lia].
Qed.

(** A positive delta: the two quotients. *)
Lemma consumeRateTime_progress v timeDiff :
  start G = false ->
  0 < Int64.sub v (readLastOffset G group topic) ->
  consumeRateTime G group topic v timeDiff
  = (PrimFloat.div (Int64.to_float (Int64.sub v (readLastOffset G group topic)))
                   (Int64.to_float timeDiff),
     PrimFloat.div (Int64.to_float v)
       (PrimFloat.div
          (Int64.to_float (Int64.sub v (readLastOffset G group topic)))
          (Int64.to_float timeDiff))).
Proof.
  intros Hs Hlt. unfold consumeRateTime. rewrite Hs; simpl.
  destruct (Z.leb_spec (Int64.sub v (readLastOffset G group topic)) 0);
    [lia | reflexivity].
Qed.

End Estimator.

(** The state in which (g1, t1) has the baseline 1000 and a cycle has
    completed. *)
Example rate_1000_to_1500_in_50s :
  let G := storeBaseline (endOfCycle Cluster.firstClock (initGlobals 0))
                         "g1" "t1" 1000 in
  consumeRateTime G "g1" "t1" 1500 50 = (10%float, 150%float).
Proof. vm_compute. reflexivity. Qed.

Example rate_1500_to_1200 :
  let G := storeBaseline (endOfCycle Cluster.firstClock (initGlobals 0))
                         "g1" "t1" 1500 in
  consumeRateTime G "g1" "t1" 1200 50 = (0%float, (-1)%float).
Proof. vm_compute. reflexivity. Qed.

(** ** The first cycle reports no rate *)

Lemma notRate_unavailable ev : notRate ev -> rateUnavailable ev.
Proof. destruct ev as [m|l]; simpl; [intros Hd Hr; contradiction | trivial]. Qed.

(** Splits a goal [Forall P tr] along the shape of [tr]. *)
Ltac split_trace :=
  repeat first
    [ apply Forall_nil_2
    | apply Forall_app_2
    | apply List.Forall_cons ].

Section FirstCycle.

Variable e : Exporter.

Lemma zookeeperLag_notRate topic partition currentOffset :
  Forall notRate (zookeeperLag e topic partition currentOffset).
Proof.
  unfold zookeeperLag. destruct (useZooKeeperLag e); [|constructor].
  destruct (Consumergroups (client e)) as [groups err].
  apply Forall_app_2.
  - destruct (failed err); split_trace; exact I.
  - induction groups as [|g groups IH]; simpl; [constructor|].
    apply Forall_app_2; [|exact IH].
    destruct (0 <? _); split_trace; simpl; discriminate.
Qed.

Lemma partitionFacts_notRate topic partition offs :
  Forall notRate (fst (partitionFacts e topic partition offs)).
Proof.
  unfold partitionFacts.
  destruct (Leader (client e) topic partition);
    destruct (GetOffset (client e) TopicWalk topic partition OffsetNewest) as [v1 e1];
    destruct (GetOffset (client e) TopicWalk topic partition OffsetOldest) as [v2 e2];
    destruct (Replicas (client e) topic partition) as [r e3];
    destruct (InSyncReplicas (client e) topic partition) as [i e4];
    destruct (failed e1), (failed e2), (failed e3), (failed e4); simpl;
    split_trace; try exact I; try (simpl; discriminate);
    apply zookeeperLag_notRate.
Qed.

Lemma partitionsLoop_notRate topic ps offs :
  Forall notRate (fst (partitionsLoop e topic ps offs)).
Proof.
  revert offs. induction ps as [|p ps IH]; intros offs; simpl; [constructor|].
  pose proof (partitionFacts_notRate topic p offs) as Hp.
  destruct (partitionFacts e topic p offs) as [tr offs1].
  specialize (IH offs1).
  destruct (partitionsLoop e topic ps offs1) as [tr' offs2]; simpl in *.
  now apply Forall_app_2.
Qed.

Lemma getTopicMetrics_notRate topic snap :
  Forall notRate (fst (getTopicMetrics e topic snap)).
Proof.
  unfold getTopicMetrics. destruct (topicFilter e topic); simpl; [|constructor].
  destruct (Partitions (client e) topic) as [ps err].
  destruct (failed err); simpl; [split_trace; exact I|].
  pose proof (partitionsLoop_notRate topic ps ∅) as Hp.
  destruct (partitionsLoop e topic ps ∅) as [tr offs]; simpl in *.
  constructor; [simpl; discriminate | exact Hp].
Qed.

Lemma runTopics_notRate queued snap :
  Forall notRate (fst (runTopics e queued snap)).
Proof.
  revert snap. induction queued as [|t queued IH]; intros snap; simpl;
    [constructor|].
  pose proof (getTopicMetrics_notRate t snap) as Ht.
  destruct (getTopicMetrics e t snap) as [tr snap1].
  specialize (IH snap1).
  destruct (runTopics e queued snap1) as [tr' snap2]; simpl in *.
  now apply Forall_app_2.
Qed.

Lemma topicPhase_notRate topics walk snap :
  topicPhase e topics = Some (walk, snap) -> Forall notRate walk.
Proof.
  unfold topicPhase. destruct (List.filter (topicFilter e) topics) as [|t q].
  - intros [= <- <-]. constructor.
  - destruct (poolSize e topics <=? 0); [discriminate|].
    intros Heq.
    assert (Hr : runTopics e (t :: q) emptySnapshot = (walk, snap))
      by congruence.
    pose proof (runTopics_notRate (t :: q) emptySnapshot) as H.
    rewrite Hr in H. exact H.
Qed.

Lemma partitionLag_notRate broker group topic partition blk cs ls :
  Forall notRate
    (fst (fst (partitionLag e broker group topic partition blk cs ls))).
Proof.
  unfold partitionLag. destruct (negb (Err blk =? ErrNoError)); simpl;
    [split_trace; exact I|].
  destruct (GetOffset (client e) (GroupScan broker group) topic partition
              OffsetNewest) as [v err].
  destruct (failed err), (Offset blk =? -1); simpl; split_trace;
    try exact I; simpl; discriminate.
Qed.

Lemma partitionLags_notRate broker group topic bs cs ls :
  Forall notRate (fst (fst (partitionLags e broker group topic bs cs ls))).
Proof.
  revert cs ls. induction bs as [|[p blk] bs IH]; intros cs ls; simpl;
    [constructor|].
  pose proof (partitionLag_notRate broker group topic p blk cs ls) as Hp.
  destruct (partitionLag e broker group topic p blk cs ls) as [[tr cs1] ls1].
  specialize (IH cs1 ls1).
  destruct (partitionLags e broker group topic bs cs1 ls1) as [[tr' cs2] ls2].
  simpl in *. now apply Forall_app_2.
Qed.

Lemma reportTopic_first broker group topic bs G :
  start G = true ->
  Forall rateUnavailable (fst (reportTopic e broker group topic bs 0 G))
  /\ start (snd (reportTopic e broker group topic bs 0 G)) = true.
Proof.
  intros Hs. unfold reportTopic.
  pose proof (partitionLags_notRate broker group topic bs 0 0) as Hp.
  destruct (partitionLags e broker group topic bs 0 0) as [[tr cs] ls].
  rewrite (consumeRateTime_first G group topic cs 0 Hs). simpl in *.
  split; [|exact Hs].
  apply Forall_app_2.
  - eapply Forall_impl; [exact Hp | exact notRate_unavailable].
  - split_trace; simpl; [intros _; eauto | discriminate].
Qed.

Lemma blocksLoop_first broker group blocks G :
  start G = true ->
  Forall rateUnavailable (fst (blocksLoop e broker group blocks 0 G))
  /\ start (snd (blocksLoop e broker group blocks 0 G)) = true.
Proof.
  revert G. induction blocks as [|[topic bs] blocks IH]; intros G Hs; simpl.
  - split; [constructor | exact Hs].
  - destruct (topicConsumed bs); [|now apply IH].
    destruct (reportTopic_first broker group topic bs G Hs) as [Ht Hs1].
    destruct (reportTopic e broker group topic bs 0 G) as [tr G1].
    destruct (IH G1 Hs1) as [Hr Hs2].
    destruct (blocksLoop e broker group blocks 0 G1) as [tr' G2]; simpl in *.
    split; [now apply Forall_app_2 | exact Hs2].
Qed.

Lemma groupsLoop_first snap broker groups G :
  start G = true ->
  Forall rateUnavailable (fst (groupsLoop e snap broker groups 0 G))
  /\ start (snd (groupsLoop e snap broker groups 0 G)) = true.
Proof.
  revert G. induction groups as [|group groups IH]; intros G Hs; simpl.
  - split; [constructor | exact Hs].
  - destruct (if offsetShowAll e then _ else _) as [request|]; simpl.
    2: { split; [split_trace; exact I | exact Hs]. }
    destruct (FetchOffset (client e) broker request) as [blocks err].
    destruct (failed err).
    + destruct (IH G Hs) as [Hr Hs1].
      destruct (groupsLoop e snap broker groups 0 G) as [tr G1]; simpl in *.
      split; [|exact Hs1].
      split_trace; [simpl; discriminate | exact I | exact Hr].
    + destruct (blocksLoop_first broker (GroupId group) blocks G Hs) as [Hb Hs1].
      destruct (blocksLoop e broker (GroupId group) blocks 0 G) as [tr G1].
      destruct (IH G1 Hs1) as [Hr Hs2].
      destruct (groupsLoop e snap broker groups 0 G1) as [tr' G2]; simpl in *.
      split; [|exact Hs2].
      split_trace; [simpl; discriminate | exact Hb | exact Hr].
Qed.

Lemma getConsumerGroupMetrics_first snap clk broker G :
  start G = true ->
  Forall rateUnavailable (fst (getConsumerGroupMetrics e snap clk broker G))
  /\ start (snd (getConsumerGroupMetrics e snap clk broker G)) = true.
Proof.
  intros Hs. unfold getConsumerGroupMetrics, timeDiffAt. rewrite Hs.
  assert (Hlog : forall l, Forall rateUnavailable [LogError l]
                           /\ start G = true).
  { intros l. split; [split_trace; exact I | exact Hs]. }
  assert (Hrest :
    Forall rateUnavailable
      (fst (let '(groups, err) := ListGroups (client e) broker in
            if failed err then ([LogError CannotGetConsumerGroup], G)
            else
              let '(describeGroups, err0) :=
                DescribeGroups (client e) broker
                  (List.filter (groupFilter e) groups) in
              if failed err0 then ([LogError CannotGetDescribeGroups], G)
              else groupsLoop e snap broker describeGroups 0 G))
    /\ start
         (snd (let '(groups, err) := ListGroups (client e) broker in
               if failed err then ([LogError CannotGetConsumerGroup], G)
               else
                 let '(describeGroups, err0) :=
                   DescribeGroups (client e) broker
                     (List.filter (groupFilter e) groups) in
                 if failed err0 then ([LogError CannotGetDescribeGroups], G)
                 else groupsLoop e snap broker describeGroups 0 G)) = true).
  { destruct (ListGroups (client e) broker) as [groups err].
    destruct (failed err); [apply Hlog|].
    destruct (DescribeGroups (client e) broker _) as [described err0].
    destruct (failed err0); [apply Hlog|].
    now apply groupsLoop_first. }
  destruct (Open (client e) broker) as [[|msg]|]; [exact Hrest | apply Hlog | exact Hrest].
Qed.

Lemma brokersLoop_first snap clk brokers G :
  start G = true ->
  Forall rateUnavailable (fst (brokersLoop e snap clk brokers G))
  /\ start (snd (brokersLoop e snap clk brokers G)) = true.
Proof.
  revert G. induction brokers as [|b brokers IH]; intros G Hs; simpl.
  - split; [constructor | exact Hs].
  - destruct (getConsumerGroupMetrics_first snap clk b G Hs) as [Hb Hs1].
    destruct (getConsumerGroupMetrics e snap clk b G) as [tr G1].
    destruct (IH G1 Hs1) as [Hr Hs2].
    destruct (brokersLoop e snap clk brokers G1) as [tr' G2]; simpl in *.
    split; [now apply Forall_app_2 | exact Hs2].
Qed.

Lemma groupPhase_first snap clk G :
  start G = true ->
  Forall rateUnavailable (fst (groupPhase e snap clk G)).
Proof.
  intros Hs. unfold groupPhase. destruct (0 <? _).
  - now apply brokersLoop_first.
  - split_trace; exact I.
Qed.

Lemma refreshMetadata_start clk G :
  start (snd (refreshMetadata e clk G)) = start G.
Proof. unfold refreshMetadata. now destruct (_ <? _). Qed.

Lemma refreshMetadata_notRate clk G :
  Forall notRate (fst (refreshMetadata e clk G)).
Proof.
  unfold refreshMetadata. destruct (_ <? _); simpl; [|constructor].
  destruct (failed _); split_trace; exact I.
Qed.

End FirstCycle.

(** The first cycle of the small cluster does emit rate samples, one per
    group, with the sentinels. *)
Example first_cycle_of_cluster :
  In (Emit (mkMetric consumergroupLagSumRate 300
              [LStr "g1"; LStr "orders"; LFloat (-1)%float; LFloat (-2)%float;
               LInt 0]))
     (traceOf (collect Cluster.exporter Cluster.firstClock (initGlobals 0)))
  /\ In (Emit (mkMetric consumergroupLagSumRate 700
                 [LStr "g2"; LStr "orders"; LFloat (-1)%float; LFloat (-2)%float;
                  LInt 0]))
        (traceOf (collect Cluster.exporter Cluster.firstClock (initGlobals 0))).
Proof. vm_compute. tauto. Qed.

(** ** Baselines of different groups *)

Lemma allAliased_init refreshAt : allAliased (initGlobals refreshAt).
Proof. intros group l H. simpl in H. now rewrite lookup_empty in H. Qed.

Lemma allAliased_storeBaseline G group topic v :
  allAliased G -> allAliased (storeBaseline G group topic v).
Proof.
  intros HG other l. unfold storeBaseline; simpl.
  destruct (decide (group = other)) as [->|Hne].
  - rewrite lookup_insert_eq. now intros [= <-].
  - rewrite lookup_insert_ne by assumption. apply HG.
Qed.

(** Once a group has an entry, a write for any group under [topic]
    replaces what that group reads under [topic]. *)
Lemma storeBaseline_overwrites G group topic v other l :
  allAliased G ->
  lastOffset G !! other = Some l ->
  readLastOffset (storeBaseline G group topic v) other topic = v.
Proof.
  intros HG Hl. apply readLastOffset_alias.
  now rewrite Hl, (HG other l Hl).
Qed.

(** Every cycle keeps the baselines of all groups in one map. *)

Section Aliasing.

Variable e : Exporter.

Lemma reportTopic_allAliased broker group topic bs timeDiff G :
  allAliased G ->
  allAliased (snd (reportTopic e broker group topic bs timeDiff G)).
Proof.
  intros HG. unfold reportTopic.
  destruct (partitionLags e broker group topic bs 0 0) as [[tr cs] ls].
  destruct (consumeRateTime G group topic cs timeDiff) as [rate time].
  simpl. now apply allAliased_storeBaseline.
Qed.

Lemma blocksLoop_allAliased broker group blocks timeDiff G :
  allAliased G ->
  allAliased (snd (blocksLoop e broker group blocks timeDiff G)).
Proof.
  revert G. induction blocks as [|[topic bs] blocks IH]; intros G HG; simpl;
    [exact HG|].
  destruct (topicConsumed bs); [|now apply IH].
  pose proof (reportTopic_allAliased broker group topic bs timeDiff G HG) as H1.
  destruct (reportTopic e broker group topic bs timeDiff G) as [tr G1].
  specialize (IH G1 H1).
  now destruct (blocksLoop e broker group blocks timeDiff G1) as [tr' G2].
Qed.

Lemma groupsLoop_allAliased snap broker groups timeDiff G :
  allAliased G ->
  allAliased (snd (groupsLoop e snap broker groups timeDiff G)).
Proof.
  revert G. induction groups as [|group groups IH]; intros G HG; simpl;
    [exact HG|].
  destruct (if offsetShowAll e then _ else _) as [request|]; [|exact HG].
  destruct (FetchOffset (client e) broker request) as [blocks err].
  destruct (failed err).
  - specialize (IH G HG).
    now destruct (groupsLoop e snap broker groups timeDiff G) as [tr G1].
  - pose proof (blocksLoop_allAliased broker (GroupId group) blocks timeDiff
                  G HG) as H1.
    destruct (blocksLoop e broker (GroupId group) blocks timeDiff G)
      as [tr G1].
    specialize (IH G1 H1).
    now destruct (groupsLoop e snap broker groups timeDiff G1) as [tr' G2].
Qed.

Lemma getConsumerGroupMetrics_allAliased snap clk broker G :
  allAliased G ->
  allAliased (snd (getConsumerGroupMetrics e snap clk broker G)).
Proof.
  intros HG. unfold getConsumerGroupMetrics.
  destruct (ListGroups (client e) broker) as [groups err].
  destruct (DescribeGroups (client e) broker _) as [described err'].
  pose proof (groupsLoop_allAliased snap broker described
                (timeDiffAt clk broker G) G HG) as Hloop.
  destruct (Open (client e) broker) as [[|msg]|];
    destruct (failed err), (failed err'); simpl; assumption.
Qed.

Lemma brokersLoop_allAliased snap clk brokers G :
  allAliased G -> allAliased (snd (brokersLoop e snap clk brokers G)).
Proof.
  revert G. induction brokers as [|b brokers IH]; intros G HG; simpl;
    [exact HG|].
  pose proof (getConsumerGroupMetrics_allAliased snap clk b G HG) as H1.
  destruct (getConsumerGroupMetrics e snap clk b G) as [tr G1].
  specialize (IH G1 H1).
  now destruct (brokersLoop e snap clk brokers G1) as [tr' G2].
Qed.

(** Whatever the cluster answers, after a cycle every group that has a
    baseline shares the map [topicOffset] with every other. *)
Lemma collect_allAliased clk G :
  allAliased G -> allAliased (globalsOf (collect e clk G)).
Proof.
  intros HG. unfold collect.
  assert (H1 : allAliased (snd (refreshMetadata e clk G))).
  { unfold refreshMetadata. now destruct (_ <? _). }
  destruct (refreshMetadata e clk G) as [refresh G1]. simpl in H1.
  destruct (Topics (client e)) as [topics err].
  destruct (failed err); [exact H1|].
  destruct (topicPhase e topics) as [[walk snap]|]; [|exact H1].
  assert (H2 : allAliased (snd (groupPhase e snap clk G1))).
  { unfold groupPhase. destruct (0 <? _); [|exact H1].
    now apply brokersLoop_allAliased. }
  destruct (groupPhase e snap clk G1) as [scan G2]. simpl in *.
  exact H2.
Qed.

End Aliasing.

(** Picks the disjunct of a computed membership that holds. *)
Ltac pick_member :=
  vm_compute; repeat first [ left; reflexivity | right ].

(** C1, at an input where the code departs from it.  Group [g2] stores the
    baseline 100 for topic [t]; group [g1] then stores 500 for the same
    topic; the baseline read for ([g2], [t]) is now 500.  In the small
    cluster, where [g1] has committed 900 and [g2] 500 on [orders] and
    nothing is consumed between two cycles, [g1] reads the baseline 500
    that [g2] stored, and the second cycle reports for [g1] the rate
    400/60 per second over sixty seconds. *)
Theorem baseline_shared_between_groups :
  let G1 := storeBaseline (initGlobals 0) "g2" "t" 100 in
  let G2 := storeBaseline G1 "g1" "t" 500 in
  readLastOffset G1 "g2" "t" = 100
  /\ readLastOffset G2 "g2" "t" = 500
  /\ readLastOffset Cluster.afterFirstCycle "g1" "orders" = 500
  /\ In (Emit (mkMetric consumergroupLagSumRate 300
                 [LStr "g1"; LStr "orders";
                  LFloat (PrimFloat.div 400 60);
                  LFloat (PrimFloat.div 900 (PrimFloat.div 400 60));
                  LInt 60]))
        (traceOf (collect Cluster.exporter Cluster.secondClock
                          Cluster.afterFirstCycle)).
Proof.
  cbv zeta. split; [reflexivity|]. split; [reflexivity|].
  split; [reflexivity|]. pick_member.
Qed.

(** ** Rate and drain time *)

(** C6, at an input where the code departs from it.  The baseline of
    ([g1], [t1]) is 1000 and the previous cycle ended in second 1001; a
    scan that starts in that same second finds the aggregate offset 1500.
    The elapsed time is 0, the delta 500 is positive, and the rate is
    [+Inf] with drain time 0.  With 50 seconds elapsed the same offsets
    give rate 10 and drain time 150. *)
Theorem rate_infinite_within_one_second :
  let G := storeBaseline (endOfCycle Cluster.firstClock (initGlobals 0))
                         "g1" "t1" 1000 in
  let sameSecond := mkClock 1001 (fun _ => 1001) 1002 in
  timeDiffAt sameSecond 1 G = 0
  /\ consumeRateTime G "g1" "t1" 1500 (timeDiffAt sameSecond 1 G)
     = (infinity, 0%float)
  /\ consumeRateTime G "g1" "t1" 1500 50 = (10%float, 150%float).
Proof.
  cbv zeta. split; [reflexivity|]. split; vm_compute; reflexivity.
Qed.

(** ** Lag and committed offsets of one reported topic *)

Section ReportedTopic.

Variables (e : Exporter) (broker : Z) (group topic : string).

Lemma partitionLags_app bs1 bs2 cs ls :
  partitionLags e broker group topic (bs1 ++ bs2) cs ls
  = let '(tr1, cs1, ls1) := partitionLags e broker group topic bs1 cs ls in
    let '(tr2, cs2, ls2) := partitionLags e broker group topic bs2 cs1 ls1 in
    (tr1 ++ tr2, cs2, ls2).
Proof.
  revert cs ls. induction bs1 as [|[p blk] bs1 IH]; intros cs ls; simpl.
  - now destruct (partitionLags e broker group topic bs2 cs ls) as [[tr2 cs2] ls2].
  - destruct (partitionLag e broker group topic p blk cs ls) as [[tr cs0] ls0].
    rewrite IH.
    destruct (partitionLags e broker group topic bs1 cs0 ls0) as [[tr1 cs1] ls1].
    destruct (partitionLags e broker group topic bs2 cs1 ls1) as [[tr2 cs2] ls2].
    now rewrite app_assoc.
Qed.

(** The events of an iteration are among the events of the loop. *)
Lemma partitionLags_events bs1 p blk bs2 cs ls ev :
  In ev (fst (fst (partitionLag e broker group topic p blk
            (snd (fst (partitionLags e broker group topic bs1 cs ls)))
            (snd (partitionLags e broker group topic bs1 cs ls))))) ->
  In ev (fst (fst (partitionLags e broker group topic
                     (bs1 ++ (p, blk) :: bs2) cs ls))).
Proof.
  rewrite partitionLags_app. simpl.
  destruct (partitionLags e broker group topic bs1 cs ls) as [[tr1 cs1] ls1].
  simpl.
  destruct (partitionLag e broker group topic p blk cs1 ls1) as [[tr cs2] ls2].
  destruct (partitionLags e broker group topic bs2 cs2 ls2) as [[tr2 cs3] ls3].
  simpl. intros H. apply in_or_app. right. apply in_or_app. now left.
Qed.

(** An iteration that leaves both sums alone can be dropped from the loop
    without changing the sums it ends with. *)
Lemma partitionLags_skip bs1 p blk bs2 cs ls :
  (forall cs' ls',
     snd (fst (partitionLag e broker group topic p blk cs' ls')) = cs'
     /\ snd (partitionLag e broker group topic p blk cs' ls') = ls') ->
  snd (fst (partitionLags e broker group topic (bs1 ++ (p, blk) :: bs2) cs ls))
  = snd (fst (partitionLags e broker group topic (bs1 ++ bs2) cs ls))
  /\ snd (partitionLags e broker group topic (bs1 ++ (p, blk) :: bs2) cs ls)
     = snd (partitionLags e broker group topic (bs1 ++ bs2) cs ls).
Proof.
  intros Hskip. rewrite !partitionLags_app. simpl.
  destruct (partitionLags e broker group topic bs1 cs ls) as [[tr1 cs1] ls1].
  destruct (Hskip cs1 ls1) as [Hc Hl].
  destruct (partitionLag e broker group topic p blk cs1 ls1) as [[tr cs2] ls2].
  simpl in Hc, Hl. subst cs2 ls2.
  destruct (partitionLags e broker group topic bs2 cs1 ls1) as [[tr2 cs3] ls3].
  now simpl.
Qed.

(** The body of the loop for a block without a commit and without a
    request-level error. *)
Lemma partitionLag_uncommitted p blk cs ls :
  Err blk = ErrNoError ->
  Offset blk = -1 ->
  partitionLag e broker group topic p blk cs ls
  = (Emit (mkMetric consumergroupCurrentOffset (-1) (groupLabels group topic p))
       :: (if failed (snd (GetOffset (client e) (GroupScan broker group) topic p
                             OffsetNewest))
           then [LogError (CannotGetCurrentOffset topic p)] else [])
       ++ [Emit (mkMetric consumergroupLag (-1) (groupLabels group topic p))],
     cs, ls).
Proof.
  intros He Ho. unfold partitionLag. rewrite He, Ho. simpl.
  now destruct (GetOffset (client e) (GroupScan broker group) topic p
                  OffsetNewest) as [v err].
Qed.

(** The body of the loop for a block with a commit and without a
    request-level error. *)
Lemma partitionLag_committed p blk cs ls :
  Err blk = ErrNoError ->
  Offset blk <> -1 ->
  partitionLag e broker group topic p blk cs ls
  = let latest :=
      GetOffset (client e) (GroupScan broker group) topic p OffsetNewest in
    (Emit (mkMetric consumergroupCurrentOffset (Offset blk)
                    (groupLabels group topic p))
       :: (if failed (snd latest)
           then [LogError (CannotGetCurrentOffset topic p)] else [])
       ++ [Emit (mkMetric consumergroupLag (Int64.sub (fst latest) (Offset blk))
                          (groupLabels group topic p))],
     Int64.add cs (Offset blk),
     Int64.add ls (Int64.sub (fst latest) (Offset blk))).
Proof.
  intros He Ho. unfold partitionLag. rewrite He. simpl.
  destruct (Z.eqb_spec (Offset blk) (-1)) as [Heq|_]; [contradiction|]. simpl.
  now destruct (GetOffset (client e) (GroupScan broker group) topic p
                  OffsetNewest) as [v err].
Qed.

(** The two aggregate samples a reported topic ends with. *)
Lemma reportTopic_aggregates bs timeDiff G :
  exists rate time,
    In (Emit (mkMetric consumergroupLagSumRate (lagSumOf e broker group topic bs)
                [LStr group; LStr topic; LFloat rate; LFloat time; LInt timeDiff]))
       (fst (reportTopic e broker group topic bs timeDiff G))
    /\ In (Emit (mkMetric consumergroupCurrentOffsetSum
                   (currentOffsetSumOf e broker group topic bs)
                   [LStr group; LStr topic]))
          (fst (reportTopic e broker group topic bs timeDiff G)).
Proof.
  unfold reportTopic, lagSumOf, currentOffsetSumOf.
  destruct (partitionLags e broker group topic bs 0 0) as [[tr cs] ls].
  destruct (consumeRateTime G group topic cs timeDiff) as [rate time].
  exists rate, time. simpl.
  split; apply in_or_app; right; simpl; tauto.
Qed.

(** The per-partition events of the loop are events of the reported
    topic. *)
Lemma reportTopic_events bs timeDiff G ev :
  In ev (lagEvents e broker group topic bs) ->
  In ev (fst (reportTopic e broker group topic bs timeDiff G)).
Proof.
  unfold reportTopic, lagEvents.
  destruct (partitionLags e broker group topic bs 0 0) as [[tr cs] ls].
  destruct (consumeRateTime G group topic cs timeDiff) as [rate time].
  simpl. intros H. apply in_or_app. now left.
Qed.

End ReportedTopic.

(** C8.  In a reported topic, a partition block without a request-level
    error and without a committed offset (offset [-1]) gets a
    [consumergroup.lag] sample whose value is [-1], which is not 0; the
    iteration emits no other lag sample; and the lag sum the topic reports
    is the sum over the other partitions. *)
Theorem uncommitted_partition_lag_sentinel
    (e : Exporter) (broker : Z) (group topic : string)
    (bs1 bs2 : list (Z * OffsetFetchResponseBlock)) (p : Z)
    (blk : OffsetFetchResponseBlock) (timeDiff : Z) (G : Globals) :
  Err blk = ErrNoError ->
  Offset blk = -1 ->
  In (Emit (mkMetric consumergroupLag (-1) (groupLabels group topic p)))
     (fst (reportTopic e broker group topic (bs1 ++ (p, blk) :: bs2) timeDiff G))
  /\ (forall cs ls v l,
        In (Emit (mkMetric consumergroupLag v l))
           (fst (fst (partitionLag e broker group topic p blk cs ls))) ->
        v = -1)
  /\ -1 <> 0
  /\ lagSumOf e broker group topic (bs1 ++ (p, blk) :: bs2)
     = lagSumOf e broker group topic (bs1 ++ bs2)
  /\ exists rate time,
       In (Emit (mkMetric consumergroupLagSumRate
                   (lagSumOf e broker group topic (bs1 ++ bs2))
                   [LStr group; LStr topic; LFloat rate; LFloat time;
                    LInt timeDiff]))
          (fst (reportTopic e broker group topic (bs1 ++ (p, blk) :: bs2)
                            timeDiff G)).
Proof.
  intros He Ho.
  assert (Hsum : lagSumOf e broker group topic (bs1 ++ (p, blk) :: bs2)
                 = lagSumOf e broker group topic (bs1 ++ bs2)).
  { unfold lagSumOf. apply partitionLags_skip. intros cs ls.
    now rewrite partitionLag_uncommitted. }
  split; [|split; [|split; [|split]]].
  - apply reportTopic_events. unfold lagEvents. apply partitionLags_events.
    rewrite partitionLag_uncommitted by assumption. simpl.
    right. apply in_or_app. right. now left.
  - intros cs ls v l. rewrite partitionLag_uncommitted by assumption. simpl.
    intros [H|H]; [discriminate|].
    apply in_app_or in H as [H|H].
    + destruct (failed _); simpl in H; [destruct H as [H|[]]; discriminate | destruct H].
    + destruct H as [H|[]]. now injection H as <- _.
  - discriminate.
  - exact Hsum.
  - rewrite <- Hsum.
    destruct (reportTopic_aggregates e broker group topic
                (bs1 ++ (p, blk) :: bs2) timeDiff G) as (rate & time & Hr & _).
    now exists rate, time.
Qed.

Lemma uncommitted_partition_lag_sentinel_witness :
  In (Emit (mkMetric consumergroupLag (-1) (groupLabels "g1" "orders" 1)))
     (fst (reportTopic Cluster.exporter 1 "g1" "orders"
             ([(0, mkBlock 900 ErrNoError)] ++ (1, mkBlock (-1) ErrNoError) :: [])
             0 (initGlobals 0)))
  /\ lagSumOf Cluster.exporter 1 "g1" "orders"
       ([(0, mkBlock 900 ErrNoError)] ++ (1, mkBlock (-1) ErrNoError) :: [])
     = lagSumOf Cluster.exporter 1 "g1" "orders" ([(0, mkBlock 900 ErrNoError)] ++ []).
Proof.
  destruct (uncommitted_partition_lag_sentinel Cluster.exporter 1 "g1" "orders"
              [(0, mkBlock 900 ErrNoError)] [] 1 (mkBlock (-1) ErrNoError) 0
              (initGlobals 0) eq_refl eq_refl) as (H1 & _ & _ & H2 & _).
  exact (conj H1 H2).
Defined.

(** C10.  In a reported topic, every partition block without a
    request-level error gets a [consumergroup.current_offset] sample whose
    value is the block's offset, [-1] included; a block whose offset is
    [-1] adds nothing to the committed-offset sum nor to the lag sum, and
    the [current_offset_sum] sample of the topic carries the sum over the
    other partitions. *)
Theorem uncommitted_partition_offset_sample
    (e : Exporter) (broker : Z) (group topic : string)
    (bs1 bs2 : list (Z * OffsetFetchResponseBlock)) (p : Z)
    (blk : OffsetFetchResponseBlock) (timeDiff : Z) (G : Globals) :
  Err blk = ErrNoError ->
  In (Emit (mkMetric consumergroupCurrentOffset (Offset blk)
                     (groupLabels group topic p)))
     (fst (reportTopic e broker group topic (bs1 ++ (p, blk) :: bs2) timeDiff G))
  /\ (Offset blk = -1 ->
      currentOffsetSumOf e broker group topic (bs1 ++ (p, blk) :: bs2)
      = currentOffsetSumOf e broker group topic (bs1 ++ bs2)
      /\ lagSumOf e broker group topic (bs1 ++ (p, blk) :: bs2)
         = lagSumOf e broker group topic (bs1 ++ bs2)
      /\ In (Emit (mkMetric consumergroupCurrentOffsetSum
                     (currentOffsetSumOf e broker group topic (bs1 ++ bs2))
                     [LStr group; LStr topic]))
            (fst (reportTopic e broker group topic (bs1 ++ (p, blk) :: bs2)
                              timeDiff G))).
Proof.
  intros He. split.
  - apply reportTopic_events. unfold lagEvents. apply partitionLags_events.
    destruct (Z.eq_dec (Offset blk) (-1)) as [Ho|Ho].
    + rewrite partitionLag_uncommitted by assumption. rewrite Ho. now left.
    + rewrite partitionLag_committed by assumption. now left.
  - intros Ho.
    assert (Hskip : forall cs ls,
      snd (fst (partitionLag e broker group topic p blk cs ls)) = cs
      /\ snd (partitionLag e broker group topic p blk cs ls) = ls).
    { intros cs ls. now rewrite partitionLag_uncommitted. }
    destruct (partitionLags_skip e broker group topic bs1 p blk bs2 0 0 Hskip)
      as [Hc Hl].
    split; [exact Hc | split; [exact Hl|]].
    unfold currentOffsetSumOf. rewrite <- Hc.
    destruct (reportTopic_aggregates e broker group topic
                (bs1 ++ (p, blk) :: bs2) timeDiff G) as (rate & time & _ & Hs).
    exact Hs.
Qed.

Lemma uncommitted_partition_offset_sample_witness :
  In (Emit (mkMetric consumergroupCurrentOffset (-1)
                     (groupLabels "g1" "orders" 1)))
     (fst (reportTopic Cluster.exporter 1 "g1" "orders"
             ([(0, mkBlock 900 ErrNoError)] ++ (1, mkBlock (-1) ErrNoError) :: [])
             0 (initGlobals 0)))
  /\ currentOffsetSumOf Cluster.exporter 1 "g1" "orders"
       ([(0, mkBlock 900 ErrNoError)] ++ (1, mkBlock (-1) ErrNoError) :: [])
     = currentOffsetSumOf Cluster.exporter 1 "g1" "orders"
         ([(0, mkBlock 900 ErrNoError)] ++ []).
Proof.
  destruct (uncommitted_partition_offset_sample Cluster.exporter 1 "g1" "orders"
              [(0, mkBlock 900 ErrNoError)] [] 1 (mkBlock (-1) ErrNoError) 0
              (initGlobals 0) eq_refl) as [H1 H2].
  destruct (H2 eq_refl) as (H3 & _ & _).
  exact (conj H1 H3).
Defined.

(** C5, as the code has it.  In a reported topic, for a partition block
    without a request-level error whose committed offset is not [-1], when
    the latest-offset request the group scan issues for that partition
    (line 641) succeeds with [latest], the lag sample carries
    [latest - committed] in [int64] arithmetic, the lag is added to the
    lag sum and the committed offset to the committed-offset sum.  The
    snapshot of the topic walk is not read. *)
Theorem lag_from_group_scan_offset
    (e : Exporter) (broker : Z) (group topic : string)
    (bs1 bs2 : list (Z * OffsetFetchResponseBlock)) (p : Z)
    (blk : OffsetFetchResponseBlock) (latest : Z) (timeDiff : Z) (G : Globals) :
  Err blk = ErrNoError ->
  Offset blk <> -1 ->
  GetOffset (client e) (GroupScan broker group) topic p OffsetNewest
  = (latest, None) ->
  In (Emit (mkMetric consumergroupLag (Int64.sub latest (Offset blk))
                     (groupLabels group topic p)))
     (fst (reportTopic e broker group topic (bs1 ++ (p, blk) :: bs2) timeDiff G))
  /\ forall cs ls,
       partitionLag e broker group topic p blk cs ls
       = ([Emit (mkMetric consumergroupCurrentOffset (Offset blk)
                          (groupLabels group topic p));
           Emit (mkMetric consumergroupLag (Int64.sub latest (Offset blk))
                          (groupLabels group topic p))],
          Int64.add cs (Offset blk),
          Int64.add ls (Int64.sub latest (Offset blk))).
Proof.
  intros He Ho Hlatest.
  assert (Hit : forall cs ls,
    partitionLag e broker group topic p blk cs ls
    = ([Emit (mkMetric consumergroupCurrentOffset (Offset blk)
                       (groupLabels group topic p));
        Emit (mkMetric consumergroupLag (Int64.sub latest (Offset blk))
                       (groupLabels group topic p))],
       Int64.add cs (Offset blk),
       Int64.add ls (Int64.sub latest (Offset blk)))).
  { intros cs ls. rewrite partitionLag_committed by assumption.
    now rewrite Hlatest. }
  split; [|exact Hit].
  apply reportTopic_events. unfold lagEvents. apply partitionLags_events.
  rewrite Hit. simpl. tauto.
Qed.

Lemma lag_from_group_scan_offset_witness :
  In (Emit (mkMetric consumergroupLag 300 (groupLabels "g1" "orders" 0)))
     (fst (reportTopic Cluster.exporter 1 "g1" "orders"
             ([] ++ (0, mkBlock 900 ErrNoError) :: [(1, mkBlock (-1) ErrNoError)])
             0 (initGlobals 0))).
Proof.
  refine (proj1 (lag_from_group_scan_offset Cluster.exporter 1 "g1" "orders"
                   [] [(1, mkBlock (-1) ErrNoError)] 0 (mkBlock 900 ErrNoError)
                   1200 0 (initGlobals 0) eq_refl _ eq_refl)).
  discriminate.
Defined.

(** C5 as the specification words it fails on the small cluster: the
    snapshot holds 1000 for partition 0 of [orders], group [g1] has
    committed 900, and the lag sample carries 300, not 100. *)
Lemma lag_not_from_snapshot :
  ~ lagFromSnapshot Cluster.exporter Cluster.snapshot 1 "g1" "orders"
      Cluster.ordersOfG1.
Proof.
  intros H.
  specialize (H 0 (mkBlock 900 ErrNoError) 300).
  assert (Hs : match offset Cluster.snapshot !! "orders" with
               | Some offs =>
                   match offs !! 0 with
                   | Some latest => 300 = Int64.sub latest 900
                   | None => False
                   end
               | None => False
               end).
  { apply H; [now left | reflexivity | discriminate | pick_member]. }
  vm_compute in Hs. discriminate.
Qed.

(** The snapshot does hold the value the topic walk fetched. *)
Example snapshot_of_cluster :
  topicPhase Cluster.exporter ["orders"; "payments"]%string
  = Some (fst (runTopics Cluster.exporter ["orders"; "payments"]%string
                 emptySnapshot),
          Cluster.snapshot)
  /\ (offset Cluster.snapshot !! "orders"%string) ≫= (fun offs => offs !! 0)
     = Some 1000.
Proof. split; vm_compute; reflexivity. Qed.

(** ** The topic pool *)

Section Pool.

Import TopicPool.

Variable topicFilter : string -> bool.

Lemma workers_split (ws : list WorkerPc) (i : nat) (w w' : WorkerPc) :
  ws !! i = Some w ->
  exists l1 l2, ws = l1 ++ w :: l2 /\ <[ i := w' ]> ws = l1 ++ w' :: l2.
Proof.
  intros Hi. exists (take i ws), (drop (S i) ws). split.
  - symmetry. now apply take_drop_middle.
  - apply insert_take_drop. eapply lookup_lt_Some. exact Hi.
Qed.

Lemma running_app l1 l2 : running (l1 ++ l2) = running l1 ++ running l2.
Proof. unfold running. apply omap_app. Qed.

Lemma running_replicate n : running (replicate n Receiving) = [].
Proof. induction n as [|n IH]; [reflexivity | exact IH]. Qed.


Lemma len_app {A} (l1 l2 : list A) : len (l1 ++ l2) = len l1 + len l2.
Proof. unfold len. rewrite length_app. lia. Qed.

Lemma len_nonneg {A} (l : list A) : 0 <= len l.
Proof. unfold len. lia. Qed.

(** Each step uses up some of the weight. *)
Lemma step_weight s s' : step topicFilter s s' -> (weight s' < weight s)%nat.
Proof.
  intros Hstep. destruct Hstep; unfold weight; simpl; try lia;
    match goal with
    | H : ?ws !! ?i = Some ?w |- context [ <[ ?i := ?w' ]> ?ws ] =>
        destruct (workers_split ws i w w' H) as (l1 & l2 & -> & ->)
    end; rewrite !sum_list_with_app; simpl; lia.
Qed.

Lemma steps_weight n s s' :
  steps topicFilter n s s' -> (n + weight s' <= weight s)%nat.
Proof.
  induction 1 as [s|n s1 s2 s3 Hstep _ IH]; [lia|].
  apply step_weight in Hstep. lia.
Qed.


Lemma reachable_trans s1 s2 s3 :
  reachable topicFilter s1 s2 -> reachable topicFilter s2 s3 ->
  reachable topicFilter s1 s3.
Proof.
  intros H12 H23. induction H23 as [|s s' _ IH Hstep]; [exact H12|].
  eapply reach_step; [exact IH | exact Hstep].
Qed.

Lemma running_nonempty ws :
  running ws <> [] -> exists i topic, ws !! i = Some (Running topic).
Proof.
  induction ws as [|w ws IH]; [now intros H|].
  destruct w as [|topic|]; simpl.
  - intros H. destruct (IH H) as (i & topic & Hi). now exists (S i), topic.
  - intros _. now exists O, topic.
  - intros H. destruct (IH H) as (i & topic & Hi). now exists (S i), topic.
Qed.

Section Invariant.

Variables (topics : list string) (N : Z).

Lemma pool_inv_init : Inv topicFilter topics N (init topics N).
Proof.
  constructor; simpl.
  - apply length_replicate.
  - now rewrite running_replicate.
  - split; [discriminate | intros [H|H]; discriminate].
  - intros _. induction (Z.to_nat N) as [|n IH]; constructor;
      [discriminate | exact IH].
  - discriminate.
  - reflexivity.
  - now rewrite running_replicate.
Qed.

Lemma pool_inv_step s s' :
  Inv topicFilter topics N s -> step topicFilter s s' ->
  Inv topicFilter topics N s'.
Proof.
  intros [Hw Hwg Hc He Hh Hd Ht] Hstep.
  destruct Hstep as [topic rest ws c n done Hf|topic rest ws c n done Hf
                    |topic rest ws c n done i Hi|ws c n done|ws c done
                    |m ws c n done i topic Hi|m ws n done i Hi];
    simpl in *.
  - (* a topic the filter rejects *)
    rewrite Hf in Ht.
    constructor; simpl; try assumption; [|discriminate].
    split; [intros H; apply Hc in H as [H|H]; discriminate
           | intros [H|H]; discriminate].
  - (* wg.Add(1) *)
    rewrite Hf in Ht.
    constructor; simpl; try assumption.
    + unfold len in *; simpl in *. lia.
    + split; [intros H; apply Hc in H as [H|H]; discriminate
             | intros [H|H]; discriminate].
    + discriminate.
  - (* the send meets a receive *)
    destruct (workers_split ws i Receiving (Running topic) Hi)
      as (l1 & l2 & -> & ->).
    rewrite !running_app in *. simpl in *.
    constructor; simpl.
    + rewrite length_app in *. simpl in *. exact Hw.
    + rewrite !running_app. simpl. rewrite !len_app in *.
      unfold len in *; simpl in *. lia.
    + split; [intros H; apply Hc in H as [H|H]; discriminate
             | intros [H|H]; discriminate].
    + intros Hcl. specialize (He Hcl).
      apply Forall_app in He as [H1 H2]. apply Forall_app. split; [exact H1|].
      inversion H2; subst. constructor; [discriminate | assumption].
    + discriminate.
    + intros H. now destruct l1.
    + rewrite running_app. simpl. rewrite <- Ht.
      apply Permutation_app_head. rewrite <- !app_assoc. simpl.
      apply Permutation_app_head. apply Permutation_middle.
  - (* close(topicChannel) *)
    constructor; simpl; try assumption.
    + split; [now left | reflexivity].
    + discriminate.
    + discriminate.
  - (* wg.Wait() returns *)
    constructor; simpl; try assumption.
    + split; [now right|]. intros _. apply Hc. now left.
    + reflexivity.
  - (* getTopicMetrics returns, wg.Done() *)
    destruct (workers_split ws i (Running topic) Receiving Hi)
      as (l1 & l2 & -> & ->).
    rewrite !running_app in *. simpl in *.
    constructor; simpl.
    + rewrite length_app in *. simpl in *. exact Hw.
    + rewrite !running_app. simpl. rewrite !len_app in *.
      unfold len in *; simpl in *. lia.
    + exact Hc.
    + intros Hcl. specialize (He Hcl).
      apply Forall_app in He as [H1 H2]. apply Forall_app. split; [exact H1|].
      inversion H2; subst. constructor; [discriminate | assumption].
    + intros Hm. specialize (Hh Hm). rewrite !len_app in Hwg.
      unfold len in Hwg; simpl in Hwg. lia.
    + intros H. now destruct l1.
    + rewrite running_app. simpl. rewrite <- Ht. rewrite <- !app_assoc.
      apply Permutation_app_head. simpl.
      rewrite (Permutation_middle (running l1)). reflexivity.
  - (* a worker sees the closed channel *)
    destruct (workers_split ws i Receiving Exited Hi) as (l1 & l2 & -> & ->).
    rewrite !running_app in *. simpl in *.
    constructor; simpl; try assumption.
    + rewrite length_app in *. simpl in *. exact Hw.
    + now rewrite !running_app.
    + discriminate.
    + intros H. now destruct l1.
    + now rewrite running_app.
Qed.

Lemma pool_inv_reachable s :
  reachable topicFilter (init topics N) s -> Inv topicFilter topics N s.
Proof.
  induction 1 as [|s1 s2 _ IH Hstep]; [apply pool_inv_init|].
  eapply pool_inv_step; [exact IH | exact Hstep].
Qed.

(** With a worker, or with nothing to send, some goroutine can move
    until the main goroutine is past [wg.Wait()]. *)
Lemma pool_progress s :
  1 <= N \/ List.filter topicFilter topics = [] ->
  Inv topicFilter topics N s ->
  main s <> HandedOver ->
  exists s', step topicFilter s s'.
Proof.
  intros Hpool [Hw Hwg Hc He Hh Hd Ht] Hmain.
  destruct s as [m ws c n done]; simpl in *.
  destruct m as [[|topic rest]|topic rest| |].
  - eexists. apply step_close.
  - destruct (topicFilter topic) eqn:Hf; eexists;
      [now apply step_add | now apply step_skip].
  - assert (HN : 1 <= N).
    { destruct Hpool as [H|H]; [exact H|]. rewrite H in Ht.
      apply Permutation_nil_r in Ht.
      apply app_eq_nil in Ht as [_ Ht]. apply app_eq_nil in Ht as [_ Ht].
      discriminate. }
    assert (Hopen : c = false).
    { destruct c; [|reflexivity].
      destruct (proj1 Hc eq_refl) as [H|H]; discriminate. }
    destruct ws as [|w ws]; [simpl in Hw; lia|].
    specialize (He Hopen). inversion He as [|? ? Hne _]; subst.
    destruct w as [|topic'|]; [| |contradiction].
    + eexists. now apply (step_rendezvous _ _ _ _ _ _ _ O).
    + eexists. now apply (step_done _ _ _ _ _ _ O topic').
  - destruct (Z.eq_dec n 0) as [->|Hn]; [eexists; apply step_wait|].
    destruct (running_nonempty ws) as (i & topic & Hi).
    { intros Hr. rewrite Hr in Hwg. simpl in Hwg. now apply Hn. }
    eexists. now apply (step_done _ _ _ _ _ _ i topic).
  - contradiction.
Qed.

(** A state of the pool where nothing can move: the walk is handed over,
    every worker has left and every topic that passes the filter has been
    through [getTopicMetrics] once. *)
Lemma pool_final s :
  1 <= N \/ List.filter topicFilter topics = [] ->
  Inv topicFilter topics N s ->
  stuck topicFilter s ->
  main s = HandedOver
  /\ Forall (fun w => w = Exited) (workers s)
  /\ processed s ≡ₚ List.filter topicFilter topics.
Proof.
  intros Hpool HI Hstuck.
  assert (Hm : main s = HandedOver).
  { destruct (main s) eqn:Hmain; try reflexivity;
      destruct (pool_progress s Hpool HI) as [s' Hs'];
      try (rewrite Hmain; discriminate); now apply Hstuck in Hs'. }
  destruct HI as [Hw Hwg Hc He Hh Hd Ht].
  destruct s as [m ws c n done]; simpl in *. subst m.
  assert (Hclosed : c = true) by (apply Hc; now right). subst c.
  assert (Hall : Forall (fun w => w = Exited) ws).
  { apply Forall_forall. intros w Hin.
    apply list_elem_of_lookup_1 in Hin as [i Hi].
    destruct w as [|topic|]; [| |reflexivity]; exfalso.
    - eapply Hstuck. now apply (step_exit _ _ _ _ _ i).
    - eapply Hstuck. now apply (step_done _ _ _ _ _ _ i topic). }
  split; [reflexivity | split; [exact Hall|]].
  assert (Hr : running ws = []).
  { clear -Hall. induction Hall as [|w ws -> _ IH]; [reflexivity | exact IH]. }
  rewrite Hr in Ht. simpl in Ht. now rewrite app_nil_r in Ht.
Qed.

(** Without a worker the main goroutine never gets past the first topic
    that passes the filter. *)
Lemma pool_without_workers s :
  N <= 0 ->
  List.filter topicFilter topics <> [] ->
  reachable topicFilter (init topics N) s ->
  workers s = []
  /\ ((exists rest, main s = Feeding rest)
      \/ (exists topic rest, main s = Sending topic rest /\ stuck topicFilter s)).
Proof.
  intros HN Hsome Hreach.
  destruct (pool_inv_reachable s Hreach) as [Hw Hwg Hc He Hh Hd Ht].
  assert (Hws : workers s = []).
  { destruct (workers s); [reflexivity | simpl in Hw; lia]. }
  split; [exact Hws|].
  destruct s as [m ws c n done]; simpl in *. subst ws.
  specialize (Hd eq_refl). subst done. simpl in Ht.
  destruct m as [rest|topic rest| |].
  - left. now exists rest.
  - right. exists topic, rest. split; [reflexivity|].
    intros s' Hstep. inversion Hstep; subst;
      match goal with H : [] !! _ = Some _ |- _ => now rewrite lookup_nil in H end.
  - exfalso. apply Hsome. symmetry in Ht. now apply Permutation_nil_r in Ht.
  - exfalso. apply Hsome. symmetry in Ht. now apply Permutation_nil_r in Ht.
Qed.

(** From the head of the range loop, without a worker, the main goroutine
    reaches the send of the first topic that passes the filter. *)
Lemma pool_reaches_send rest c n done :
  List.filter topicFilter rest <> [] ->
  exists topic rest',
    reachable topicFilter (mkState (Feeding rest) [] c n done)
              (mkState (Sending topic rest') [] c (n + 1) done).
Proof.
  induction rest as [|t rest IH]; simpl; [now intros H|].
  destruct (topicFilter t) eqn:Hf.
  - intros _. exists t, rest. eapply reach_step; [apply reach_refl|].
    now apply step_add.
  - intros H. destruct (IH H) as (topic & rest' & Hr).
    exists topic, rest'. eapply reachable_trans; [|exact Hr].
    eapply reach_step; [apply reach_refl|]. now apply step_skip.
Qed.

(** Without a worker and with a topic to send, the pool deadlocks: some
    execution ends in the pending send, and none hands over. *)
Lemma pool_deadlock :
  N <= 0 ->
  List.filter topicFilter topics <> [] ->
  (forall s, reachable topicFilter (init topics N) s -> main s <> HandedOver)
  /\ exists s topic rest,
       reachable topicFilter (init topics N) s
       /\ main s = Sending topic rest
       /\ stuck topicFilter s.
Proof.
  intros HN Hsome. split.
  - intros s Hreach.
    destruct (pool_without_workers s HN Hsome Hreach)
      as [_ [[rest ->]|(topic & rest & -> & _)]]; discriminate.
  - destruct (pool_reaches_send topics false 0 [] Hsome)
      as (topic & rest & Hreach).
    assert (Hinit : init topics N = mkState (Feeding topics) [] false 0 []).
    { unfold init. replace (Z.to_nat N) with O by lia. reflexivity. }
    rewrite <- Hinit in Hreach.
    exists (mkState (Sending topic rest) [] false (0 + 1) []), topic, rest.
    split; [exact Hreach | split; [reflexivity|]].
    destruct (pool_without_workers _ HN Hsome Hreach)
      as [_ [[r Hr]|(t & r & _ & Hstuck)]]; [discriminate | exact Hstuck].
Qed.

Lemma steps_reachable n s s' :
  steps topicFilter n s s' -> reachable topicFilter s s'.
Proof.
  induction 1 as [s|n s1 s2 s3 Hstep _ IH]; [apply reach_refl|].
  eapply reachable_trans; [|exact IH].
  eapply reach_step; [apply reach_refl | exact Hstep].
Qed.

(** No execution of the pool is longer than three steps per topic, one
    per worker and two. *)
Lemma pool_bounded n s :
  steps topicFilter n (init topics N) s ->
  (n <= 3 * length topics + 2 + Z.to_nat N)%nat.
Proof.
  intros Hsteps. apply steps_weight in Hsteps.
  unfold weight in Hsteps at 2. simpl in Hsteps.
  assert (Hw : forall k, sum_list_with workerWeight (replicate k Receiving) = k).
  { induction k as [|k IH]; simpl; [reflexivity | now rewrite IH]. }
  rewrite Hw in Hsteps. lia.
Qed.

End Invariant.

End Pool.

(** With a worker, or with no topic to send, the walk completes on every
    schedule: as long as the main goroutine has not handed over some
    goroutine can move, and where none can move the walk is handed over,
    the workers are gone and each topic that passes the filter has been
    processed once. *)
Lemma pool_walk_completes topicFilter topics N s :
  1 <= N \/ List.filter topicFilter topics = [] ->
  TopicPool.reachable topicFilter (TopicPool.init topics N) s ->
  (TopicPool.main s <> TopicPool.HandedOver ->
   exists s', TopicPool.step topicFilter s s')
  /\ (TopicPool.stuck topicFilter s ->
      TopicPool.main s = TopicPool.HandedOver
      /\ Forall (fun w => w = TopicPool.Exited) (TopicPool.workers s)
      /\ TopicPool.processed s ≡ₚ List.filter topicFilter topics).
Proof.
  intros Hpool Hreach.
  pose proof (pool_inv_reachable topicFilter topics N s Hreach) as HI.
  split.
  - now apply (pool_progress topicFilter topics N).
  - now apply (pool_final topicFilter topics N).
Qed.

(** The walk of [collect] blocks exactly when the pool has no worker and
    the filter lets a topic through. *)
Lemma topicPhase_blocked e topics :
  topicPhase e topics = None
  <-> poolSize e topics <= 0 /\ List.filter (topicFilter e) topics <> [].
Proof.
  unfold topicPhase.
  destruct (List.filter (topicFilter e) topics) as [|t q].
  - split; [discriminate | now intros [_ H]].
  - destruct (Z.leb_spec (poolSize e topics) 0) as [Hle|Hgt].
    + split; [intros _; split; [exact Hle | discriminate] | reflexivity].
    + split; [discriminate | intros [H _]; lia].
Qed.

(** C4, at an input where the code departs from it.  With [orders] as the
    only topic and 100 workers asked for, the pool size is
    [min(1/2, 100) = 0]; [orders] passes the filter, so the main goroutine
    reaches the send of line 526 and no goroutine can move from there: no
    execution of the pool hands over to the consumer group scanner, and
    the cycle stays blocked after the broker-count sample. *)
Theorem single_topic_walk_blocks :
  Topics (client Cluster.singleTopic) = (["orders"%string], None)
  /\ poolSize Cluster.singleTopic ["orders"%string] = 0
  /\ (forall s,
        TopicPool.reachable (topicFilter Cluster.singleTopic)
          (TopicPool.init ["orders"%string]
             (poolSize Cluster.singleTopic ["orders"%string])) s ->
        TopicPool.main s <> TopicPool.HandedOver)
  /\ (exists s,
        TopicPool.reachable (topicFilter Cluster.singleTopic)
          (TopicPool.init ["orders"%string]
             (poolSize Cluster.singleTopic ["orders"%string])) s
        /\ TopicPool.main s = TopicPool.Sending "orders" []
        /\ TopicPool.stuck (topicFilter Cluster.singleTopic) s)
  /\ collect Cluster.singleTopic Cluster.firstClock (initGlobals 0)
     = Blocked [Emit (mkMetric clusterBrokers 1 [])]
               (snd (refreshMetadata Cluster.singleTopic Cluster.firstClock
                       (initGlobals 0))).
Proof.
  split; [reflexivity|]. split; [reflexivity|].
  assert (HN : poolSize Cluster.singleTopic ["orders"%string] <= 0)
    by (vm_compute; discriminate).
  assert (Hsome : List.filter (topicFilter Cluster.singleTopic)
                    ["orders"%string] <> []) by discriminate.
  destruct (pool_deadlock (topicFilter Cluster.singleTopic) ["orders"%string]
              _ HN Hsome) as [Hnever (s & topic & rest & Hreach & Hmain & Hstuck)].
  split; [exact Hnever|]. split; [|reflexivity].
  exists (TopicPool.mkState (TopicPool.Sending "orders" []) [] false 1 []).
  split; [|split; [reflexivity|]].
  - eapply TopicPool.reach_step; [apply TopicPool.reach_refl|].
    now apply (TopicPool.step_add _ "orders" [] [] false 0 []).
  - intros s' Hstep. inversion Hstep; subst;
      match goal with
      | H : [] !! _ = Some _ |- _ => now rewrite lookup_nil in H
      end.
Qed.

(** ** The member count of a described group *)

Section MemberCount.

Variables (e : Exporter) (snap : Snapshot) (broker : Z).

Lemma requestAssigned_readable members r :
  Forall (fun member => failed (snd (GetMemberAssignment member)) = false) members ->
  exists request, requestAssigned members r = Some request.
Proof.
  revert r. induction members as [|m members IH]; intros r Hall; simpl.
  - now exists r.
  - inversion Hall as [|? ? Hm Hrest]; subst.
    destruct (GetMemberAssignment m) as [assignment err]. simpl in Hm.
    rewrite Hm. apply IH. exact Hrest.
Qed.

(** In show-all mode, or when every assignment can be read, each group of
    the describe answer gets its member-count sample. *)
Lemma groupsLoop_members groups timeDiff G group :
  offsetShowAll e = true \/ Forall readable groups ->
  In group groups ->
  In (Emit (mkMetric consumergroupMembers (len (Members group))
                     [LStr (GroupId group)]))
     (fst (groupsLoop e snap broker groups timeDiff G)).
Proof.
  revert G. induction groups as [|g groups IH]; intros G Hok Hin; [destruct Hin|].
  assert (Hrest : offsetShowAll e = true \/ Forall readable groups).
  { destruct Hok as [H|H]; [now left | right; now inversion H]. }
  assert (Hreq : exists request,
    (if offsetShowAll e
     then Some (requestShowAll snap (mkRequest (GroupId g) 1 []))
     else requestAssigned (Members g) (mkRequest (GroupId g) 1 []))
    = Some request).
  { destruct Hok as [H|H].
    - rewrite H. eauto.
    - destruct (offsetShowAll e); [eauto|].
      apply requestAssigned_readable. now inversion H. }
  destruct Hreq as [request Hreq]. simpl. rewrite Hreq.
  destruct (FetchOffset (client e) broker request) as [blocks err].
  destruct (failed err).
  - specialize (IH G Hrest).
    destruct (groupsLoop e snap broker groups timeDiff G) as [tr G1].
    simpl in *. destruct Hin as [->|Hin]; [now left|].
    right. right. now apply IH.
  - destruct (blocksLoop e broker (GroupId g) blocks timeDiff G) as [tr G1].
    specialize (IH G1 Hrest).
    destruct (groupsLoop e snap broker groups timeDiff G1) as [tr' G2].
    simpl in *. destruct Hin as [->|Hin]; [now left|].
    right. apply in_or_app. right. now apply IH.
Qed.

(** In assigned-only mode a group with an unreadable assignment ends the
    scan of the broker: one log line, no sample, the later groups are not
    visited. *)
Lemma groupsLoop_unreadable group groups timeDiff G :
  offsetShowAll e = false ->
  requestAssigned (Members group) (mkRequest (GroupId group) 1 []) = None ->
  groupsLoop e snap broker (group :: groups) timeDiff G
  = ([LogError (CannotGetMemberAssignment (GroupId group))], G).
Proof. intros Hmode Hreq. simpl. now rewrite Hmode, Hreq. Qed.

End MemberCount.

(** C9, at an input where the code departs from it.  In assigned-only
    mode the describe step returns the groups [g1] and [g2]; the one
    member of [g1] has an assignment that cannot be decoded.  The scanner
    returns at line 589, before line 598: the trace of the broker is the
    log line alone, and the cycle emits no member-count sample, neither
    for [g1] nor for [g2]. *)
Theorem member_count_lost_on_unreadable_assignment :
  offsetShowAll Cluster.unreadableAssignment = false
  /\ fst (DescribeGroups (client Cluster.unreadableAssignment) 1
            ["g1"%string; "g2"%string])
     = [mkGroup "g1" [Cluster.unreadableMember]; mkGroup "g2" [Cluster.member]]
  /\ getConsumerGroupMetrics Cluster.unreadableAssignment Cluster.snapshot
       Cluster.firstClock 1 (initGlobals 0)
     = ([LogError (CannotGetMemberAssignment "g1")], initGlobals 0)
  /\ forall v l,
       ~ In (Emit (mkMetric consumergroupMembers v l))
            (traceOf (collect Cluster.unreadableAssignment Cluster.firstClock
                              (initGlobals 0))).
Proof.
  split; [reflexivity|]. split; [reflexivity|]. split; [reflexivity|].
  intros v l H. vm_compute in H.
  repeat (destruct H as [H|H]; [discriminate|]). exact H.
Qed.
(** ** Failures inside a cycle *)

Section Failures.

Variable e : Exporter.

Lemma zookeeperLag_events topic p currentOffset ev :
  In ev (zookeeperLag e topic p currentOffset) ->
  ev = LogError CannotGetConsumerGroupZk
  \/ exists v l, ev = Emit (mkMetric consumergroupLagZookeeper v l).
Proof.
  unfold zookeeperLag. destruct (useZooKeeperLag e); [|intros []].
  destruct (Consumergroups (client e)) as [groups err].
  intros H. apply in_app_or in H as [H|H].
  - destruct (failed err); [|destruct H]. destruct H as [<-|[]]. now left.
  - right. apply in_flat_map in H as (g & _ & H).
    destruct (0 <? _); [|destruct H]. destruct H as [<-|[]]. eauto.
Qed.

Lemma zookeeperLag_omits d topic p currentOffset :
  d <> consumergroupLagZookeeper ->
  omitted d (zookeeperLag e topic p currentOffset).
Proof.
  intros Hd v l Hin. apply zookeeperLag_events in Hin as [H|(v' & l' & H)];
    [discriminate|]. injection H as -> _ _. now apply Hd.
Qed.

(** Decides a membership in the trace of [partitionFacts] once the five
    answers are known. *)
Ltac in_facts :=
  simpl; repeat first [ left; reflexivity | right ].

Ltac not_in_facts :=
  let v := fresh "v" in let l := fresh "l" in let H := fresh "H" in
  intros v l H; simpl in H;
  repeat (destruct H as [H|H]; [discriminate|]);
  revert H; apply zookeeperLag_omits; discriminate.

Lemma partitionFacts_isolated topic p offs : factsIsolated e topic p offs.
Proof.
  unfold factsIsolated, partitionFacts; cbv zeta.
  destruct (Leader (client e) topic p) as [id|b lerr];
    destruct (GetOffset (client e) TopicWalk topic p OffsetNewest) as [v1 e1];
    destruct (GetOffset (client e) TopicWalk topic p OffsetOldest) as [v2 e2];
    destruct (Replicas (client e) topic p) as [r e3];
    destruct (InSyncReplicas (client e) topic p) as [i e4];
    destruct e1 as [e1|], e2 as [e2|], e3 as [e3|], e4 as [e4|];
    cbn [failed fst snd];
    repeat match goal with
           | |- _ /\ _ => split
           | |- exists _, _ => eexists
           | |- In _ _ => in_facts
           | |- omitted _ _ => not_in_facts
           | |- _ = _ => reflexivity
           end.
Qed.

(** The answer to [RefreshMetadata] is read by the refresh step only. *)
Lemma refreshAnswering_phases r :
  topicPhase (refreshAnswering r e) = topicPhase e
  /\ groupPhase (refreshAnswering r e) = groupPhase e
  /\ Topics (client (refreshAnswering r e)) = Topics (client e)
  /\ Brokers (client (refreshAnswering r e)) = Brokers (client e).
Proof. destruct e as [[] ? ? ? ? ? ?]. repeat split; reflexivity. Qed.

Lemma refreshAnswering_state r clk G :
  snd (refreshMetadata (refreshAnswering r e) clk G)
  = snd (refreshMetadata e clk G)
  /\ List.filter (fun ev => negb (isRefreshLog ev))
       (fst (refreshMetadata (refreshAnswering r e) clk G)) = [].
Proof.
  unfold refreshMetadata, refreshAnswering; simpl.
  destruct (nextMetadataRefresh G <? now clk); simpl; [|now split].
  split; [reflexivity|]. now destruct (failed r).
Qed.

Lemma refresh_is_local r1 r2 clk G :
  List.filter (fun ev => negb (isRefreshLog ev))
    (traceOf (collect (refreshAnswering r1 e) clk G))
  = List.filter (fun ev => negb (isRefreshLog ev))
      (traceOf (collect (refreshAnswering r2 e) clk G))
  /\ globalsOf (collect (refreshAnswering r1 e) clk G)
     = globalsOf (collect (refreshAnswering r2 e) clk G)
  /\ returned (collect (refreshAnswering r1 e) clk G)
     = returned (collect (refreshAnswering r2 e) clk G).
Proof.
  unfold collect.
  destruct (refreshAnswering_phases r1) as (Ht1 & Hg1 & Hl1 & Hb1).
  destruct (refreshAnswering_phases r2) as (Ht2 & Hg2 & Hl2 & Hb2).
  rewrite Ht1, Ht2, Hg1, Hg2, Hl1, Hl2, Hb1, Hb2.
  destruct (refreshAnswering_state r1 clk G) as [Hs1 Hf1].
  destruct (refreshAnswering_state r2 clk G) as [Hs2 Hf2].
  destruct (refreshMetadata (refreshAnswering r1 e) clk G) as [tr1 G1].
  destruct (refreshMetadata (refreshAnswering r2 e) clk G) as [tr2 G2].
  simpl in Hs1, Hs2, Hf1, Hf2. subst G1 G2.
  destruct (Topics (client e)) as [topics err].
  destruct (failed err).
  - simpl. rewrite !List.filter_app, Hf1, Hf2. now repeat split.
  - destruct (topicPhase e topics) as [[walk snap]|].
    + destruct (groupPhase e snap clk (snd (refreshMetadata e clk G)))
        as [scan G3].
      simpl. rewrite !List.filter_app, Hf1, Hf2. now repeat split.
    + simpl. rewrite Hf1, Hf2. now repeat split.
Qed.

End Failures.

(** C3, as the code has it.  A failure of the topic-list fetch ends the
    cycle right after the broker count (and the refresh log line): no
    topic or group sample, and the scrape state is not advanced.  Apart
    from that:
    - the answer of the metadata refresh changes nothing but its own log
      line;
    - without brokers the group scan is one log line and the cycle
      completes;
    - a topic whose partition list cannot be fetched is one log line and
      the remaining topics are walked from the same snapshot;
    - the five facts of a partition are fetched and reported one by one,
      and the loop goes on with the next partition;
    - a group whose committed offsets cannot be fetched keeps its
      member-count sample, gets one log line, and the remaining groups
      are scanned from the same state;
    - a broker that cannot be opened, listed or described is one log
      line, and the remaining brokers are scanned from the same state;
    - a partition block with a request-level error is one log line and
      leaves the sums of its topic alone. *)
Theorem failures_local_except_topic_list
    (e : Exporter) (clk : Clock) (G : Globals) :
  (failed (snd (Topics (client e))) = true ->
   collect e clk G
   = Returned (Emit (mkMetric clusterBrokers (len (Brokers (client e))) [])
                 :: fst (refreshMetadata e clk G) ++ [LogError CannotGetTopics])
              (snd (refreshMetadata e clk G)))
  /\ (forall r1 r2 : goerror,
        List.filter (fun ev => negb (isRefreshLog ev))
          (traceOf (collect (refreshAnswering r1 e) clk G))
        = List.filter (fun ev => negb (isRefreshLog ev))
            (traceOf (collect (refreshAnswering r2 e) clk G))
        /\ globalsOf (collect (refreshAnswering r1 e) clk G)
           = globalsOf (collect (refreshAnswering r2 e) clk G)
        /\ returned (collect (refreshAnswering r1 e) clk G)
           = returned (collect (refreshAnswering r2 e) clk G))
  /\ (forall topics walk snap,
        Topics (client e) = (topics, None) ->
        topicPhase e topics = Some (walk, snap) ->
        Brokers (client e) = [] ->
        collect e clk G
        = Returned (Emit (mkMetric clusterBrokers 0 [])
                      :: fst (refreshMetadata e clk G) ++ walk
                      ++ [LogError NoValidBroker])
                   (endOfCycle clk (snd (refreshMetadata e clk G))))
  /\ (forall topic queued snap,
        topicFilter e topic = true ->
        failed (snd (Partitions (client e) topic)) = true ->
        runTopics e (topic :: queued) snap
        = (LogError (CannotGetPartitions topic) :: fst (runTopics e queued snap),
           snd (runTopics e queued snap)))
  /\ (forall topic p ps offs,
        factsIsolated e topic p offs
        /\ partitionsLoop e topic (p :: ps) offs
           = (fst (partitionFacts e topic p offs)
                ++ fst (partitionsLoop e topic ps
                          (snd (partitionFacts e topic p offs))),
              snd (partitionsLoop e topic ps
                     (snd (partitionFacts e topic p offs)))))
  /\ (forall snap broker group groups timeDiff G0 request,
        (if offsetShowAll e
         then Some (requestShowAll snap (mkRequest (GroupId group) 1 []))
         else requestAssigned (Members group) (mkRequest (GroupId group) 1 []))
        = Some request ->
        failed (snd (FetchOffset (client e) broker request)) = true ->
        groupsLoop e snap broker (group :: groups) timeDiff G0
        = (Emit (mkMetric consumergroupMembers (len (Members group))
                          [LStr (GroupId group)])
             :: LogError (CannotGetOffsetOfGroup (GroupId group))
             :: fst (groupsLoop e snap broker groups timeDiff G0),
           snd (groupsLoop e snap broker groups timeDiff G0)))
  /\ (forall snap broker brokers G0,
        (forall msg, Open (client e) broker = Some (ErrOther msg) ->
           brokersLoop e snap clk (broker :: brokers) G0
           = (LogError (CannotConnectToBroker broker)
                :: fst (brokersLoop e snap clk brokers G0),
              snd (brokersLoop e snap clk brokers G0)))
        /\ ((forall msg, Open (client e) broker <> Some (ErrOther msg)) ->
            failed (snd (ListGroups (client e) broker)) = true ->
            brokersLoop e snap clk (broker :: brokers) G0
            = (LogError CannotGetConsumerGroup
                 :: fst (brokersLoop e snap clk brokers G0),
               snd (brokersLoop e snap clk brokers G0)))
        /\ ((forall msg, Open (client e) broker <> Some (ErrOther msg)) ->
            failed (snd (ListGroups (client e) broker)) = false ->
            failed (snd (DescribeGroups (client e) broker
                           (List.filter (groupFilter e)
                              (fst (ListGroups (client e) broker))))) = true ->
            brokersLoop e snap clk (broker :: brokers) G0
            = (LogError CannotGetDescribeGroups
                 :: fst (brokersLoop e snap clk brokers G0),
               snd (brokersLoop e snap clk brokers G0))))
  /\ (forall broker group topic p blk cs ls,
        Err blk <> ErrNoError ->
        partitionLag e broker group topic p blk cs ls
        = ([LogError (ErrorForPartition p)], cs, ls)).
Proof.
  repeat apply conj.
  - intros Hfail. unfold collect.
    destruct (refreshMetadata e clk G) as [refresh G1].
    destruct (Topics (client e)) as [topics err]. simpl in Hfail.
    now rewrite Hfail.
  - intros r1 r2. apply refresh_is_local.
  - intros topics walk snap Htopics Hwalk Hbrokers. unfold collect.
    destruct (refreshMetadata e clk G) as [refresh G1].
    rewrite Htopics. simpl. rewrite Hwalk. unfold groupPhase.
    now rewrite Hbrokers.
  - intros topic queued snap Hfilter Hfail. simpl.
    unfold getTopicMetrics. rewrite Hfilter. simpl.
    destruct (Partitions (client e) topic) as [ps err]. simpl in Hfail.
    rewrite Hfail.
    now destruct (runTopics e queued snap) as [tr snap'].
  - intros topic p ps offs. split; [apply partitionFacts_isolated|].
    cbn [partitionsLoop].
    destruct (partitionFacts e topic p offs) as [tr offs1]. cbn [fst snd].
    now destruct (partitionsLoop e topic ps offs1) as [tr' offs2].
  - intros snap broker group groups timeDiff G0 request Hreq Hfail.
    simpl. rewrite Hreq.
    destruct (FetchOffset (client e) broker request) as [blocks err].
    simpl in Hfail. rewrite Hfail.
    now destruct (groupsLoop e snap broker groups timeDiff G0) as [tr G1].
  - intros snap broker brokers G0. repeat apply conj.
    + intros msg Hopen. simpl. unfold getConsumerGroupMetrics. rewrite Hopen.
      now destruct (brokersLoop e snap clk brokers G0) as [tr G1].
    + intros Hopen Hfail. simpl. unfold getConsumerGroupMetrics.
      destruct (ListGroups (client e) broker) as [groups err].
      simpl in Hfail. rewrite Hfail.
      destruct (Open (client e) broker) as [[|msg]|];
        [| now destruct (Hopen msg) |];
        now destruct (brokersLoop e snap clk brokers G0) as [tr G1].
    + intros Hopen Hlist Hfail. simpl. unfold getConsumerGroupMetrics.
      destruct (ListGroups (client e) broker) as [groups err].
      simpl in Hlist, Hfail. rewrite Hlist.
      destruct (DescribeGroups (client e) broker
                  (List.filter (groupFilter e) groups)) as [described err'].
      simpl in Hfail. rewrite Hfail.
      destruct (Open (client e) broker) as [[|msg]|];
        [| now destruct (Hopen msg) |];
        now destruct (brokersLoop e snap clk brokers G0) as [tr G1].
  - intros broker group topic p blk cs ls Herr. unfold partitionLag.
    destruct (Z.eqb_spec (Err blk) ErrNoError) as [H|_]; [contradiction|].
    reflexivity.
Qed.

Lemma failures_local_except_topic_list_witness :
  collect Cluster.noTopicList Cluster.firstClock (initGlobals 0)
  = Returned [Emit (mkMetric clusterBrokers 1 []); LogError CannotGetTopics]
             (snd (refreshMetadata Cluster.noTopicList Cluster.firstClock
                     (initGlobals 0))).
Proof.
  exact (proj1 (failures_local_except_topic_list Cluster.noTopicList
                  Cluster.firstClock (initGlobals 0)) eq_refl).
Defined.

(** C3 as the specification words it fails on the small cluster when
    [Topics] fails: the group scan would emit the member counts of [g1]
    and [g2], and the cycle emits the broker count alone. *)
Lemma topic_list_failure_aborts_cycle :
  ~ topicListFailureIsolated Cluster.noTopicList Cluster.firstClock
      (initGlobals 0).
Proof.
  intros H.
  specialize (H eq_refl (mkMetric consumergroupMembers 1 [LStr "g1"])).
  assert (Hin : In (mkMetric consumergroupMembers 1 [LStr "g1"])
                   (metricsOf (traceOf (collect Cluster.noTopicList
                                          Cluster.firstClock (initGlobals 0))))).
  { apply H. pick_member. }
  vm_compute in Hin. destruct Hin as [Hin|[]]. discriminate.
Qed.

(** * Start-up *)

(** ** Constant labels *)

Section LabelParsing.

Import Labels.

Lemma Split_nonempty s sep : Split s sep <> [].
Proof.
  induction s as [|c s IH]; simpl; [discriminate|].
  destruct (Ascii.eqb c sep); [discriminate|].
  destruct (Split s sep); [contradiction | discriminate].
Qed.

(** A string without the separator is one piece. *)
Lemma Split_whole s sep : occurs sep s = false -> Split s sep = [s].
Proof.
  induction s as [|c s IH]; simpl; [reflexivity|].
  intros H. apply orb_false_iff in H as [Hc Hs].
  rewrite Hc, (IH Hs). reflexivity.
Qed.

(** Splitting distributes over a separator. *)
Lemma Split_join s1 s2 sep :
  Split (s1 +:+ String sep s2) sep = Split s1 sep ++ Split s2 sep.
Proof.
  induction s1 as [|c s1 IH]; simpl.
  - now rewrite Ascii.eqb_refl.
  - destruct (Ascii.eqb c sep); [now rewrite IH|].
    rewrite IH. pose proof (Split_nonempty s1 sep) as Hne.
    now destruct (Split s1 sep).
Qed.

Lemma occurs_app c s1 s2 :
  occurs c (s1 +:+ s2) = occurs c s1 || occurs c s2.
Proof.
  induction s1 as [|c' s1 IH]; simpl; [reflexivity|].
  now rewrite IH, orb_assoc.
Qed.

(** The guard of line 771 changes nothing: the empty string has one piece,
    which has no [=]. *)
Lemma parseLabels_fold s :
  parseLabels s = fold_left addLabel (Split s ","%char) ∅.
Proof.
  unfold parseLabels. destruct (String.eqb_spec s "") as [->|_]; reflexivity.
Qed.

Lemma addLabel_union labels label :
  addLabel labels label = addLabel ∅ label ∪ labels.
Proof.
  unfold addLabel. destruct (Split label "="%char) as [|key [|val rest]].
  - now rewrite (left_id_L ∅ (∪)).
  - now rewrite (left_id_L ∅ (∪)).
  - rewrite insert_union_singleton_l.
    now rewrite insert_empty.
Qed.

Lemma fold_addLabel_union l labels :
  fold_left addLabel l labels = fold_left addLabel l ∅ ∪ labels.
Proof.
  revert labels. induction l as [|label l IH]; intros labels; simpl.
  - now rewrite (left_id_L ∅ (∪)).
  - rewrite IH, (IH (addLabel ∅ label)), (addLabel_union labels label).
    now rewrite (assoc_L (∪)).
Qed.

Lemma Split_pair key val :
  occurs "="%char key = false -> occurs "="%char val = false ->
  Split (key +:+ "=" +:+ val) "="%char = [key; val].
Proof.
  intros Hk Hv. change (key +:+ "=" +:+ val) with (key +:+ String "="%char val).
  now rewrite Split_join, (Split_whole key), (Split_whole val).
Qed.

Lemma Split_render l :
  l <> [] ->
  Forall (fun kv => plain (fst kv) /\ plain (snd kv)) l ->
  Split (render l) ","%char = map (fun kv => fst kv +:+ "=" +:+ snd kv) l.
Proof.
  intros Hne Hall. unfold render.
  induction Hall as [|[k v] l [[Hk _] [Hv _]] Hall IH]; [contradiction|].
  assert (Hkv : occurs ","%char (k +:+ "=" +:+ v) = false).
  { simpl in Hk, Hv. rewrite occurs_app, Hk. simpl. exact Hv. }
  destruct l as [|kv l].
  - simpl. now apply Split_whole.
  - change (String.concat "," (map _ ((k, v) :: kv :: l)))
      with ((k +:+ "=" +:+ v)
              +:+ String ","%char (String.concat ","
                    (map (fun kv => fst kv +:+ "=" +:+ snd kv) (kv :: l)))).
    rewrite Split_join, (Split_whole _ _ Hkv), IH by discriminate.
    reflexivity.
Qed.

Lemma fold_addLabel_render l labels :
  Forall (fun kv => plain (fst kv) /\ plain (snd kv)) l ->
  fold_left addLabel (map (fun kv => fst kv +:+ "=" +:+ snd kv) l) labels
  = fold_left (fun m kv => <[ fst kv := snd kv ]> m) l labels.
Proof.
  intros Hall. revert labels.
  induction Hall as [|[k v] l [[_ Hk] [_ Hv]] _ IH]; intros labels;
    [reflexivity|].
  simpl in *. rewrite <- IH. f_equal.
  unfold addLabel. now rewrite Split_pair.
Qed.

Lemma fold_insert_list_to_map (l : list (string * string))
    (labels : gmap string string) :
  fold_left (fun m kv => <[ fst kv := snd kv ]> m) l labels
  = list_to_map (reverse l) ∪ labels.
Proof.
  revert labels. induction l as [|[k v] l IH]; intros labels; simpl.
  - now rewrite (left_id_L ∅ (∪)).
  - rewrite IH, reverse_cons, list_to_map_app. simpl.
    rewrite <- (assoc_L (∪)). f_equal.
    rewrite insert_empty. now rewrite <- insert_union_singleton_l.
Qed.

End LabelParsing.

(** X1.  Parsing the flag value [k1=v1,...,kn=vn], whose keys and values
    hold neither [,] nor [=], gives the map of the pairs, a later pair
    replacing an earlier one with the same key; when the keys are distinct
    the map holds exactly the pairs listed. *)
Theorem parseLabels_render (l : list (string * string)) :
  Forall (fun kv => Labels.plain (fst kv) /\ Labels.plain (snd kv)) l ->
  Labels.parseLabels (Labels.render l) = list_to_map (reverse l)
  /\ (List.NoDup (map fst l) ->
      forall k v,
        Labels.parseLabels (Labels.render l) !! k = Some v <-> In (k, v) l).
Proof.
  intros Hall.
  assert (Heq : Labels.parseLabels (Labels.render l) = list_to_map (reverse l)).
  { destruct l as [|kv l]; [reflexivity|].
    rewrite parseLabels_fold, Split_render by (assumption || discriminate).
    rewrite fold_addLabel_render by assumption.
    rewrite fold_insert_list_to_map. apply (right_id_L ∅ (∪)). }
  split; [exact Heq|].
  intros Hnd k v. rewrite Heq.
  rewrite <- elem_of_list_to_map.
  - rewrite elem_of_reverse. apply list_elem_of_In.
  - rewrite fmap_reverse, reverse_Permutation.
    apply NoDup_ListNoDup. exact Hnd.
Qed.

Lemma parseLabels_render_witness :
  Labels.parseLabels "cluster=prod,dc=eu"
  = list_to_map (reverse [("cluster", "prod"); ("dc", "eu")]%string)
  /\ (List.NoDup (map fst [("cluster", "prod"); ("dc", "eu")]%string) ->
      forall k v,
        Labels.parseLabels "cluster=prod,dc=eu" !! k = Some v
        <-> In (k, v) [("cluster", "prod"); ("dc", "eu")]%string).
Proof.
  apply (parseLabels_render [("cluster", "prod"); ("dc", "eu")]%string).
  repeat constructor.
Defined.

(** X2.  The labels of the flag value [a,b] are the labels of [b]
    completed by those of [a]: parsing distributes over the commas, and a
    key given again further right replaces the earlier value.  In
    particular the test of line 771 for the empty flag changes nothing. *)
Theorem parseLabels_comma (a b : string) :
  Labels.parseLabels (a +:+ "," +:+ b)
  = Labels.parseLabels b ∪ Labels.parseLabels a.
Proof.
  change (a +:+ "," +:+ b) with (a +:+ String ","%char b).
  rewrite !parseLabels_fold, Split_join, fold_left_app.
  apply fold_addLabel_union.
Qed.

(** X3.  A piece of the flag value counts up to its second [=]: the
    piece [k=v=rest] sets [k] to [v] and drops [rest]; a piece without
    [=] sets nothing. *)
Theorem parseLabels_piece (k v rest s : string) :
  Labels.plain k ->
  Labels.plain v ->
  Labels.occurs ","%char rest = false ->
  Labels.plain s ->
  Labels.parseLabels (k +:+ "=" +:+ v +:+ "=" +:+ rest) = {[ k := v ]}
  /\ Labels.parseLabels s = ∅.
Proof.
  intros [Hkc Hke] [Hvc Hve] Hrest [Hsc Hse]. split.
  - rewrite parseLabels_fold.
    assert (Hcomma : Labels.occurs ","%char (k +:+ "=" +:+ v +:+ "=" +:+ rest)
                     = false).
    { rewrite !occurs_app. simpl. rewrite Hkc, Hvc. simpl. exact Hrest. }
    rewrite (Split_whole _ _ Hcomma). simpl. unfold Labels.addLabel.
    change (k +:+ "=" +:+ v +:+ "=" +:+ rest)
      with (k +:+ String "="%char (v +:+ String "="%char rest)).
    rewrite Split_join, (Split_whole k) by assumption.
    rewrite Split_join, (Split_whole v) by assumption.
    simpl. apply insert_empty.
  - rewrite parseLabels_fold, (Split_whole s) by assumption. simpl.
    unfold Labels.addLabel. now rewrite (Split_whole s).
Qed.

Lemma parseLabels_piece_witness :
  Labels.parseLabels "env=a=b" = {[ "env"%string := "a"%string ]}
  /\ Labels.parseLabels "production" = ∅.
Proof.
  apply (parseLabels_piece "env" "a" "b" "production"); repeat split.
Defined.

(** ** The exporter and its client configuration *)

Section StartupProperties.

Import Startup.

Variables (KafkaVersion Certificate Kazoo Client Regexp : Type).
Variable env : @Env KafkaVersion Certificate Kazoo Client Regexp.

(** The default case of the switch is every string but the four names. *)
Lemma mechanismCase_default s :
  mechanismCase s = CaseDefault
  <-> ~ In s ["scram-sha512"; "scram-sha256"; "gssapi"; "plain"]%string.
Proof.
  unfold mechanismCase.
  destruct (String.eqb_spec s "scram-sha512") as [->|H1];
    [split; [discriminate | intros H; exfalso; apply H; simpl; tauto]|].
  destruct (String.eqb_spec s "scram-sha256") as [->|H2];
    [split; [discriminate | intros H; exfalso; apply H; simpl; tauto]|].
  destruct (String.eqb_spec s "gssapi") as [->|H3];
    [split; [discriminate | intros H; exfalso; apply H; simpl; tauto]|].
  destruct (String.eqb_spec s "plain") as [->|H4];
    [split; [discriminate | intros H; exfalso; apply H; simpl; tauto]|].
  split; [|reflexivity]. intros _ [H|[H|[H|[H|[]]]]]; congruence.
Qed.

(** What the TLS step needs to go through, and what it then builds. *)
Lemma tlsConfig_ready opts tls :
  tlsConfig env opts = Ready tls ->
  Opts.useTLS opts = true ->
  canReadFile env (Opts.tlsCertFile opts) = canReadFile env (Opts.tlsKeyFile opts)
  /\ exists config,
       tls = Some config
       /\ InsecureSkipVerify config = Opts.tlsInsecureSkipTLSVerify opts
       /\ (Certificates config <> []
           <-> canReadFile env (Opts.tlsCertFile opts) = true).
Proof.
  unfold tlsConfig, CanReadCertAndKey. intros H Htls. rewrite Htls in H.
  destruct (negb (String.eqb (Opts.tlsCAFile opts) "")).
  - destruct (ReadFile env (Opts.tlsCAFile opts)) as [ca [err|]];
      [discriminate|].
    destruct (canReadFile env (Opts.tlsCertFile opts)),
             (canReadFile env (Opts.tlsKeyFile opts)); simpl in H; try discriminate.
    + destruct (LoadX509KeyPair env _ _) as [cert [err|]];
        [discriminate|].
      injection H as <-. split; [reflexivity|]. eexists. split; [reflexivity|].
      simpl. split; [reflexivity|]. split; [reflexivity | discriminate].
    + injection H as <-. split; [reflexivity|]. eexists. split; [reflexivity|].
      simpl. split; [reflexivity|]. split; [congruence | discriminate].
  - destruct (canReadFile env (Opts.tlsCertFile opts)),
             (canReadFile env (Opts.tlsKeyFile opts)); simpl in H; try discriminate.
    + destruct (LoadX509KeyPair env _ _) as [cert [err|]];
        [discriminate|].
      injection H as <-. split; [reflexivity|]. eexists. split; [reflexivity|].
      simpl. split; [reflexivity|]. split; [reflexivity | discriminate].
    + injection H as <-. split; [reflexivity|]. eexists. split; [reflexivity|].
      simpl. split; [reflexivity|]. split; [congruence | discriminate].
Qed.

(** One file of the pair readable and the other not: the TLS step fails
    and names the one that is not. *)
Lemma tlsConfig_half_pair opts :
  Opts.useTLS opts = true ->
  (Opts.tlsCAFile opts = ""%string
   \/ snd (ReadFile env (Opts.tlsCAFile opts)) = None) ->
  canReadFile env (Opts.tlsCertFile opts) <> canReadFile env (Opts.tlsKeyFile opts) ->
  tlsConfig env opts
  = Failed (CertAndKeyError
              (if canReadFile env (Opts.tlsCertFile opts)
               then Opts.tlsKeyFile opts else Opts.tlsCertFile opts)).
Proof.
  unfold tlsConfig, CanReadCertAndKey. intros Htls Hca Hpair.
  rewrite Htls.
  assert (Hready :
    (if negb (String.eqb (Opts.tlsCAFile opts) "")
     then let '(ca, err) := ReadFile env (Opts.tlsCAFile opts) in
          match err with
          | Some err0 => Failed (CAFileError err0)
          | None => Ready [ca]
          end
     else Ready [])
    = Ready (if negb (String.eqb (Opts.tlsCAFile opts) "")
             then [fst (ReadFile env (Opts.tlsCAFile opts))] else [])).
  { destruct Hca as [->|Hread]; [reflexivity|].
    destruct (negb _); [|reflexivity].
    destruct (ReadFile env (Opts.tlsCAFile opts)) as [ca err].
    simpl in Hread. now subst err. }
  rewrite Hready.
  destruct (canReadFile env (Opts.tlsCertFile opts)),
           (canReadFile env (Opts.tlsKeyFile opts)); simpl;
    try reflexivity; now contradiction Hpair.
Qed.

(** The steps behind a call that returns an exporter. *)
Lemma NewExporter_ready_inv opts tf gf ex :
  NewExporter env opts tf gf = Ready ex ->
  exists version tls interval config,
    ParseKafkaVersion env (Opts.kafkaVersion opts) = (version, None)
    /\ (Opts.useSASL opts = true ->
        mechanismCase (ToLower env (Opts.saslMechanism opts)) <> CaseDefault)
    /\ tlsConfig env opts = Ready tls
    /\ (if Opts.useZooKeeperLag opts
        then exists zk, NewKazoo env (Opts.uriZookeeper opts) = (zk, None)
                        /\ zookeeperClient ex = Some zk
        else zookeeperClient ex = None)
    /\ ParseDuration env (Opts.metadataRefreshInterval opts) = (interval, None)
    /\ NewClient env (Opts.uri opts) config = (client ex, None)
    /\ ClientID config = Some clientID
    /\ Version config = Some version
    /\ RefreshFrequency config = Some interval
    /\ TLS config = tls
    /\ SASLEnable config = (if Opts.useSASL opts then Some true else None)
    /\ TLSEnable config = (if Opts.useTLS opts then Some true else None)
    /\ (Opts.useSASL opts = false ->
        Mechanism config = None /\ User config = None /\ Password config = None
        /\ Handshake config = None /\ SCRAMClientGeneratorFunc config = None
        /\ GSSAPI config = noGSSAPI)
    /\ Compile env tf = Some (topicFilter ex)
    /\ Compile env gf = Some (groupFilter ex)
    /\ ex = mkExporter (client ex) (topicFilter ex) (groupFilter ex)
              (Opts.useZooKeeperLag opts) (zookeeperClient ex) (timeNow env)
              interval (Opts.offsetShowAll opts) (Opts.topicWorkers opts)
              (Opts.allowConcurrent opts) None []
              (IsAtLeastV2_0_0_0 env version).
Proof.
  unfold NewExporter. intros H.
  destruct (ParseKafkaVersion env (Opts.kafkaVersion opts)) as [version [e0|]];
    [discriminate|].
  destruct (Opts.useSASL opts
            && match mechanismCase (ToLower env (Opts.saslMechanism opts)) with
               | CaseDefault => true
               | _ => false
               end) eqn:Hsasl; [discriminate|].
  destruct (tlsConfig env opts) as [tls|e1|] eqn:Htls; try discriminate.
  destruct (Opts.useZooKeeperLag opts) eqn:Hzk.
  - destruct (NewKazoo env (Opts.uriZookeeper opts)) as [zk [e2|]] eqn:Hk;
      [discriminate|].
    destruct (ParseDuration env (Opts.metadataRefreshInterval opts))
      as [interval [e3|]]; [discriminate|].
    match type of H with
    | context [NewClient env (Opts.uri opts) ?c] => set (config := c) in *
    end.
    destruct (NewClient env (Opts.uri opts) config) as [cl [e4|]] eqn:Hc;
      [discriminate|].
    destruct (Compile env tf) as [rtf|]; [|discriminate].
    destruct (Compile env gf) as [rgf|]; [|discriminate].
    injection H as <-. exists version, tls, interval, config. simpl.
    repeat apply conj; try reflexivity; try exact Hc; try (now exists zk).
    + intros Hs. rewrite Hs in Hsasl. simpl in Hsasl.
      intros Hd. now rewrite Hd in Hsasl.
    + intros Hs. subst config; simpl. now rewrite Hs.
  - destruct (ParseDuration env (Opts.metadataRefreshInterval opts))
      as [interval [e3|]]; [discriminate|].
    match type of H with
    | context [NewClient env (Opts.uri opts) ?c] => set (config := c) in *
    end.
    destruct (NewClient env (Opts.uri opts) config) as [cl [e4|]] eqn:Hc;
      [discriminate|].
    destruct (Compile env tf) as [rtf|]; [|discriminate].
    destruct (Compile env gf) as [rgf|]; [|discriminate].
    injection H as <-. exists version, tls, interval, config. simpl.
    repeat apply conj; try reflexivity; try exact Hc.
    + intros Hs. rewrite Hs in Hsasl. simpl in Hsasl.
      intros Hd. now rewrite Hd in Hsasl.
    + intros Hs. subst config; simpl. now rewrite Hs.
Qed.

End StartupProperties.

(** X4.  With SASL enabled, [NewExporter] returns an exporter only if the
    mechanism, once put in lower case, is one of [scram-sha512],
    [scram-sha256], [gssapi] and [plain]; for any other mechanism (the
    empty default of the flag included) a call whose version string
    parses fails with the invalid-mechanism error, which carries the
    mechanism in lower case. *)
Theorem NewExporter_sasl_mechanism
    {KafkaVersion Certificate Kazoo Client Regexp : Type}
    (env : @Startup.Env KafkaVersion Certificate Kazoo Client Regexp)
    (opts : Startup.Opts.kafkaOpts) (topicFilter groupFilter : string) :
  Startup.Opts.useSASL opts = true ->
  (forall ex,
     Startup.NewExporter env opts topicFilter groupFilter = Startup.Ready ex ->
     In (Startup.ToLower env (Startup.Opts.saslMechanism opts))
        ["scram-sha512"; "scram-sha256"; "gssapi"; "plain"]%string)
  /\ (snd (Startup.ParseKafkaVersion env (Startup.Opts.kafkaVersion opts)) = None ->
      ~ In (Startup.ToLower env (Startup.Opts.saslMechanism opts))
           ["scram-sha512"; "scram-sha256"; "gssapi"; "plain"]%string ->
      Startup.NewExporter env opts topicFilter groupFilter
      = Startup.Failed
          (Startup.InvalidSASLMechanism
             (Startup.ToLower env (Startup.Opts.saslMechanism opts)))).
Proof.
  intros Hsasl. split.
  - intros ex Hready.
    destruct (NewExporter_ready_inv _ _ _ _ _ env opts _ _ ex Hready)
      as (version & tls & interval & config & _ & Hmech & _).
    specialize (Hmech Hsasl).
    destruct (in_dec String.string_dec
                (Startup.ToLower env (Startup.Opts.saslMechanism opts))
                ["scram-sha512"; "scram-sha256"; "gssapi"; "plain"]%string)
      as [Hin|Hout]; [exact Hin|].
    now apply mechanismCase_default in Hout.
  - intros Hversion Hout. apply mechanismCase_default in Hout.
    unfold Startup.NewExporter.
    destruct (Startup.ParseKafkaVersion env (Startup.Opts.kafkaVersion opts))
      as [version err]. simpl in Hversion. subst err.
    now rewrite Hsasl, Hout.
Qed.

Lemma NewExporter_sasl_mechanism_witness :
  Startup.NewExporter StartupExample.env StartupExample.saslEnabled ".*" ".*"
  = Startup.Failed (Startup.InvalidSASLMechanism "").
Proof.
  apply (proj2 (NewExporter_sasl_mechanism StartupExample.env
                  StartupExample.saslEnabled ".*" ".*" eq_refl)).
  - reflexivity.
  - simpl. intros [H|[H|[H|[H|[]]]]]; discriminate.
Defined.

(** X5.  With TLS enabled, [NewExporter] returns an exporter only if the
    certificate file and the key file can both be opened or both cannot;
    the client is then created with a TLS configuration that carries a
    certificate exactly when both can.  When one of the two can be opened
    and the other cannot, a call that gets as far as the TLS step fails
    with the cert-and-key error naming the file that cannot. *)
Theorem NewExporter_tls_pair
    {KafkaVersion Certificate Kazoo Client Regexp : Type}
    (env : @Startup.Env KafkaVersion Certificate Kazoo Client Regexp)
    (opts : Startup.Opts.kafkaOpts) (topicFilter groupFilter : string) :
  Startup.Opts.useTLS opts = true ->
  (forall ex,
     Startup.NewExporter env opts topicFilter groupFilter = Startup.Ready ex ->
     Startup.canReadFile env (Startup.Opts.tlsCertFile opts)
     = Startup.canReadFile env (Startup.Opts.tlsKeyFile opts)
     /\ exists config tls,
          Startup.NewClient env (Startup.Opts.uri opts) config
          = (Startup.client ex, None)
          /\ Startup.TLSEnable config = Some true
          /\ Startup.TLS config = Some tls
          /\ Startup.InsecureSkipVerify tls
             = Startup.Opts.tlsInsecureSkipTLSVerify opts
          /\ (Startup.Certificates tls <> []
              <-> Startup.canReadFile env (Startup.Opts.tlsCertFile opts) = true))
  /\ (snd (Startup.ParseKafkaVersion env (Startup.Opts.kafkaVersion opts)) = None ->
      (Startup.Opts.useSASL opts = false
       \/ In (Startup.ToLower env (Startup.Opts.saslMechanism opts))
             ["scram-sha512"; "scram-sha256"; "gssapi"; "plain"]%string) ->
      (Startup.Opts.tlsCAFile opts = ""%string
       \/ snd (Startup.ReadFile env (Startup.Opts.tlsCAFile opts)) = None) ->
      Startup.canReadFile env (Startup.Opts.tlsCertFile opts)
      <> Startup.canReadFile env (Startup.Opts.tlsKeyFile opts) ->
      Startup.NewExporter env opts topicFilter groupFilter
      = Startup.Failed
          (Startup.CertAndKeyError
             (if Startup.canReadFile env (Startup.Opts.tlsCertFile opts)
              then Startup.Opts.tlsKeyFile opts
              else Startup.Opts.tlsCertFile opts))).
Proof.
  intros Htls. split.
  - intros ex Hready.
    destruct (NewExporter_ready_inv _ _ _ _ _ env opts _ _ ex Hready)
      as (version & tls & interval & config & _ & _ & Hstep & _ & _ & Hclient
          & _ & _ & _ & Hcfg & _ & Hen & _).
    destruct (tlsConfig_ready _ _ _ _ _ env opts tls Hstep Htls)
      as (Hpair & tlsc & -> & Hskip & Hcert).
    split; [exact Hpair|]. exists config, tlsc.
    rewrite Htls in Hen.
    exact (conj Hclient (conj Hen (conj Hcfg (conj Hskip Hcert)))).
  - intros Hversion Hmech Hca Hpair. unfold Startup.NewExporter.
    destruct (Startup.ParseKafkaVersion env (Startup.Opts.kafkaVersion opts))
      as [version err]. simpl in Hversion. subst err.
    assert (Hok : Startup.Opts.useSASL opts
                  && match Startup.mechanismCase
                             (Startup.ToLower env (Startup.Opts.saslMechanism opts))
                     with
                     | Startup.CaseDefault => true
                     | _ => false
                     end = false).
    { destruct Hmech as [->|Hin]; [reflexivity|].
      destruct (Startup.mechanismCase _) eqn:Hcase;
        try apply andb_false_r.
      apply mechanismCase_default in Hcase. contradiction. }
    rewrite Hok.
    now rewrite (tlsConfig_half_pair _ _ _ _ _ env opts Htls Hca Hpair).
Qed.

Lemma NewExporter_tls_pair_witness :
  Startup.NewExporter StartupExample.env StartupExample.tlsEnabled ".*" ".*"
  = Startup.Failed (Startup.CertAndKeyError "client.key").
Proof.
  apply (proj2 (NewExporter_tls_pair StartupExample.env
                  StartupExample.tlsEnabled ".*" ".*" eq_refl)).
  - reflexivity.
  - now left.
  - now left.
  - discriminate.
Defined.

(** X6.  An exporter that [NewExporter] returns is consistent with the
    client it holds: the client was created with the client id
    [kafka_exporter], the version parsed from the flag (the one
    [consumerGroupFetchAll] is computed from) and a metadata refresh
    frequency equal to the exporter's own refresh interval; the zookeeper
    client is there exactly when zookeeper lag is enabled; with SASL
    disabled no SASL field of the configuration is assigned; the filters
    are the two expressions compiled, and the remaining fields copy the
    options. *)
Theorem NewExporter_consistent
    {KafkaVersion Certificate Kazoo Client Regexp : Type}
    (env : @Startup.Env KafkaVersion Certificate Kazoo Client Regexp)
    (opts : Startup.Opts.kafkaOpts) (topicFilter groupFilter : string)
    (ex : Startup.Exporter) :
  Startup.NewExporter env opts topicFilter groupFilter = Startup.Ready ex ->
  (exists version config,
     Startup.ParseKafkaVersion env (Startup.Opts.kafkaVersion opts)
     = (version, None)
     /\ Startup.NewClient env (Startup.Opts.uri opts) config
        = (Startup.client ex, None)
     /\ Startup.ClientID config = Some "kafka_exporter"%string
     /\ Startup.Version config = Some version
     /\ Startup.consumerGroupFetchAll ex = Startup.IsAtLeastV2_0_0_0 env version
     /\ Startup.RefreshFrequency config
        = Some (Startup.metadataRefreshInterval ex)
     /\ (Startup.Opts.useSASL opts = false ->
         Startup.SASLEnable config = None
         /\ Startup.Mechanism config = None
         /\ Startup.User config = None
         /\ Startup.Password config = None
         /\ Startup.GSSAPI config = Startup.noGSSAPI))
  /\ (Startup.useZooKeeperLag ex = true <-> Startup.zookeeperClient ex <> None)
  /\ Startup.Compile env topicFilter = Some (Startup.topicFilter ex)
  /\ Startup.Compile env groupFilter = Some (Startup.groupFilter ex)
  /\ Startup.useZooKeeperLag ex = Startup.Opts.useZooKeeperLag opts
  /\ Startup.offsetShowAll ex = Startup.Opts.offsetShowAll opts
  /\ Startup.topicWorkers ex = Startup.Opts.topicWorkers opts
  /\ Startup.allowConcurrent ex = Startup.Opts.allowConcurrent opts
  /\ Startup.nextMetadataRefresh ex = Startup.timeNow env
  /\ Startup.sgChans ex = [].
Proof.
  intros Hready.
  destruct (NewExporter_ready_inv _ _ _ _ _ env opts _ _ ex Hready)
    as (version & tls & interval & config & Hv & _ & _ & Hzk & Hi & Hclient
        & Hid & Hver & Hfreq & _ & Hen & _ & Hoff & Htf & Hgf & Hex).
  rewrite Hex. simpl. split; [|split; [|now repeat apply conj]].
  - exists version, config.
    split; [exact Hv|]. split; [rewrite Hex in Hclient; exact Hclient|].
    split; [exact Hid|]. split; [exact Hver|]. split; [reflexivity|].
    split; [exact Hfreq|]. intros Hs.
    destruct (Hoff Hs) as (Hm & Hu & Hp & _ & _ & Hg).
    rewrite Hs in Hen. now repeat apply conj.
  - rewrite Hex in Hzk. simpl in Hzk.
    destruct (Startup.Opts.useZooKeeperLag opts).
    + destruct Hzk as (zk & _ & ->). split; [discriminate | reflexivity].
    + rewrite Hzk. split; [discriminate | intros H; now contradiction H].
Qed.

Lemma NewExporter_consistent_witness :
  exists ex,
    Startup.NewExporter StartupExample.env StartupExample.defaults ".*" ".*"
    = Startup.Ready ex
    /\ (Startup.useZooKeeperLag ex = true <-> Startup.zookeeperClient ex <> None)
    /\ Startup.nextMetadataRefresh ex = 1000.
Proof.
  eexists. split; [reflexivity|].
  destruct (NewExporter_consistent StartupExample.env StartupExample.defaults
              ".*" ".*" _ eq_refl)
    as (_ & Hzk & _ & _ & _ & _ & _ & _ & Hnext & _).
  exact (conj Hzk Hnext).
Defined.

(** * The samples of a cycle *)

Section Shapes.

Variable e : Exporter.

Lemma zookeeperLag_shape topic p currentOffset :
  walkedPartition e topic p ->
  Forall (eventShape e) (zookeeperLag e topic p currentOffset).
Proof.
  intros Hp. unfold zookeeperLag.
  destruct (useZooKeeperLag e) eqn:Hzk; [|constructor].
  destruct (Consumergroups (client e)) as [groups err] eqn:Hg.
  apply Forall_app_2.
  - destruct (failed err); split_trace; exact I.
  - assert (Hin : forall g, In g groups -> In g (fst (Consumergroups (client e))))
      by (rewrite Hg; auto).
    clear Hg. induction groups as [|g groups IH]; simpl; [constructor|].
    apply Forall_app_2.
    + destruct (0 <? _); split_trace. simpl.
      exists g, topic, p.
      split; [reflexivity|]. split; [exact Hzk|]. split; [exact Hp|].
      apply Hin. now left.
    + apply IH. intros g' Hg'. apply Hin. now right.
Qed.

Lemma partitionFacts_shape topic p offs :
  walkedPartition e topic p ->
  Forall (eventShape e) (fst (partitionFacts e topic p offs)).
Proof.
  intros Hp. unfold partitionFacts.
  pose proof (zookeeperLag_shape topic p) as Hzk.
  destruct (Leader (client e) topic p);
    destruct (GetOffset (client e) TopicWalk topic p OffsetNewest) as [v1 e1];
    destruct (GetOffset (client e) TopicWalk topic p OffsetOldest) as [v2 e2];
    destruct (Replicas (client e) topic p) as [r e3];
    destruct (InSyncReplicas (client e) topic p) as [i e4];
    destruct (failed e1), (failed e2), (failed e3), (failed e4); simpl;
    split_trace; try exact I; try (now apply Hzk);
    simpl; exists topic, p; (split; [reflexivity|]); try exact Hp;
    (split; [exact Hp|]);
    match goal with
    | |- context [if ?b then _ else _] => destruct b; tauto
    end.
Qed.

Lemma partitionsLoop_shape topic ps offs :
  (forall p, In p ps -> walkedPartition e topic p) ->
  Forall (eventShape e) (fst (partitionsLoop e topic ps offs)).
Proof.
  revert offs. induction ps as [|p ps IH]; intros offs Hps; simpl; [constructor|].
  pose proof (partitionFacts_shape topic p offs (Hps p (or_introl eq_refl)))
    as Hp.
  destruct (partitionFacts e topic p offs) as [tr offs1].
  assert (Hrest : forall q, In q ps -> walkedPartition e topic q)
    by (intros q Hq; apply Hps; now right).
  specialize (IH offs1 Hrest).
  destruct (partitionsLoop e topic ps offs1) as [tr' offs2]. simpl in *.
  now apply Forall_app_2.
Qed.

Lemma getTopicMetrics_shape topic snap :
  Forall (eventShape e) (fst (getTopicMetrics e topic snap)).
Proof.
  unfold getTopicMetrics. destruct (topicFilter e topic) eqn:Hf; simpl;
    [|constructor].
  destruct (Partitions (client e) topic) as [ps err] eqn:Hps.
  destruct err as [err|]; simpl; [split_trace; exact I|].
  assert (Hw : walkedTopic e topic) by (split; [exact Hf | now rewrite Hps]).
  assert (Hall : forall p, In p ps -> walkedPartition e topic p).
  { intros p Hp. split; [exact Hw | now rewrite Hps]. }
  pose proof (partitionsLoop_shape topic ps ∅ Hall) as Hloop.
  destruct (partitionsLoop e topic ps ∅) as [tr offs]. simpl in *.
  constructor; [|exact Hloop].
  simpl. exists topic. split; [reflexivity|]. split; [exact Hw|].
  now rewrite Hps.
Qed.

Lemma runTopics_shape queued snap :
  Forall (eventShape e) (fst (runTopics e queued snap)).
Proof.
  revert snap. induction queued as [|t queued IH]; intros snap; simpl;
    [constructor|].
  pose proof (getTopicMetrics_shape t snap) as Ht.
  destruct (getTopicMetrics e t snap) as [tr snap1].
  specialize (IH snap1).
  destruct (runTopics e queued snap1) as [tr' snap2]. simpl in *.
  now apply Forall_app_2.
Qed.

Lemma topicPhase_shape topics walk snap :
  topicPhase e topics = Some (walk, snap) -> Forall (eventShape e) walk.
Proof.
  unfold topicPhase. destruct (List.filter (topicFilter e) topics) as [|t q].
  - intros [= <- <-]. constructor.
  - destruct (poolSize e topics <=? 0); [discriminate|]. intros Heq.
    assert (Hr : runTopics e (t :: q) emptySnapshot = (walk, snap))
      by congruence.
    pose proof (runTopics_shape (t :: q) emptySnapshot) as H.
    now rewrite Hr in H.
Qed.

Lemma partitionLags_shape broker group topic bs cs ls :
  Forall (eventShape e)
    (fst (fst (partitionLags e broker group topic bs cs ls))).
Proof.
  revert cs ls. induction bs as [|[p blk] bs IH]; intros cs ls; simpl;
    [constructor|].
  assert (Hp : Forall (eventShape e)
                 (fst (fst (partitionLag e broker group topic p blk cs ls)))).
  { unfold partitionLag. destruct (negb (Err blk =? ErrNoError)); simpl;
      [split_trace; exact I|].
    destruct (GetOffset (client e) (GroupScan broker group) topic p
                OffsetNewest) as [v err].
    destruct (failed err), (Offset blk =? -1); simpl; split_trace;
      try exact I; simpl; now exists group, topic, p. }
  destruct (partitionLag e broker group topic p blk cs ls) as [[tr cs1] ls1].
  specialize (IH cs1 ls1).
  destruct (partitionLags e broker group topic bs cs1 ls1) as [[tr' cs2] ls2].
  simpl in *. now apply Forall_app_2.
Qed.

Lemma blocksLoop_shape broker group blocks timeDiff G :
  Forall (eventShape e) (fst (blocksLoop e broker group blocks timeDiff G)).
Proof.
  revert G. induction blocks as [|[topic bs] blocks IH]; intros G; simpl;
    [constructor|].
  destruct (topicConsumed bs); [|apply IH].
  assert (Ht : Forall (eventShape e)
                 (fst (reportTopic e broker group topic bs timeDiff G))).
  { unfold reportTopic.
    pose proof (partitionLags_shape broker group topic bs 0 0) as Hp.
    destruct (partitionLags e broker group topic bs 0 0) as [[tr cs] ls].
    destruct (consumeRateTime G group topic cs timeDiff) as [rate time].
    simpl in *. apply Forall_app_2; [exact Hp|].
    split_trace; simpl; eauto 10. }
  destruct (reportTopic e broker group topic bs timeDiff G) as [tr G1].
  specialize (IH G1).
  destruct (blocksLoop e broker group blocks timeDiff G1) as [tr' G2].
  simpl in *. now apply Forall_app_2.
Qed.

Lemma groupsLoop_shape snap broker groups timeDiff G :
  Forall (eventShape e) (fst (groupsLoop e snap broker groups timeDiff G)).
Proof.
  revert G. induction groups as [|group groups IH]; intros G; simpl;
    [constructor|].
  assert (Hm : eventShape e
                 (Emit (mkMetric consumergroupMembers (len (Members group))
                                 [LStr (GroupId group)]))).
  { simpl. exists (GroupId group). split; [reflexivity | apply len_nonneg]. }
  destruct (if offsetShowAll e then _ else _) as [request|];
    [|split_trace; exact I].
  destruct (FetchOffset (client e) broker request) as [blocks err].
  destruct (failed err).
  - specialize (IH G).
    destruct (groupsLoop e snap broker groups timeDiff G) as [tr G1].
    simpl in *. split_trace; [exact Hm | exact I | exact IH].
  - pose proof (blocksLoop_shape broker (GroupId group) blocks timeDiff G) as Hb.
    destruct (blocksLoop e broker (GroupId group) blocks timeDiff G) as [tr G1].
    specialize (IH G1).
    destruct (groupsLoop e snap broker groups timeDiff G1) as [tr' G2].
    simpl in *. split_trace; [exact Hm | exact Hb | exact IH].
Qed.

Lemma brokersLoop_shape snap clk brokers G :
  Forall (eventShape e) (fst (brokersLoop e snap clk brokers G)).
Proof.
  revert G. induction brokers as [|b brokers IH]; intros G; simpl;
    [constructor|].
  assert (Hb : Forall (eventShape e)
                 (fst (getConsumerGroupMetrics e snap clk b G))).
  { unfold getConsumerGroupMetrics.
    destruct (ListGroups (client e) b) as [groups err].
    destruct (DescribeGroups (client e) b _) as [described err'].
    pose proof (groupsLoop_shape snap b described (timeDiffAt clk b G) G)
      as Hloop.
    destruct (Open (client e) b) as [[|msg]|];
      destruct (failed err), (failed err'); simpl;
      first [exact Hloop | split_trace; exact I]. }
  destruct (getConsumerGroupMetrics e snap clk b G) as [tr G1].
  specialize (IH G1).
  destruct (brokersLoop e snap clk brokers G1) as [tr' G2]. simpl in *.
  now apply Forall_app_2.
Qed.

(** Every event of a cycle has the shape its descriptor commands. *)
Lemma collect_shape clk G : Forall (eventShape e) (traceOf (collect e clk G)).
Proof.
  unfold collect.
  assert (Hr : Forall (eventShape e) (fst (refreshMetadata e clk G))).
  { unfold refreshMetadata. destruct (_ <? _); simpl; [|constructor].
    destruct (failed _); split_trace; exact I. }
  destruct (refreshMetadata e clk G) as [refresh G1]. simpl in Hr.
  assert (Hb : eventShape e
                 (Emit (mkMetric clusterBrokers (len (Brokers (client e))) [])))
    by (simpl; now split).
  destruct (Topics (client e)) as [topics err].
  destruct (failed err); simpl.
  - constructor; [exact Hb|]. apply Forall_app_2; [exact Hr|].
    split_trace; exact I.
  - destruct (topicPhase e topics) as [[walk snap]|] eqn:Hw; simpl.
    + apply topicPhase_shape in Hw.
      assert (Hg : Forall (eventShape e) (fst (groupPhase e snap clk G1))).
      { unfold groupPhase. destruct (0 <? _);
          [apply brokersLoop_shape | split_trace; exact I]. }
      destruct (groupPhase e snap clk G1) as [scan G2]. simpl in *.
      constructor; [exact Hb|]. repeat apply Forall_app_2; assumption.
    + constructor; [exact Hb | exact Hr].
Qed.

End Shapes.

(** X7.  Every sample of a cycle carries as many label values as [setup]
    declares variable labels for its descriptor, so that no call of
    [MustNewConstMetric] in [collect] fails on the number of labels. *)
Theorem samples_match_declared_labels (e : Exporter) (clk : Clock) (G : Globals) :
  Forall (fun ev =>
            match ev with
            | Emit m => length (labels m) = length (variableLabels (desc m))
            | LogError _ => True
            end)
         (traceOf (collect e clk G)).
Proof.
  eapply Forall_impl; [apply collect_shape|].
  intros [m|l] Hshape; [|exact I]. simpl in Hshape.
  destruct (desc m); simpl;
    repeat match goal with
           | H : exists _, _ |- _ => destruct H as [? H]
           | H : _ /\ _ |- _ => destruct H as [H ?]
           end;
    now rewrite Hshape.
Qed.

(** X8.  The topic filter is honoured by the walk: every sample of a
    cycle with a topic-level descriptor names a topic that passes the
    filter and whose partition list was fetched, and, when it is about a
    partition, a partition of that list. *)
Theorem topic_samples_are_walked
    (e : Exporter) (clk : Clock) (G : Globals) (m : Metric) :
  In (Emit m) (traceOf (collect e clk G)) ->
  topicLevel (desc m) = true ->
  exists topic,
    topicFilter e topic = true
    /\ snd (Partitions (client e) topic) = None
    /\ (labels m = [LStr topic]
        \/ exists p,
             labels m = [LStr topic; LInt p]
             /\ In p (fst (Partitions (client e) topic))).
Proof.
  intros Hin Hlevel.
  pose proof (collect_shape e clk G) as Hall.
  rewrite List.Forall_forall in Hall. specialize (Hall _ Hin). simpl in Hall.
  destruct (desc m); try discriminate;
    repeat match goal with
           | H : exists _, _ |- _ => destruct H as [? H]
           | H : _ /\ _ |- _ => destruct H as [H ?]
           | H : walkedPartition _ _ _ |- _ => destruct H as [[? ?] ?]
           | H : walkedTopic _ _ |- _ => destruct H as [? ?]
           end;
    eexists; (split; [eassumption|]); (split; [eassumption|]);
    first [ left; assumption | right; eexists; split; eassumption ].
Qed.

Lemma topic_samples_are_walked_witness :
  exists topic,
    topicFilter Cluster.exporter topic = true
    /\ snd (Partitions (client Cluster.exporter) topic) = None
    /\ (labels (mkMetric topicCurrentOffset 1000 [LStr "orders"; LInt 0])
        = [LStr topic]
        \/ exists p,
             labels (mkMetric topicCurrentOffset 1000 [LStr "orders"; LInt 0])
             = [LStr topic; LInt p]
             /\ In p (fst (Partitions (client Cluster.exporter) topic))).
Proof.
  apply (topic_samples_are_walked Cluster.exporter Cluster.firstClock
           (initGlobals 0)
           (mkMetric topicCurrentOffset 1000 [LStr "orders"; LInt 0])).
  - pick_member.
  - reflexivity.
Defined.

(** X9.  Without [--use.consumelag.zookeeper] no cycle emits a zookeeper
    lag sample; with it, such a sample names a group that zookeeper lists
    and a partition of a walked topic. *)
Theorem zookeeper_lag_only_when_enabled
    (e : Exporter) (clk : Clock) (G : Globals) :
  (useZooKeeperLag e = false ->
   omitted consumergroupLagZookeeper (traceOf (collect e clk G)))
  /\ (forall v l,
        In (Emit (mkMetric consumergroupLagZookeeper v l))
           (traceOf (collect e clk G)) ->
        exists group topic p,
          l = [LStr group; LStr topic; LInt p]
          /\ In group (fst (Consumergroups (client e)))
          /\ topicFilter e topic = true
          /\ In p (fst (Partitions (client e) topic))).
Proof.
  pose proof (collect_shape e clk G) as Hall.
  rewrite List.Forall_forall in Hall.
  split.
  - intros Hoff v l Hin. specialize (Hall _ Hin). simpl in Hall.
    destruct Hall as (g & t & p & _ & Hon & _). congruence.
  - intros v l Hin. specialize (Hall _ Hin). simpl in Hall.
    destruct Hall as (g & t & p & Hl & _ & [[Hf _] Hp] & Hg).
    now exists g, t, p.
Qed.

Lemma zookeeper_lag_only_when_enabled_witness :
  omitted consumergroupLagZookeeper
          (traceOf (collect Cluster.exporter Cluster.firstClock (initGlobals 0))).
Proof.
  apply (proj1 (zookeeper_lag_only_when_enabled
                  Cluster.exporter Cluster.firstClock (initGlobals 0))).
  reflexivity.
Defined.

(** X10.  In every cycle the two flag gauges (leader is preferred, under
    replicated) carry 0 or 1, and the broker, partition and member counts
    are not negative. *)
Theorem gauge_ranges (e : Exporter) (clk : Clock) (G : Globals) (m : Metric) :
  In (Emit m) (traceOf (collect e clk G)) ->
  (desc m = topicPartitionUsesPreferredReplica
   \/ desc m = topicUnderReplicatedPartition ->
   value m = 0 \/ value m = 1)
  /\ (desc m = clusterBrokers \/ desc m = topicPartitions
      \/ desc m = consumergroupMembers ->
      0 <= value m).
Proof.
  intros Hin.
  pose proof (collect_shape e clk G) as Hall.
  rewrite List.Forall_forall in Hall. specialize (Hall _ Hin). simpl in Hall.
  split.
  - intros [Hd|Hd]; rewrite Hd in Hall;
      destruct Hall as (t & p & _ & _ & Hv); exact Hv.
  - intros [Hd|[Hd|Hd]]; rewrite Hd in Hall.
    + destruct Hall as [_ ->]. apply len_nonneg.
    + destruct Hall as (t & _ & _ & ->). apply len_nonneg.
    + destruct Hall as (g & _ & Hv). exact Hv.
Qed.

Lemma gauge_ranges_witness :
  value (mkMetric topicUnderReplicatedPartition 1 [LStr "orders"; LInt 0]) = 0
  \/ value (mkMetric topicUnderReplicatedPartition 1 [LStr "orders"; LInt 0])
     = 1.
Proof.
  refine (proj1 (gauge_ranges Cluster.exporter Cluster.firstClock
                   (initGlobals 0)
                   (mkMetric topicUnderReplicatedPartition 1
                             [LStr "orders"; LInt 0]) _) _).
  - pick_member.
  - now right.
Defined.

(** * The snapshot and the offset requests *)

Section SnapshotContents.

Variable e : Exporter.

Lemma partitionFacts_offsets topic p offs :
  snd (partitionFacts e topic p offs)
  = if failed (snd (GetOffset (client e) TopicWalk topic p OffsetNewest))
    then offs
    else <[ p := fst (GetOffset (client e) TopicWalk topic p OffsetNewest) ]> offs.
Proof.
  unfold partitionFacts.
  destruct (Leader (client e) topic p);
    destruct (GetOffset (client e) TopicWalk topic p OffsetNewest) as [v1 e1];
    destruct (GetOffset (client e) TopicWalk topic p OffsetOldest) as [v2 e2];
    destruct (Replicas (client e) topic p) as [r e3];
    destruct (InSyncReplicas (client e) topic p) as [i e4];
    cbn [fst snd]; destruct e1; reflexivity.
Qed.

(** A partition outside the list, or whose latest offset cannot be
    fetched, keeps the entry it had. *)
Lemma partitionsLoop_miss topic ps offs q :
  ~ In q ps
  \/ failed (snd (GetOffset (client e) TopicWalk topic q OffsetNewest)) = true ->
  snd (partitionsLoop e topic ps offs) !! q = offs !! q.
Proof.
  revert offs. induction ps as [|p ps IH]; intros offs Hq; simpl; [reflexivity|].
  pose proof (partitionFacts_offsets topic p offs) as Hp.
  destruct (partitionFacts e topic p offs) as [tr offs1]. simpl in Hp.
  assert (Hrest : ~ In q ps
                  \/ failed (snd (GetOffset (client e) TopicWalk topic q
                                    OffsetNewest)) = true).
  { destruct Hq as [Hq|Hq]; [left; intros H; apply Hq; now right | now right]. }
  specialize (IH offs1 Hrest).
  destruct (partitionsLoop e topic ps offs1) as [tr' offs2]. simpl in *.
  rewrite IH, Hp.
  destruct (Z.eq_dec p q) as [->|Hne].
  - destruct Hq as [Hq|Hq]; [exfalso; apply Hq; now left|]. now rewrite Hq.
  - destruct (failed (snd (GetOffset (client e) TopicWalk topic p
                               OffsetNewest)));
      [reflexivity|]. now rewrite lookup_insert_ne.
Qed.

(** A partition of the list whose latest offset is fetched has it as its
    entry. *)
Lemma partitionsLoop_hit topic ps offs q v :
  In q ps ->
  GetOffset (client e) TopicWalk topic q OffsetNewest = (v, None) ->
  snd (partitionsLoop e topic ps offs) !! q = Some v.
Proof.
  revert offs. induction ps as [|p ps IH]; intros offs Hq Hv; [destruct Hq|].
  simpl.
  pose proof (partitionFacts_offsets topic p offs) as Hp.
  destruct (partitionFacts e topic p offs) as [tr offs1]. simpl in Hp.
  destruct (in_dec Z.eq_dec q ps) as [Hin|Hout].
  - specialize (IH offs1 Hin Hv).
    now destruct (partitionsLoop e topic ps offs1) as [tr' offs2].
  - pose proof (partitionsLoop_miss topic ps offs1 q (or_introl Hout)) as Hm.
    destruct (partitionsLoop e topic ps offs1) as [tr' offs2]. simpl in *.
    destruct Hq as [->|Hq]; [|contradiction].
    rewrite Hm, Hp, Hv. simpl. apply lookup_insert_eq.
Qed.

(** The entries of a topic after its partitions have been walked. *)
Lemma partitionsLoop_entries topic ps q v :
  snd (partitionsLoop e topic ps ∅) !! q = Some v
  <-> In q ps
      /\ GetOffset (client e) TopicWalk topic q OffsetNewest = (v, None).
Proof.
  split.
  - intros Hl.
    destruct (in_dec Z.eq_dec q ps) as [Hin|Hout].
    + destruct (GetOffset (client e) TopicWalk topic q OffsetNewest)
        as [w [err|]] eqn:Hg.
      * rewrite partitionsLoop_miss in Hl by (right; now rewrite Hg).
        now rewrite lookup_empty in Hl.
      * rewrite (partitionsLoop_hit topic ps ∅ q w Hin Hg) in Hl.
        injection Hl as ->. now split.
    + rewrite partitionsLoop_miss in Hl by now left.
      now rewrite lookup_empty in Hl.
  - intros [Hin Hg]. now apply partitionsLoop_hit.
Qed.

Lemma getTopicMetrics_snapshot a snap topic :
  let hit := String.eqb topic a && topicFilter e a
             && negb (failed (snd (Partitions (client e) a))) in
  topicsPartitions (snd (getTopicMetrics e a snap)) !! topic
  = (if hit then Some (fst (Partitions (client e) a))
     else topicsPartitions snap !! topic)
  /\ offset (snd (getTopicMetrics e a snap)) !! topic
     = (if hit
        then Some (snd (partitionsLoop e a (fst (Partitions (client e) a)) ∅))
        else offset snap !! topic).
Proof.
  cbv zeta. unfold getTopicMetrics.
  destruct (topicFilter e a); simpl;
    [|now rewrite andb_false_r].
  rewrite andb_true_r.
  destruct (Partitions (client e) a) as [ps err]. simpl.
  destruct (failed err); simpl; [now rewrite andb_false_r|].
  rewrite andb_true_r.
  destruct (partitionsLoop e a ps ∅) as [tr offs]. simpl.
  destruct (String.eqb_spec topic a) as [->|Hne].
  - now rewrite !lookup_insert_eq.
  - now rewrite !lookup_insert_ne by congruence.
Qed.

Lemma runTopics_snapshot queued snap topic :
  topicsPartitions (snd (runTopics e queued snap)) !! topic
  = (if walks e queued topic then Some (fst (Partitions (client e) topic))
     else topicsPartitions snap !! topic)
  /\ offset (snd (runTopics e queued snap)) !! topic
     = (if walks e queued topic
        then Some (snd (partitionsLoop e topic
                          (fst (Partitions (client e) topic)) ∅))
        else offset snap !! topic).
Proof.
  revert snap. induction queued as [|a queued IH]; intros snap.
  - now split.
  - simpl. destruct (getTopicMetrics_snapshot a snap topic) as [Hp Ho].
    destruct (getTopicMetrics e a snap) as [tr snap1]. simpl in Hp, Ho.
    destruct (IH snap1) as [IHp IHo].
    destruct (runTopics e queued snap1) as [tr' snap2]. simpl in *.
    rewrite IHp, IHo, Hp, Ho. unfold walks. simpl.
    destruct (String.eqb_spec topic a) as [->|Hne]; simpl.
    + destruct (existsb (String.eqb a) queued); simpl;
        destruct (topicFilter e a); simpl; try (now split);
        destruct (failed (snd (Partitions (client e) a))); now split.
    + now split.
Qed.

Lemma walks_filtered topics topic :
  walks e (List.filter (topicFilter e) topics) topic = true
  <-> In topic topics /\ topicFilter e topic = true
      /\ snd (Partitions (client e) topic) = None.
Proof.
  unfold walks. rewrite !andb_true_iff, existsb_exists, negb_true_iff.
  split.
  - intros [[(t & Hin & Heq) Hf] Hok].
    apply String.eqb_eq in Heq. subst t.
    apply filter_In in Hin as [Hin _].
    split; [exact Hin|]. split; [exact Hf|].
    now destruct (snd (Partitions (client e) topic)).
  - intros (Hin & Hf & Hok). rewrite Hok. repeat split; try assumption.
    exists topic. split; [|apply String.eqb_refl].
    apply filter_In. now split.
Qed.

(** What the snapshot of a walk holds for a topic. *)
Lemma topicPhase_snapshot topics walk snap topic :
  topicPhase e topics = Some (walk, snap) ->
  topicsPartitions snap !! topic
  = (if walks e (List.filter (topicFilter e) topics) topic
     then Some (fst (Partitions (client e) topic)) else None)
  /\ offset snap !! topic
     = (if walks e (List.filter (topicFilter e) topics) topic
        then Some (snd (partitionsLoop e topic
                          (fst (Partitions (client e) topic)) ∅))
        else None).
Proof.
  unfold topicPhase.
  destruct (List.filter (topicFilter e) topics) as [|t q] eqn:Hq.
  - intros [= <- <-]. unfold walks. simpl. now split.
  - destruct (poolSize e topics <=? 0); [discriminate|]. intros Heq.
    assert (Hr : runTopics e (t :: q) emptySnapshot = (walk, snap))
      by congruence.
    replace snap with (snd (runTopics e (t :: q) emptySnapshot))
      by now rewrite Hr.
    destruct (runTopics_snapshot (t :: q) emptySnapshot topic) as [Hp Ho].
    rewrite Hp, Ho. unfold emptySnapshot. simpl.
    now rewrite !lookup_empty.
Qed.

End SnapshotContents.

(** The partition lists of the snapshot of a walk that completes. *)
Lemma snapshot_partitions
    (e : Exporter) (topics : list string) (walk : Trace) (snap : Snapshot) :
  topicPhase e topics = Some (walk, snap) ->
  forall topic ps,
    topicsPartitions snap !! topic = Some ps
    <-> In topic topics /\ topicFilter e topic = true
        /\ Partitions (client e) topic = (ps, None).
Proof.
  intros Hwalk.
  intros topic ps.
  destruct (topicPhase_snapshot e topics walk snap topic Hwalk) as [-> _].
  pose proof (walks_filtered e topics topic) as Hw.
  destruct (walks e (List.filter (topicFilter e) topics) topic).
  + destruct (proj1 Hw eq_refl) as (Hin & Hf & Hok). split.
    * intros [= <-]. repeat split; try assumption.
      destruct (Partitions (client e) topic) as [l err]. simpl in *.
      now subst err.
    * intros (_ & _ & Hp). now rewrite Hp.
  + split; [discriminate|]. intros (Hin & Hf & Hp).
    assert (Htrue : false = true)
      by (apply Hw; rewrite Hp; now repeat split).
    discriminate.
Qed.

(** X11.  After a walk that completes, the snapshot holds exactly what
    was fetched: [topicsPartitions] has an entry for a topic exactly when
    the topic is in the topic list, passes the filter and its partition
    list is fetched, and the entry is that list; [offset] has an entry
    for a partition exactly when, in addition, the partition is in that
    list and its latest offset is fetched, and the entry is that offset. *)
Theorem snapshot_after_walk
    (e : Exporter) (topics : list string) (walk : Trace) (snap : Snapshot) :
  topicPhase e topics = Some (walk, snap) ->
  (forall topic ps,
     topicsPartitions snap !! topic = Some ps
     <-> In topic topics /\ topicFilter e topic = true
         /\ Partitions (client e) topic = (ps, None))
  /\ (forall topic p v,
        (exists offs, offset snap !! topic = Some offs /\ offs !! p = Some v)
        <-> In topic topics /\ walkedPartition e topic p
            /\ GetOffset (client e) TopicWalk topic p OffsetNewest = (v, None)).
Proof.
  intros Hwalk. split.
  - exact (snapshot_partitions e topics walk snap Hwalk).
  - intros topic p v.
    destruct (topicPhase_snapshot e topics walk snap topic Hwalk) as [_ ->].
    pose proof (walks_filtered e topics topic) as Hw.
    destruct (walks e (List.filter (topicFilter e) topics) topic).
    + destruct (proj1 Hw eq_refl) as (Hin & Hf & Hok). split.
      * intros (offs & [= <-] & Hl).
        apply partitionsLoop_entries in Hl as [Hp Hv].
        now repeat split.
      * intros (_ & [_ Hp] & Hv). eexists. split; [reflexivity|].
        apply partitionsLoop_entries. now split.
    + split; [intros (offs & H & _); discriminate|].
      intros (Hin & [[Hf Hok] _] & _).
      assert (Htrue : false = true) by (apply Hw; now repeat split).
      discriminate.
Qed.

Lemma snapshot_after_walk_witness :
  (forall topic ps,
     topicsPartitions Cluster.snapshot !! topic = Some ps
     <-> In topic ["orders"; "payments"]%string
         /\ topicFilter Cluster.exporter topic = true
         /\ Partitions (client Cluster.exporter) topic = (ps, None))
  /\ (forall topic p v,
        (exists offs,
           offset Cluster.snapshot !! topic = Some offs /\ offs !! p = Some v)
        <-> In topic ["orders"; "payments"]%string
            /\ walkedPartition Cluster.exporter topic p
            /\ GetOffset (client Cluster.exporter) TopicWalk topic p OffsetNewest
               = (v, None)).
Proof.
  apply (snapshot_after_walk Cluster.exporter ["orders"; "payments"]%string
           (fst (runTopics Cluster.exporter ["orders"; "payments"]%string
                   emptySnapshot))).
  vm_compute. reflexivity.
Defined.

Section Requests.

Lemma addPartitions_request r tp :
  ConsumerGroup (addPartitions r tp) = ConsumerGroup r
  /\ Version (addPartitions r tp) = Version r
  /\ partitions (addPartitions r tp)
     = partitions r ++ map (pair (fst tp)) (snd tp).
Proof.
  unfold addPartitions. destruct tp as [topic ps]. simpl. revert r.
  induction ps as [|p ps IH]; intros r; simpl.
  - now rewrite app_nil_r.
  - destruct (IH (AddPartition r topic p)) as (Hg & Hv & Hp).
    rewrite Hg, Hv, Hp. simpl. now rewrite <- app_assoc.
Qed.

Lemma fold_addPartitions_request entries r :
  ConsumerGroup (fold_left addPartitions entries r) = ConsumerGroup r
  /\ Version (fold_left addPartitions entries r) = Version r
  /\ partitions (fold_left addPartitions entries r)
     = partitions r ++ partitionsOf entries.
Proof.
  revert r. induction entries as [|tp entries IH]; intros r; simpl.
  - now rewrite app_nil_r.
  - destruct (IH (addPartitions r tp)) as (Hg & Hv & Hp).
    destruct (addPartitions_request r tp) as (Hg' & Hv' & Hp').
    rewrite Hg, Hv, Hp, Hg', Hv', Hp'. now rewrite <- app_assoc.
Qed.

Lemma in_partitionsOf entries topic p :
  In (topic, p) (partitionsOf entries)
  <-> exists ps, In (topic, ps) entries /\ In p ps.
Proof.
  unfold partitionsOf. rewrite in_flat_map. split.
  - intros ([t ps] & Hin & Hp). simpl in Hp.
    apply in_map_iff in Hp as (q & [= -> ->] & Hq). now exists ps.
  - intros (ps & Hin & Hp). exists (topic, ps). split; [exact Hin|].
    simpl. apply in_map_iff. now exists p.
Qed.

End Requests.

(** X12.  In show-all mode the offset request of a group asks for
    exactly the partitions of the snapshot: after a walk that completes,
    a (topic, partition) is added to the request if and only if the topic
    is in the topic list and the partition is in the fetched partition
    list of that walked topic; the request keeps its group. *)
Theorem show_all_request
    (e : Exporter) (topics : list string) (walk : Trace) (snap : Snapshot)
    (r : OffsetFetchRequest) :
  topicPhase e topics = Some (walk, snap) ->
  ConsumerGroup (requestShowAll snap r) = ConsumerGroup r
  /\ forall topic p,
       In (topic, p) (partitions (requestShowAll snap r))
       <-> In (topic, p) (partitions r)
           \/ (In topic topics /\ walkedPartition e topic p).
Proof.
  intros Hwalk. unfold requestShowAll.
  destruct (fold_addPartitions_request
              (map_to_list (topicsPartitions snap)) r) as (Hg & _ & Hp).
  split; [exact Hg|]. intros topic p. rewrite Hp, in_app_iff.
  apply or_iff_compat_l. rewrite in_partitionsOf.
  pose proof (snapshot_partitions e topics walk snap Hwalk) as Hentries.
  split.
  - intros (ps & Hin & Hq).
    apply list_elem_of_In, elem_of_map_to_list, Hentries in Hin
      as (Hin & Hf & Hps).
    split; [exact Hin|]. split; [split; [exact Hf | now rewrite Hps]|].
    now rewrite Hps.
  - intros (Hin & [[Hf Hok] Hq]).
    exists (fst (Partitions (client e) topic)). split; [|exact Hq].
    apply list_elem_of_In, elem_of_map_to_list, Hentries.
    split; [exact Hin|]. split; [exact Hf|].
    destruct (Partitions (client e) topic) as [ps err]. simpl in *.
    now subst err.
Qed.

Lemma show_all_request_witness :
  ConsumerGroup (requestShowAll Cluster.snapshot (mkRequest "g1" 1 []))
  = ConsumerGroup (mkRequest "g1" 1 [])
  /\ forall topic p,
       In (topic, p)
          (partitions (requestShowAll Cluster.snapshot (mkRequest "g1" 1 [])))
       <-> In (topic, p) (partitions (mkRequest "g1" 1 []))
           \/ (In topic ["orders"; "payments"]%string
               /\ walkedPartition Cluster.exporter topic p).
Proof.
  apply (show_all_request Cluster.exporter ["orders"; "payments"]%string
           (fst (runTopics Cluster.exporter ["orders"; "payments"]%string
                   emptySnapshot))).
  vm_compute. reflexivity.
Defined.

(** X13.  In assigned-only mode the offset request of a group is built
    only if the assignment of every member can be read, and it then asks,
    in order, for the partitions the members report and keeps its group;
    when a member's assignment cannot be read no request is built. *)
Theorem assigned_request (members : list GroupMember) (r : OffsetFetchRequest) :
  match requestAssigned members r with
  | Some request =>
      Forall (fun member => failed (snd (GetMemberAssignment member)) = false)
             members
      /\ ConsumerGroup request = ConsumerGroup r
      /\ partitions request
         = partitions r
             ++ flat_map (fun member =>
                            partitionsOf (fst (GetMemberAssignment member)))
                         members
  | None =>
      Exists (fun member => failed (snd (GetMemberAssignment member)) = true)
             members
  end.
Proof.
  revert r. induction members as [|m members IH]; intros r; simpl.
  - split; [constructor|]. split; [reflexivity|]. now rewrite app_nil_r.
  - destruct m as [[assignment err]]. cbn [GetMemberAssignment fst snd].
    destruct (failed err) eqn:Hf.
    + apply Exists_cons_hd. exact Hf.
    + specialize (IH (fold_left addPartitions assignment r)).
      destruct (requestAssigned members (fold_left addPartitions assignment r))
        as [request|].
      * destruct IH as (Hall & Hg & Hp).
        destruct (fold_addPartitions_request assignment r) as (Hg' & _ & Hp').
        split; [constructor; [exact Hf | exact Hall]|].
        split; [now rewrite Hg, Hg'|].
        rewrite Hp, Hp'. now rewrite <- app_assoc.
      * now apply Exists_cons_tl.
Qed.

(** * The topic walk and its goroutines *)

Section Schedule.

Variable e : Exporter.

Lemma runTopics_cons topic queued snap :
  runTopics e (topic :: queued) snap
  = (fst (getTopicMetrics e topic snap)
       ++ fst (runTopics e queued (snd (getTopicMetrics e topic snap))),
     snd (runTopics e queued (snd (getTopicMetrics e topic snap)))).
Proof.
  simpl. destruct (getTopicMetrics e topic snap) as [tr snap1]. simpl.
  now destruct (runTopics e queued snap1) as [tr' snap2].
Qed.

(** The events of one topic do not depend on the snapshot so far. *)
Lemma getTopicMetrics_trace topic snap snap' :
  fst (getTopicMetrics e topic snap) = fst (getTopicMetrics e topic snap').
Proof.
  unfold getTopicMetrics. destruct (topicFilter e topic); simpl; [|reflexivity].
  destruct (Partitions (client e) topic) as [ps err].
  destruct (failed err); [reflexivity|].
  now destruct (partitionsLoop e topic ps ∅) as [tr offs].
Qed.

(** Two topics can be walked in either order. *)
Lemma getTopicMetrics_commute t1 t2 snap :
  snd (getTopicMetrics e t1 (snd (getTopicMetrics e t2 snap)))
  = snd (getTopicMetrics e t2 (snd (getTopicMetrics e t1 snap))).
Proof.
  destruct (decide (t1 = t2)) as [->|Hne]; [reflexivity|].
  unfold getTopicMetrics.
  destruct (Partitions (client e) t1) as [ps1 err1],
           (Partitions (client e) t2) as [ps2 err2].
  destruct (partitionsLoop e t1 ps1 ∅) as [tr1 offs1],
           (partitionsLoop e t2 ps2 ∅) as [tr2 offs2].
  destruct (topicFilter e t1), (topicFilter e t2), (failed err1), (failed err2);
    simpl; try reflexivity.
  f_equal; apply insert_insert_ne; congruence.
Qed.

(** The walk of a queue in another order: the same snapshot, the same
    events up to their order. *)
Lemma runTopics_perm queued queued' :
  queued ≡ₚ queued' ->
  forall snap,
    snd (runTopics e queued snap) = snd (runTopics e queued' snap)
    /\ fst (runTopics e queued snap) ≡ₚ fst (runTopics e queued' snap).
Proof.
  induction 1 as [|t l l' _ IH|t1 t2 l|l1 l2 l3 _ IH1 _ IH2]; intros snap.
  - split; reflexivity.
  - rewrite !runTopics_cons. cbn [fst snd].
    destruct (IH (snd (getTopicMetrics e t snap))) as [Hs Ht].
    split; [exact Hs|]. now rewrite Ht.
  - rewrite !runTopics_cons. cbn [fst snd].
    rewrite (getTopicMetrics_commute t1 t2 snap).
    split; [reflexivity|].
    rewrite (getTopicMetrics_trace t1 (snd (getTopicMetrics e t2 snap)) snap).
    rewrite (getTopicMetrics_trace t2 (snd (getTopicMetrics e t1 snap)) snap).
    rewrite !app_assoc. apply Permutation_app_tail. apply Permutation_app_comm.
  - destruct (IH1 snap) as [Hs1 Ht1], (IH2 snap) as [Hs2 Ht2].
    split; [congruence | now rewrite Ht1].
Qed.

(** A walk that does not block is the walk of the filtered list. *)
Lemma topicPhase_runs topics :
  topicPhase e topics <> None ->
  topicPhase e topics
  = Some (runTopics e (List.filter (topicFilter e) topics) emptySnapshot).
Proof.
  unfold topicPhase.
  destruct (List.filter (topicFilter e) topics) as [|t q]; [reflexivity|].
  now destruct (poolSize e topics <=? 0).
Qed.

(** When the pool hands over, every topic handed out is done. *)
Lemma pool_handed_over topics N s :
  TopicPool.reachable (topicFilter e) (TopicPool.init topics N) s ->
  TopicPool.main s = TopicPool.HandedOver ->
  TopicPool.processed s ≡ₚ List.filter (topicFilter e) topics.
Proof.
  intros Hreach Hmain.
  destruct (pool_inv_reachable (topicFilter e) topics N s Hreach)
    as [_ Hwg _ _ Hh _ Ht].
  specialize (Hh Hmain). rewrite Hh, Hmain in Hwg. simpl in Hwg.
  rewrite Hmain in Ht. simpl in Ht.
  destruct (TopicPool.running (TopicPool.workers s)) as [|t r].
  - simpl in Ht. now rewrite app_nil_r in Ht.
  - unfold len in Hwg. simpl in Hwg. lia.
Qed.

(** The pool size is not positive exactly when fewer than two topics are
    listed or no worker is asked for. *)
Lemma poolSize_nonpositive topics :
  poolSize e topics <= 0 <-> len topics < 2 \/ topicWorkers e <= 0.
Proof.
  unfold poolSize, minx.
  assert (Hq : Z.quot (len topics) 2 <= 0 <-> len topics < 2).
  { pose proof (len_nonneg topics) as Hn.
    rewrite Z.quot_div_nonneg by lia.
    split; intros H.
    - destruct (Z_lt_ge_dec (len topics) 2) as [Hlt|Hge]; [exact Hlt|].
      assert (1 <= len topics / 2) by (apply Z.div_le_lower_bound; lia). lia.
    - rewrite Z.div_small; lia. }
  destruct (Z.ltb_spec (Z.quot (len topics) 2) (topicWorkers e)); lia.
Qed.

End Schedule.

(** X14.  The outcome of the topic walk does not depend on how the
    goroutines are scheduled: in whatever order the workers have finished
    their topics when the main goroutine gets past [wg.Wait()], each topic
    that passes the filter has been processed once, and running
    [getTopicMetrics] in that order builds the snapshot of the sequential
    walk and emits the same events up to their order.  ([getTopicMetrics]
    is one step of a worker, and the cluster answers a call the same way
    whenever it is made.) *)
Theorem walk_independent_of_schedule
    (e : Exporter) (topics : list string) (s : TopicPool.State) :
  TopicPool.reachable (topicFilter e)
    (TopicPool.init topics (poolSize e topics)) s ->
  TopicPool.main s = TopicPool.HandedOver ->
  exists walk snap,
    topicPhase e topics = Some (walk, snap)
    /\ TopicPool.processed s ≡ₚ List.filter (topicFilter e) topics
    /\ snd (runTopics e (TopicPool.processed s) emptySnapshot) = snap
    /\ fst (runTopics e (TopicPool.processed s) emptySnapshot) ≡ₚ walk.
Proof.
  intros Hreach Hmain.
  pose proof (pool_handed_over e topics _ s Hreach Hmain) as Hperm.
  assert (Hret : topicPhase e topics <> None).
  { intros Hnone. apply topicPhase_blocked in Hnone as [HN Hsome].
    destruct (pool_deadlock (topicFilter e) topics _ HN Hsome) as [Hnever _].
    now apply (Hnever s Hreach). }
  destruct (runTopics_perm e _ _ Hperm emptySnapshot) as [Hsnap Htrace].
  exists (fst (runTopics e (List.filter (topicFilter e) topics) emptySnapshot)),
         (snd (runTopics e (List.filter (topicFilter e) topics) emptySnapshot)).
  rewrite (topicPhase_runs e topics Hret), <- surjective_pairing.
  auto.
Qed.

Lemma walk_independent_of_schedule_witness :
  exists walk snap,
    topicPhase Cluster.exporter ["orders"; "payments"]%string = Some (walk, snap)
    /\ ["orders"; "payments"]%string
       ≡ₚ List.filter (topicFilter Cluster.exporter)
            ["orders"; "payments"]%string
    /\ snd (runTopics Cluster.exporter ["orders"; "payments"]%string
              emptySnapshot) = snap
    /\ fst (runTopics Cluster.exporter ["orders"; "payments"]%string
              emptySnapshot) ≡ₚ walk.
Proof.
  apply (walk_independent_of_schedule Cluster.exporter
           ["orders"; "payments"]%string
           (TopicPool.mkState TopicPool.HandedOver [TopicPool.Receiving] true 0
              ["orders"; "payments"]%string)).
  - apply (steps_reachable _ 8). vm_compute.
    eapply TopicPool.steps_S; [now apply TopicPool.step_add|].
    eapply TopicPool.steps_S;
      [now apply (TopicPool.step_rendezvous _ _ _ _ _ _ _ O)|].
    eapply TopicPool.steps_S;
      [now apply (TopicPool.step_done _ _ _ _ _ _ O "orders")|].
    eapply TopicPool.steps_S; [now apply TopicPool.step_add|].
    eapply TopicPool.steps_S;
      [now apply (TopicPool.step_rendezvous _ _ _ _ _ _ _ O)|].
    eapply TopicPool.steps_S;
      [now apply (TopicPool.step_done _ _ _ _ _ _ O "payments")|].
    eapply TopicPool.steps_S; [apply TopicPool.step_close|].
    eapply TopicPool.steps_S; [apply TopicPool.step_wait|].
    apply TopicPool.steps_O.
  - reflexivity.
Defined.

(** X15.  The sequential walk agrees with the goroutines on whether the
    walk ends.  Where [topicPhase] gives a result, on every schedule some
    goroutine can move until the main goroutine is past [wg.Wait()], and
    no execution is longer than three steps per listed topic, one per
    worker and two; where it gives none, no schedule gets the main
    goroutine past [wg.Wait()]. *)
Theorem walk_ends_as_the_pool_does (e : Exporter) (topics : list string) :
  (topicPhase e topics <> None ->
   forall s,
     TopicPool.reachable (topicFilter e)
       (TopicPool.init topics (poolSize e topics)) s ->
     (TopicPool.main s <> TopicPool.HandedOver ->
      exists s', TopicPool.step (topicFilter e) s s')
     /\ (forall n,
           TopicPool.steps (topicFilter e) n
             (TopicPool.init topics (poolSize e topics)) s ->
           (n <= 3 * length topics + 2 + Z.to_nat (poolSize e topics))%nat))
  /\ (topicPhase e topics = None ->
      forall s,
        TopicPool.reachable (topicFilter e)
          (TopicPool.init topics (poolSize e topics)) s ->
        TopicPool.main s <> TopicPool.HandedOver).
Proof.
  split.
  - intros Hret s Hreach.
    assert (Hpool : 1 <= poolSize e topics
                    \/ List.filter (topicFilter e) topics = []).
    { destruct (List.filter (topicFilter e) topics) as [|t q] eqn:Hf;
        [now right | left].
      destruct (Z_le_gt_dec (poolSize e topics) 0) as [Hle|Hgt]; [|lia].
      exfalso. apply Hret. apply topicPhase_blocked.
      split; [exact Hle | now rewrite Hf]. }
    split.
    + apply (pool_progress (topicFilter e) topics _ s Hpool).
      now apply pool_inv_reachable.
    + intros n Hsteps. now apply (pool_bounded (topicFilter e) topics _ n s).
  - intros Hnone. apply topicPhase_blocked in Hnone as [HN Hsome].
    now destruct (pool_deadlock (topicFilter e) topics _ HN Hsome).
Qed.

Lemma walk_ends_as_the_pool_does_witness :
  (TopicPool.main
     (TopicPool.init ["orders"; "payments"]%string
        (poolSize Cluster.exporter ["orders"; "payments"]%string))
   <> TopicPool.HandedOver ->
   exists s',
     TopicPool.step (topicFilter Cluster.exporter)
       (TopicPool.init ["orders"; "payments"]%string
          (poolSize Cluster.exporter ["orders"; "payments"]%string)) s')
  /\ (forall n,
        TopicPool.steps (topicFilter Cluster.exporter) n
          (TopicPool.init ["orders"; "payments"]%string
             (poolSize Cluster.exporter ["orders"; "payments"]%string))
          (TopicPool.init ["orders"; "payments"]%string
             (poolSize Cluster.exporter ["orders"; "payments"]%string)) ->
        (n <= 3 * length ["orders"; "payments"]%string + 2
              + Z.to_nat (poolSize Cluster.exporter
                            ["orders"; "payments"]%string))%nat).
Proof.
  apply (proj1 (walk_ends_as_the_pool_does Cluster.exporter
                  ["orders"; "payments"]%string)).
  - discriminate.
  - apply TopicPool.reach_refl.
Defined.

(** X16.  A cycle stays blocked in the send of line 526 exactly when the
    topic list is fetched, some listed topic passes the filter, and fewer
    than two topics are listed or no worker is asked for; in every other
    case [collect] returns. *)
Theorem collect_blocks_iff (e : Exporter) (clk : Clock) (G : Globals) :
  returned (collect e clk G) = false
  <-> snd (Topics (client e)) = None
      /\ (exists topic,
            In topic (fst (Topics (client e))) /\ topicFilter e topic = true)
      /\ (len (fst (Topics (client e))) < 2 \/ topicWorkers e <= 0).
Proof.
  assert (Hsome : forall topics,
            List.filter (topicFilter e) topics <> []
            <-> exists topic, In topic topics /\ topicFilter e topic = true).
  { intros topics. split.
    - destruct (List.filter (topicFilter e) topics) as [|t q] eqn:Hf;
        [now intros H|]. intros _. exists t. apply filter_In.
      rewrite Hf. now left.
    - intros (t & Hin & Hf) Hnil.
      assert (Ht : In t (List.filter (topicFilter e) topics))
        by now apply filter_In.
      now rewrite Hnil in Ht. }
  unfold collect. destruct (refreshMetadata e clk G) as [refresh G1].
  destruct (Topics (client e)) as [topics err]. simpl.
  destruct err as [err|]; simpl.
  - split; [discriminate | now intros [H _]].
  - rewrite <- Hsome, <- poolSize_nonpositive.
    destruct (topicPhase e topics) as [[walk snap]|] eqn:Hphase.
    + destruct (groupPhase e snap clk G1) as [scan G2]. simpl.
      split; [discriminate|]. intros (_ & Hf & HN).
      assert (Hnone : topicPhase e topics = None)
        by (apply topicPhase_blocked; now split).
      congruence.
    + simpl. apply topicPhase_blocked in Hphase as [HN Hf].
      split; [now intros _ | reflexivity].
Qed.

(** * The state between cycles *)

Section GroupScanInvariant.

(** A property of the state that storing a baseline keeps is kept by the
    whole group scan. *)

Variable e : Exporter.
Variable P : Globals -> Prop.
Hypothesis P_storeBaseline :
  forall G group topic v, P G -> P (storeBaseline G group topic v).

Lemma reportTopic_keeps broker group topic bs timeDiff G :
  P G -> P (snd (reportTopic e broker group topic bs timeDiff G)).
Proof.
  intros HG. unfold reportTopic.
  destruct (partitionLags e broker group topic bs 0 0) as [[tr cs] ls].
  destruct (consumeRateTime G group topic cs timeDiff) as [rate time].
  simpl. now apply P_storeBaseline.
Qed.

Lemma blocksLoop_keeps broker group blocks timeDiff G :
  P G -> P (snd (blocksLoop e broker group blocks timeDiff G)).
Proof.
  revert G. induction blocks as [|[topic bs] blocks IH]; intros G HG; simpl;
    [exact HG|].
  destruct (topicConsumed bs); [|now apply IH].
  pose proof (reportTopic_keeps broker group topic bs timeDiff G HG) as H1.
  destruct (reportTopic e broker group topic bs timeDiff G) as [tr G1].
  specialize (IH G1 H1).
  now destruct (blocksLoop e broker group blocks timeDiff G1) as [tr' G2].
Qed.

Lemma groupsLoop_keeps snap broker groups timeDiff G :
  P G -> P (snd (groupsLoop e snap broker groups timeDiff G)).
Proof.
  revert G. induction groups as [|group groups IH]; intros G HG; simpl;
    [exact HG|].
  destruct (if offsetShowAll e then _ else _) as [request|]; [|exact HG].
  destruct (FetchOffset (client e) broker request) as [blocks err].
  destruct (failed err).
  - specialize (IH G HG).
    now destruct (groupsLoop e snap broker groups timeDiff G) as [tr G1].
  - pose proof (blocksLoop_keeps broker (GroupId group) blocks timeDiff G HG)
      as H1.
    destruct (blocksLoop e broker (GroupId group) blocks timeDiff G)
      as [tr G1].
    specialize (IH G1 H1).
    now destruct (groupsLoop e snap broker groups timeDiff G1) as [tr' G2].
Qed.

Lemma getConsumerGroupMetrics_keeps snap clk broker G :
  P G -> P (snd (getConsumerGroupMetrics e snap clk broker G)).
Proof.
  intros HG. unfold getConsumerGroupMetrics.
  destruct (ListGroups (client e) broker) as [groups err].
  destruct (DescribeGroups (client e) broker _) as [described err'].
  pose proof (groupsLoop_keeps snap broker described
                (timeDiffAt clk broker G) G HG) as Hloop.
  destruct (Open (client e) broker) as [[|msg]|];
    destruct (failed err), (failed err'); simpl; assumption.
Qed.

Lemma brokersLoop_keeps snap clk brokers G :
  P G -> P (snd (brokersLoop e snap clk brokers G)).
Proof.
  revert G. induction brokers as [|b brokers IH]; intros G HG; simpl;
    [exact HG|].
  pose proof (getConsumerGroupMetrics_keeps snap clk b G HG) as H1.
  destruct (getConsumerGroupMetrics e snap clk b G) as [tr G1].
  specialize (IH G1 H1).
  now destruct (brokersLoop e snap clk brokers G1) as [tr' G2].
Qed.

Lemma groupPhase_keeps snap clk G :
  P G -> P (snd (groupPhase e snap clk G)).
Proof.
  intros HG. unfold groupPhase. destruct (0 <? _); [|exact HG].
  now apply brokersLoop_keeps.
Qed.

End GroupScanInvariant.

(** The group scan touches neither the clock fields nor the reference
    [topicOffset]. *)
Lemma groupPhase_frame e snap clk G :
  let G' := snd (groupPhase e snap clk G) in
  topicOffset G' = topicOffset G
  /\ lastScrape G' = lastScrape G
  /\ start G' = start G
  /\ nextMetadataRefresh G' = nextMetadataRefresh G.
Proof.
  apply (groupPhase_keeps e
           (fun G' => topicOffset G' = topicOffset G
                      /\ lastScrape G' = lastScrape G
                      /\ start G' = start G
                      /\ nextMetadataRefresh G' = nextMetadataRefresh G)).
  - intros G1 group topic v H. exact H.
  - repeat split.
Qed.

(** X17.  What a cycle does to the state that outlives it.  The reference
    [topicOffset] never changes, and the next metadata refresh moves to
    [now + interval] exactly when it was due.  A cycle that gets to its
    last two lines clears [start] and stamps [lastScrape]; a cycle that
    stops at the topic list, or stays blocked in the walk, leaves [start],
    [lastScrape] and every baseline as they were, so that the cycle after
    it still counts as the first one if this one did. *)
Theorem cycle_state (e : Exporter) (clk : Clock) (G : Globals) :
  let G' := globalsOf (collect e clk G) in
  topicOffset G' = topicOffset G
  /\ nextMetadataRefresh G'
     = (if nextMetadataRefresh G <? now clk
        then now clk + metadataRefreshInterval e
        else nextMetadataRefresh G)
  /\ (completes e = true ->
      returned (collect e clk G) = true
      /\ start G' = false /\ lastScrape G' = unixAtEnd clk)
  /\ (completes e = false ->
      start G' = start G /\ lastScrape G' = lastScrape G
      /\ store G' = store G /\ lastOffset G' = lastOffset G).
Proof.
  unfold completes, collect, refreshMetadata.
  destruct (Topics (client e)) as [topics err]. cbn [fst snd].
  set (G1 := if nextMetadataRefresh G <? now clk then _ else _).
  assert (HG1 : topicOffset (snd G1) = topicOffset G
                /\ lastScrape (snd G1) = lastScrape G
                /\ start (snd G1) = start G
                /\ store (snd G1) = store G
                /\ lastOffset (snd G1) = lastOffset G
                /\ nextMetadataRefresh (snd G1)
                   = (if nextMetadataRefresh G <? now clk
                      then now clk + metadataRefreshInterval e
                      else nextMetadataRefresh G)).
  { subst G1. now destruct (nextMetadataRefresh G <? now clk). }
  destruct G1 as [refresh G1]. cbn [snd] in HG1.
  destruct HG1 as (Hto & Hls & Hst & Hsto & Hlo & Hnext).
  destruct (failed err); cbn [negb andb globalsOf].
  - repeat split; try assumption; discriminate.
  - destruct (topicPhase e topics) as [[walk snap]|].
    + pose proof (groupPhase_frame e snap clk G1) as Hframe.
      destruct (groupPhase e snap clk G1) as [scan G2].
      cbn [snd globalsOf returned endOfCycle topicOffset nextMetadataRefresh
           start lastScrape] in *.
      destruct Hframe as (Hto2 & _ & _ & Hnext2).
      repeat split; try congruence; discriminate.
    + cbn [globalsOf]. repeat split; try assumption; discriminate.
Qed.

Lemma cycle_state_witness :
  returned (collect Cluster.exporter Cluster.firstClock (initGlobals 0)) = true
  /\ start (globalsOf (collect Cluster.exporter Cluster.firstClock
                         (initGlobals 0))) = false
  /\ lastScrape (globalsOf (collect Cluster.exporter Cluster.firstClock
                              (initGlobals 0)))
     = unixAtEnd Cluster.firstClock.
Proof.
  apply (proj1 (proj2 (proj2 (cycle_state Cluster.exporter Cluster.firstClock
                                (initGlobals 0))))).
  reflexivity.
Defined.

(** X18.  Over any number of cycles, whatever the cluster answers, the
    baselines are never kept per group: two groups that have an entry in
    [lastOffset] read the same baseline for every topic. *)
Theorem baselines_never_per_group
    (e : Exporter) (G : Globals) (g1 g2 : string) :
  afterCycles e G ->
  is_Some (lastOffset G !! g1) ->
  is_Some (lastOffset G !! g2) ->
  forall topic, readLastOffset G g1 topic = readLastOffset G g2 topic.
Proof.
  intros Hcycles [l1 H1] [l2 H2] topic.
  assert (HG : allAliased G).
  { clear H1 H2. induction Hcycles as [r|G clk tr G' _ IH Hret].
    - apply allAliased_init.
    - pose proof (collect_allAliased e clk G IH) as H.
      now rewrite Hret in H. }
  unfold readLastOffset.
  now rewrite H1, H2, (HG g1 l1 H1), (HG g2 l2 H2).
Qed.

Lemma baselines_never_per_group_witness :
  readLastOffset Cluster.afterFirstCycle "g1" "orders"
  = readLastOffset Cluster.afterFirstCycle "g2" "orders".
Proof.
  apply (baselines_never_per_group Cluster.exporter).
  - apply (cycles_next Cluster.exporter (initGlobals 0) Cluster.firstClock
             (traceOf (collect Cluster.exporter Cluster.firstClock
                         (initGlobals 0)))).
    + apply cycles_start.
    + reflexivity.
  - vm_compute. eexists. reflexivity.
  - vm_compute. eexists. reflexivity.
Defined.

(** * The sums of a reported topic *)

Lemma wrap_add_l a b : Int64.wrap (Int64.wrap a + b) = Int64.wrap (a + b).
Proof.
  unfold Int64.wrap.
  replace ((a + Int64.half) mod Int64.modulus - Int64.half + b + Int64.half)
    with ((a + Int64.half) mod Int64.modulus + b) by lia.
  rewrite Zplus_mod_idemp_l. f_equal. f_equal. lia.
Qed.

Lemma wrap_add_r a b : Int64.wrap (a + Int64.wrap b) = Int64.wrap (a + b).
Proof. now rewrite Z.add_comm, wrap_add_l, Z.add_comm. Qed.

Lemma wrap_wrap a : Int64.wrap (Int64.wrap a) = Int64.wrap a.
Proof. apply wrap_exact, wrap_in_range. Qed.

Lemma sumZ_cons x l : sumZ (x :: l) = x + sumZ l.
Proof. reflexivity. Qed.

Lemma sumZ_perm l l' : l ≡ₚ l' -> sumZ l = sumZ l'.
Proof.
  induction 1 as [|x l l' _ IH|x y l|l1 l2 l3 _ IH1 _ IH2];
    rewrite ?sumZ_cons; lia.
Qed.

Section Sums.

Variables (e : Exporter) (broker : Z) (group topic : string).

(** What one block adds to the two sums. *)
Lemma partitionLag_sums p blk cs ls :
  snd (fst (partitionLag e broker group topic p blk cs ls))
  = (if counted (p, blk) then Int64.add cs (Offset blk) else cs)
  /\ snd (partitionLag e broker group topic p blk cs ls)
     = (if counted (p, blk)
        then Int64.add ls
               (Int64.sub (fst (GetOffset (client e) (GroupScan broker group)
                                  topic p OffsetNewest))
                          (Offset blk))
        else ls).
Proof.
  unfold partitionLag, counted. cbn [fst snd].
  destruct (Err blk =? ErrNoError); cbn [negb andb]; [|now split].
  destruct (GetOffset (client e) (GroupScan broker group) topic p OffsetNewest)
    as [latest err].
  now destruct (Offset blk =? -1).
Qed.

(** The events of one block do not depend on the sums so far. *)
Lemma partitionLag_trace p blk cs ls :
  fst (fst (partitionLag e broker group topic p blk cs ls))
  = fst (fst (partitionLag e broker group topic p blk 0 0)).
Proof.
  unfold partitionLag.
  destruct (negb (Err blk =? ErrNoError)); [reflexivity|].
  destruct (GetOffset (client e) (GroupScan broker group) topic p OffsetNewest)
    as [latest err].
  now destruct (Offset blk =? -1).
Qed.

Lemma partitionLags_cons p blk bs cs ls :
  partitionLags e broker group topic ((p, blk) :: bs) cs ls
  = let one := partitionLag e broker group topic p blk cs ls in
    let rest := partitionLags e broker group topic bs (snd (fst one)) (snd one) in
    (fst (fst one) ++ fst (fst rest), snd (fst rest), snd rest).
Proof.
  cbn [partitionLags].
  destruct (partitionLag e broker group topic p blk cs ls) as [[tr cs1] ls1].
  cbn [fst snd].
  now destruct (partitionLags e broker group topic bs cs1 ls1) as [[tr' cs2] ls2].
Qed.

(** From sums that are [int64] values, the loop leaves the [int64]
    reduction of the exact totals. *)
Lemma partitionLags_totals bs cs ls :
  Int64.wrap cs = cs -> Int64.wrap ls = ls ->
  snd (fst (partitionLags e broker group topic bs cs ls))
  = Int64.wrap (cs + committedTotal bs)
  /\ snd (partitionLags e broker group topic bs cs ls)
     = Int64.wrap (ls + lagTotal e broker group topic bs).
Proof.
  revert cs ls. induction bs as [|[p blk] bs IH]; intros cs ls Hcs Hls.
  - unfold committedTotal, lagTotal. simpl. rewrite !Z.add_0_r. now split.
  - rewrite partitionLags_cons. cbn [fst snd].
    destruct (partitionLag_sums p blk cs ls) as [Hc Hl]. rewrite Hc, Hl.
    unfold committedTotal, lagTotal. cbn [List.filter].
    destruct (counted (p, blk)); cbn [map fst snd]; rewrite ?sumZ_cons.
    + destruct (IH (Int64.add cs (Offset blk))
                  (Int64.add ls
                     (Int64.sub
                        (fst (GetOffset (client e) (GroupScan broker group)
                                topic p OffsetNewest))
                        (Offset blk))))
        as [IHc IHl]; try apply wrap_wrap.
      rewrite IHc, IHl. unfold committedTotal, lagTotal, Int64.add, Int64.sub.
      rewrite !wrap_add_l. split; [f_equal; lia|].
      match goal with
      | |- Int64.wrap (ls + Int64.wrap ?x + ?T) = _ =>
          replace (ls + Int64.wrap x + T) with (ls + T + Int64.wrap x) by lia
      end.
      rewrite wrap_add_r. f_equal. lia.
    + now apply IH.
Qed.

(** The events of the loop, block by block. *)
Lemma partitionLags_trace bs cs ls :
  fst (fst (partitionLags e broker group topic bs cs ls))
  = flat_map (fun pb =>
                fst (fst (partitionLag e broker group topic (fst pb) (snd pb)
                            0 0)))
             bs.
Proof.
  revert cs ls. induction bs as [|[p blk] bs IH]; intros cs ls;
    [reflexivity|].
  rewrite partitionLags_cons. cbn [fst snd flat_map].
  now rewrite IH, (partitionLag_trace p blk cs ls).
Qed.

Lemma topicConsumed_perm bs bs' :
  bs ≡ₚ bs' -> topicConsumed bs = topicConsumed bs'.
Proof.
  intros Hperm. unfold topicConsumed.
  apply eq_true_iff_eq. rewrite !existsb_exists.
  split; intros (pb & Hin & Hpb); exists pb; (split; [|exact Hpb]).
  - eapply Permutation_in; [exact Hperm | exact Hin].
  - eapply Permutation_in; [symmetry; exact Hperm | exact Hin].
Qed.

Lemma totals_perm bs bs' :
  bs ≡ₚ bs' ->
  committedTotal bs = committedTotal bs'
  /\ lagTotal e broker group topic bs = lagTotal e broker group topic bs'.
Proof.
  intros Hperm. unfold committedTotal, lagTotal.
  assert (Hf : List.filter counted bs ≡ₚ List.filter counted bs').
  { clear -Hperm.
    induction Hperm as [|x l l' _ IH|x y l|l1 l2 l3 _ IH1 _ IH2]; simpl.
    - reflexivity.
    - destruct (counted x); [now constructor | exact IH].
    - destruct (counted x), (counted y); try reflexivity. apply perm_swap.
    - now rewrite IH1. }
  split; apply sumZ_perm, Permutation_map, Hf.
Qed.

End Sums.

(** The two sums are [int64] values. *)
Lemma sums_totals_in_range e broker group topic bs :
  Int64.in_range (currentOffsetSumOf e broker group topic bs)
  /\ Int64.in_range (lagSumOf e broker group topic bs).
Proof.
  unfold currentOffsetSumOf, lagSumOf.
  destruct (partitionLags_totals e broker group topic bs 0 0 eq_refl eq_refl)
    as [-> ->].
  split; apply wrap_in_range.
Qed.

(** X19.  The two sums of a reported topic are the [int64] reductions of
    the exact totals over the partition blocks that have no error code and
    a committed offset: the sum of the committed offsets, and the sum of
    the distances from the committed offset to the latest offset fetched
    during the group scan.  Blocks with an error code or without a commit
    add nothing. *)
Theorem sums_are_reduced_totals
    (e : Exporter) (broker : Z) (group topic : string)
    (bs : list (Z * OffsetFetchResponseBlock)) :
  currentOffsetSumOf e broker group topic bs = Int64.wrap (committedTotal bs)
  /\ lagSumOf e broker group topic bs
     = Int64.wrap (lagTotal e broker group topic bs).
Proof.
  unfold currentOffsetSumOf, lagSumOf.
  now apply (partitionLags_totals e broker group topic bs 0 0).
Qed.

(** X20.  Go visits the partition blocks of a topic in no fixed order;
    the report of the topic does not depend on it.  For two orders of the
    same blocks the topic is skipped or reported alike, the state left is
    the same, the two aggregate samples are the same, and the events are
    the same up to their order. *)
Theorem partition_order_irrelevant
    (e : Exporter) (broker : Z) (group topic : string)
    (bs bs' : list (Z * OffsetFetchResponseBlock)) (timeDiff : Z) (G : Globals) :
  bs ≡ₚ bs' ->
  topicConsumed bs = topicConsumed bs'
  /\ currentOffsetSumOf e broker group topic bs
     = currentOffsetSumOf e broker group topic bs'
  /\ lagSumOf e broker group topic bs = lagSumOf e broker group topic bs'
  /\ snd (reportTopic e broker group topic bs timeDiff G)
     = snd (reportTopic e broker group topic bs' timeDiff G)
  /\ fst (reportTopic e broker group topic bs timeDiff G)
     ≡ₚ fst (reportTopic e broker group topic bs' timeDiff G).
Proof.
  intros Hperm.
  destruct (totals_perm e broker group topic bs bs' Hperm) as [Hc Hl].
  destruct (partitionLags_totals e broker group topic bs 0 0 eq_refl eq_refl)
    as [Hcs Hls].
  destruct (partitionLags_totals e broker group topic bs' 0 0 eq_refl eq_refl)
    as [Hcs' Hls'].
  rewrite Hc in Hcs. rewrite Hl in Hls. rewrite <- Hcs' in Hcs.
  rewrite <- Hls' in Hls.
  pose proof (partitionLags_trace e broker group topic bs 0 0) as Ht.
  pose proof (partitionLags_trace e broker group topic bs' 0 0) as Ht'.
  split; [now apply topicConsumed_perm|].
  unfold currentOffsetSumOf, lagSumOf, reportTopic.
  destruct (partitionLags e broker group topic bs 0 0) as [[tr cs] ls].
  destruct (partitionLags e broker group topic bs' 0 0) as [[tr' cs'] ls'].
  cbn [fst snd] in *. subst cs' ls'.
  destruct (consumeRateTime G group topic cs timeDiff) as [rate time].
  cbn [fst snd]. repeat split.
  apply Permutation_app_tail. rewrite Ht, Ht'.
  now apply Permutation_flat_map.
Qed.

Lemma partition_order_irrelevant_witness :
  topicConsumed Cluster.ordersOfG1 = topicConsumed (rev Cluster.ordersOfG1)
  /\ currentOffsetSumOf Cluster.exporter 1 "g1" "orders" Cluster.ordersOfG1
     = currentOffsetSumOf Cluster.exporter 1 "g1" "orders"
         (rev Cluster.ordersOfG1)
  /\ lagSumOf Cluster.exporter 1 "g1" "orders" Cluster.ordersOfG1
     = lagSumOf Cluster.exporter 1 "g1" "orders" (rev Cluster.ordersOfG1)
  /\ snd (reportTopic Cluster.exporter 1 "g1" "orders" Cluster.ordersOfG1 60
            Cluster.afterFirstCycle)
     = snd (reportTopic Cluster.exporter 1 "g1" "orders"
              (rev Cluster.ordersOfG1) 60 Cluster.afterFirstCycle)
  /\ fst (reportTopic Cluster.exporter 1 "g1" "orders" Cluster.ordersOfG1 60
            Cluster.afterFirstCycle)
     ≡ₚ fst (reportTopic Cluster.exporter 1 "g1" "orders"
               (rev Cluster.ordersOfG1) 60 Cluster.afterFirstCycle).
Proof.
  apply (partition_order_irrelevant Cluster.exporter 1 "g1" "orders"
           Cluster.ordersOfG1 (rev Cluster.ordersOfG1) 60
           Cluster.afterFirstCycle).
  simpl. apply perm_swap.
Defined.

(** X21.  The baseline round trip.  Once a topic of a group is reported,
    the baseline read for that group and topic is the sum just reported.
    If the topic is reported again from that state, on a cycle that is not
    the first, with a sum that is not negative and has not grown, the rate
    sample carries the rate 0 and the drain time -1. *)
Theorem no_progress_gives_rate_zero
    (e : Exporter) (broker broker' : Z) (group topic : string)
    (bs bs' : list (Z * OffsetFetchResponseBlock)) (timeDiff timeDiff' : Z)
    (G : Globals) :
  start G = false ->
  0 <= currentOffsetSumOf e broker' group topic bs'
    <= currentOffsetSumOf e broker group topic bs ->
  let G1 := snd (reportTopic e broker group topic bs timeDiff G) in
  readLastOffset G1 group topic = currentOffsetSumOf e broker group topic bs
  /\ In (Emit (mkMetric consumergroupLagSumRate
                 (lagSumOf e broker' group topic bs')
                 [LStr group; LStr topic; LFloat 0; LFloat (-1);
                  LInt timeDiff']))
        (fst (reportTopic e broker' group topic bs' timeDiff' G1)).
Proof.
  intros Hstart Hsums G1.
  assert (Hread : readLastOffset G1 group topic
                  = currentOffsetSumOf e broker group topic bs).
  { subst G1. unfold reportTopic, currentOffsetSumOf.
    destruct (partitionLags e broker group topic bs 0 0) as [[tr cs] ls].
    destruct (consumeRateTime G group topic cs timeDiff) as [rate time].
    cbn [fst snd]. apply readLastOffset_storeBaseline. }
  assert (Hstart1 : start G1 = false).
  { subst G1. unfold reportTopic.
    destruct (partitionLags e broker group topic bs 0 0) as [[tr cs] ls].
    destruct (consumeRateTime G group topic cs timeDiff) as [rate time].
    exact Hstart. }
  split; [exact Hread|].
  destruct (sums_totals_in_range e broker group topic bs) as [Hin _].
  unfold reportTopic, lagSumOf.
  unfold currentOffsetSumOf in Hsums at 1 2.
  destruct (partitionLags e broker' group topic bs' 0 0) as [[tr' cs'] ls'].
  cbn [fst snd] in *.
  rewrite (consumeRateTime_no_progress G1 group topic cs' timeDiff' Hstart1).
  - apply in_or_app. right. now left.
  - rewrite Hread. rewrite sub_exact.
    + lia.
    + unfold Int64.in_range, Int64.half in *. lia.
Qed.

Lemma no_progress_gives_rate_zero_witness :
  let G1 := snd (reportTopic Cluster.exporter 1 "g1" "orders"
                   Cluster.ordersOfG1 60 Cluster.afterFirstCycle) in
  readLastOffset G1 "g1" "orders"
  = currentOffsetSumOf Cluster.exporter 1 "g1" "orders" Cluster.ordersOfG1
  /\ In (Emit (mkMetric consumergroupLagSumRate
                 (lagSumOf Cluster.exporter 1 "g1" "orders" Cluster.ordersOfG1)
                 [LStr "g1"; LStr "orders"; LFloat 0; LFloat (-1); LInt 60]))
        (fst (reportTopic Cluster.exporter 1 "g1" "orders" Cluster.ordersOfG1
                60 G1)).
Proof.
  apply (no_progress_gives_rate_zero Cluster.exporter 1 1 "g1" "orders"
           Cluster.ordersOfG1 Cluster.ordersOfG1 60 60 Cluster.afterFirstCycle).
  - reflexivity.
  - vm_compute. split; discriminate.
Defined.

(** * The samples of the consumer group scan *)

Section Scan.

Variable e : Exporter.

Lemma zookeeperLag_walkShape topic p currentOffset :
  Forall walkShape (zookeeperLag e topic p currentOffset).
Proof.
  unfold zookeeperLag. destruct (useZooKeeperLag e); [|constructor].
  destruct (Consumergroups (client e)) as [groups err].
  apply Forall_app_2.
  - destruct (failed err); split_trace; exact I.
  - induction groups as [|g groups IH]; simpl; [constructor|].
    apply Forall_app_2; [|exact IH].
    destruct (0 <? _); split_trace. reflexivity.
Qed.

Lemma partitionFacts_walkShape topic p offs :
  Forall walkShape (fst (partitionFacts e topic p offs)).
Proof.
  unfold partitionFacts.
  pose proof (zookeeperLag_walkShape topic p) as Hzk.
  destruct (Leader (client e) topic p);
    destruct (GetOffset (client e) TopicWalk topic p OffsetNewest) as [v1 e1];
    destruct (GetOffset (client e) TopicWalk topic p OffsetOldest) as [v2 e2];
    destruct (Replicas (client e) topic p) as [r e3];
    destruct (InSyncReplicas (client e) topic p) as [i e4];
    destruct (failed e1), (failed e2), (failed e3), (failed e4); simpl;
    split_trace; try exact I; try reflexivity; now apply Hzk.
Qed.

Lemma partitionsLoop_walkShape topic ps offs :
  Forall walkShape (fst (partitionsLoop e topic ps offs)).
Proof.
  revert offs. induction ps as [|p ps IH]; intros offs; simpl; [constructor|].
  pose proof (partitionFacts_walkShape topic p offs) as Hp.
  destruct (partitionFacts e topic p offs) as [tr offs1].
  specialize (IH offs1).
  destruct (partitionsLoop e topic ps offs1) as [tr' offs2]. simpl in *.
  now apply Forall_app_2.
Qed.

Lemma runTopics_walkShape queued snap :
  Forall walkShape (fst (runTopics e queued snap)).
Proof.
  revert snap. induction queued as [|t queued IH]; intros snap; simpl;
    [constructor|].
  assert (Ht : Forall walkShape (fst (getTopicMetrics e t snap))).
  { unfold getTopicMetrics. destruct (topicFilter e t); simpl; [|constructor].
    destruct (Partitions (client e) t) as [ps err].
    destruct (failed err); [split_trace; exact I|].
    pose proof (partitionsLoop_walkShape t ps ∅) as Hloop.
    destruct (partitionsLoop e t ps ∅) as [tr offs]. simpl in *.
    constructor; [reflexivity | exact Hloop]. }
  destruct (getTopicMetrics e t snap) as [tr snap1].
  specialize (IH snap1).
  destruct (runTopics e queued snap1) as [tr' snap2]. simpl in *.
  now apply Forall_app_2.
Qed.

Lemma topicPhase_walkShape topics walk snap :
  topicPhase e topics = Some (walk, snap) -> Forall walkShape walk.
Proof.
  unfold topicPhase. destruct (List.filter (topicFilter e) topics) as [|t q].
  - intros [= <- <-]. constructor.
  - destruct (poolSize e topics <=? 0); [discriminate|]. intros Heq.
    assert (Hr : runTopics e (t :: q) emptySnapshot = (walk, snap))
      by congruence.
    pose proof (runTopics_walkShape (t :: q) emptySnapshot) as H.
    now rewrite Hr in H.
Qed.

Lemma scanned_more group groups timeDiff ev :
  scanned groups timeDiff ev -> scanned (group :: groups) timeDiff ev.
Proof.
  destruct ev as [m|l]; [|easy]. intros (g & Hin & Hm).
  exists g. split; [now right | exact Hm].
Qed.

Lemma partitionLags_scanned broker group topic bs cs ls timeDiff :
  Forall (scanned [group] timeDiff)
    (fst (fst (partitionLags e broker (GroupId group) topic bs cs ls))).
Proof.
  revert cs ls. induction bs as [|[p blk] bs IH]; intros cs ls; simpl;
    [constructor|].
  assert (Hp : Forall (scanned [group] timeDiff)
                 (fst (fst (partitionLag e broker (GroupId group) topic p blk
                              cs ls)))).
  { unfold partitionLag. destruct (negb (Err blk =? ErrNoError)); simpl;
      [split_trace; exact I|].
    destruct (GetOffset (client e) (GroupScan broker (GroupId group)) topic p
                OffsetNewest) as [v err].
    destruct (failed err), (Offset blk =? -1); simpl; split_trace;
      try exact I; exists group; (split; [now left|]); now exists topic, p. }
  destruct (partitionLag e broker (GroupId group) topic p blk cs ls)
    as [[tr cs1] ls1].
  specialize (IH cs1 ls1).
  destruct (partitionLags e broker (GroupId group) topic bs cs1 ls1)
    as [[tr' cs2] ls2].
  simpl in *. now apply Forall_app_2.
Qed.

Lemma blocksLoop_scanned broker group blocks timeDiff G :
  Forall (scanned [group] timeDiff)
    (fst (blocksLoop e broker (GroupId group) blocks timeDiff G)).
Proof.
  revert G. induction blocks as [|[topic bs] blocks IH]; intros G; simpl;
    [constructor|].
  destruct (topicConsumed bs); [|apply IH].
  assert (Ht : Forall (scanned [group] timeDiff)
                 (fst (reportTopic e broker (GroupId group) topic bs timeDiff
                         G))).
  { unfold reportTopic.
    pose proof (partitionLags_scanned broker group topic bs 0 0 timeDiff) as Hp.
    destruct (partitionLags e broker (GroupId group) topic bs 0 0)
      as [[tr cs] ls].
    destruct (consumeRateTime G (GroupId group) topic cs timeDiff)
      as [rate time].
    simpl in *. apply Forall_app_2; [exact Hp|].
    split_trace; exists group; (split; [now left|]).
    - now exists topic, rate, time.
    - now exists topic. }
  destruct (reportTopic e broker (GroupId group) topic bs timeDiff G)
    as [tr G1].
  specialize (IH G1).
  destruct (blocksLoop e broker (GroupId group) blocks timeDiff G1)
    as [tr' G2].
  simpl in *. now apply Forall_app_2.
Qed.

Lemma scanned_one group groups timeDiff tr :
  Forall (scanned [group] timeDiff) tr ->
  Forall (scanned (group :: groups) timeDiff) tr.
Proof.
  intros H. eapply Forall_impl; [exact H|].
  intros [m|l]; [|easy]. intros (g & [->|[]] & Hm).
  exists g. split; [now left | exact Hm].
Qed.

Lemma groupsLoop_scanned snap broker groups timeDiff G :
  Forall (scanned groups timeDiff)
    (fst (groupsLoop e snap broker groups timeDiff G)).
Proof.
  revert G. induction groups as [|group groups IH]; intros G; simpl;
    [constructor|].
  assert (Hm : scanned (group :: groups) timeDiff
                 (Emit (mkMetric consumergroupMembers (len (Members group))
                                 [LStr (GroupId group)]))).
  { exists group. split; [now left | now split]. }
  assert (Hrest : forall tr, Forall (scanned groups timeDiff) tr ->
                             Forall (scanned (group :: groups) timeDiff) tr).
  { intros tr H. eapply Forall_impl; [exact H|]. intros ev.
    apply scanned_more. }
  destruct (if offsetShowAll e then _ else _) as [request|];
    [|split_trace; exact I].
  destruct (FetchOffset (client e) broker request) as [blocks err].
  destruct (failed err).
  - specialize (IH G).
    destruct (groupsLoop e snap broker groups timeDiff G) as [tr G1].
    simpl in *. split_trace; [exact Hm | exact I | now apply Hrest].
  - pose proof (blocksLoop_scanned broker group blocks timeDiff G) as Hb.
    destruct (blocksLoop e broker (GroupId group) blocks timeDiff G) as [tr G1].
    specialize (IH G1).
    destruct (groupsLoop e snap broker groups timeDiff G1) as [tr' G2].
    simpl in *.
    split_trace; [exact Hm | now apply scanned_one | now apply Hrest].
Qed.

Lemma getConsumerGroupMetrics_scanned snap clk broker G :
  Forall (scanned (describedGroups e broker) (timeDiffAt clk broker G))
    (fst (getConsumerGroupMetrics e snap clk broker G)).
Proof.
  unfold getConsumerGroupMetrics, describedGroups.
  destruct (ListGroups (client e) broker) as [groups err].
  cbn [fst].
  pose proof (groupsLoop_scanned snap broker
                (fst (DescribeGroups (client e) broker
                        (List.filter (groupFilter e) groups)))
                (timeDiffAt clk broker G) G) as Hloop.
  destruct (DescribeGroups (client e) broker _) as [described err'].
  destruct (Open (client e) broker) as [[|msg]|];
    destruct (failed err), (failed err'); simpl;
    first [exact Hloop | split_trace; exact I].
Qed.

Lemma timeDiffAt_clock clk broker G G' :
  start G' = start G -> lastScrape G' = lastScrape G ->
  timeDiffAt clk broker G' = timeDiffAt clk broker G.
Proof. intros Hs Hl. unfold timeDiffAt. now rewrite Hs, Hl. Qed.

Lemma brokersLoop_scanShape snap clk brokers G0 G :
  start G = start G0 -> lastScrape G = lastScrape G0 ->
  (forall b, In b brokers -> In b (Brokers (client e))) ->
  Forall (scanShape e clk G0) (fst (brokersLoop e snap clk brokers G)).
Proof.
  revert G. induction brokers as [|b brokers IH]; intros G Hs Hl Hin; simpl;
    [constructor|].
  pose proof (getConsumerGroupMetrics_scanned snap clk b G) as Hb.
  pose proof (getConsumerGroupMetrics_keeps e
                (fun G' => start G' = start G0 /\ lastScrape G' = lastScrape G0)
                (fun G1 group topic v H => H) snap clk b G (conj Hs Hl))
    as [Hs1 Hl1].
  destruct (getConsumerGroupMetrics e snap clk b G) as [tr G1].
  specialize (IH G1 Hs1 Hl1 (fun b' Hb' => Hin b' (or_intror Hb'))).
  destruct (brokersLoop e snap clk brokers G1) as [tr' G2]. simpl in *.
  apply Forall_app_2; [|exact IH].
  eapply Forall_impl; [exact Hb|].
  intros [m|l]; [|easy]. intros (g & Hg & Hm) _.
  exists b, g. split; [apply Hin; now left|]. split; [exact Hg|].
  now rewrite <- (timeDiffAt_clock clk b G0 G Hs Hl).
Qed.

Lemma walkShape_scanShape clk G ev : walkShape ev -> scanShape e clk G ev.
Proof. destruct ev as [m|l]; [|easy]. simpl. congruence. Qed.

(** Every sample of a cycle with a descriptor of the group scan comes from
    the scan of a broker and is about a group that broker described. *)
Lemma collect_scanShape clk G :
  Forall (scanShape e clk G) (traceOf (collect e clk G)).
Proof.
  unfold collect.
  assert (Hr : Forall (scanShape e clk G) (fst (refreshMetadata e clk G))
               /\ start (snd (refreshMetadata e clk G)) = start G
               /\ lastScrape (snd (refreshMetadata e clk G)) = lastScrape G).
  { unfold refreshMetadata. destruct (_ <? _); simpl;
      [|repeat split; constructor].
    repeat split. destruct (failed _); split_trace; exact I. }
  destruct (refreshMetadata e clk G) as [refresh G1]. simpl in Hr.
  destruct Hr as (Hr & Hs & Hl).
  assert (Hb : scanShape e clk G
                 (Emit (mkMetric clusterBrokers (len (Brokers (client e))) [])))
    by (simpl; discriminate).
  destruct (Topics (client e)) as [topics err].
  destruct (failed err); simpl.
  - constructor; [exact Hb|]. apply Forall_app_2; [exact Hr|].
    split_trace; exact I.
  - destruct (topicPhase e topics) as [[walk snap]|] eqn:Hw; simpl.
    + apply topicPhase_walkShape in Hw.
      assert (Hg : Forall (scanShape e clk G) (fst (groupPhase e snap clk G1))).
      { unfold groupPhase. destruct (0 <? _); [|split_trace; exact I].
        now apply brokersLoop_scanShape. }
      destruct (groupPhase e snap clk G1) as [scan G2]. simpl in *.
      constructor; [exact Hb|]. repeat apply Forall_app_2; try assumption.
      eapply Forall_impl; [exact Hw|]. apply walkShape_scanShape.
    + constructor; [exact Hb | exact Hr].
Qed.

End Scan.

(** X22.  The group filter is honoured by the scan.  On a cluster whose
    brokers describe only the groups they are asked about, every sample of
    a cycle with a descriptor of the group scan is labelled with a group
    that passes the filter and that some broker of the cluster lists. *)
Theorem group_samples_pass_filter
    (e : Exporter) (clk : Clock) (G : Globals) (m : Metric) :
  (forall broker ids group,
     In group (fst (DescribeGroups (client e) broker ids)) ->
     In (GroupId group) ids) ->
  In (Emit m) (traceOf (collect e clk G)) ->
  groupLevel (desc m) = true ->
  exists broker group rest,
    In broker (Brokers (client e))
    /\ In group (fst (ListGroups (client e) broker))
    /\ groupFilter e group = true
    /\ labels m = LStr group :: rest.
Proof.
  intros Hasked Hin Hlevel.
  pose proof (collect_scanShape e clk G) as Hall.
  rewrite List.Forall_forall in Hall. specialize (Hall _ Hin Hlevel).
  destruct Hall as (broker & group & Hb & Hg & Hm).
  apply Hasked, filter_In in Hg as [Hlisted Hfilter].
  assert (Hl : exists rest, labels m = LStr (GroupId group) :: rest).
  { unfold describes in Hm. destruct (desc m); try discriminate.
    - destruct Hm as (topic & p & ->). eauto.
    - destruct Hm as (topic & ->). eauto.
    - destruct Hm as (topic & p & ->). eauto.
    - destruct Hm as (topic & rate & time & ->). eauto.
    - destruct Hm as [-> _]. eauto. }
  destruct Hl as [rest Hl]. now exists broker, (GroupId group), rest.
Qed.

Lemma group_samples_pass_filter_witness :
  exists broker group rest,
    In broker (Brokers (client Cluster.exporter))
    /\ In group (fst (ListGroups (client Cluster.exporter) broker))
    /\ groupFilter Cluster.exporter group = true
    /\ labels (mkMetric consumergroupMembers 1 [LStr "g2"])
       = LStr group :: rest.
Proof.
  apply (group_samples_pass_filter Cluster.exporter Cluster.firstClock
           (initGlobals 0) (mkMetric consumergroupMembers 1 [LStr "g2"])).
  - intros broker ids group Hin. simpl in Hin.
    apply in_map_iff in Hin as (id & <- & Hid). exact Hid.
  - pick_member.
  - reflexivity.
Defined.

(** X23.  The elapsed-time label of a rate sample.  Every
    [consumergroup.lag_sum_rate] sample of a cycle carries, as its last
    label, the elapsed time computed when the scan of some broker began: 0
    in a first cycle, and otherwise the [int64] difference between that
    moment and the end of the previous completed cycle. *)
Theorem rate_sample_elapsed_time
    (e : Exporter) (clk : Clock) (G : Globals) (m : Metric) :
  In (Emit m) (traceOf (collect e clk G)) ->
  desc m = consumergroupLagSumRate ->
  exists broker group topic rate time,
    In broker (Brokers (client e))
    /\ labels m
       = [LStr group; LStr topic; LFloat rate; LFloat time;
          LInt (if start G then 0
                else Int64.sub (unixAtBroker clk broker) (lastScrape G))].
Proof.
  intros Hin Hdesc.
  pose proof (collect_scanShape e clk G) as Hall.
  rewrite List.Forall_forall in Hall. specialize (Hall _ Hin). simpl in Hall.
  rewrite Hdesc in Hall.
  destruct (Hall eq_refl) as (broker & group & Hb & _ & Hm).
  unfold describes in Hm. rewrite Hdesc in Hm.
  destruct Hm as (topic & rate & time & Hl).
  now exists broker, (GroupId group), topic, rate, time.
Qed.

Lemma rate_sample_elapsed_time_witness :
  exists broker group topic rate time,
    In broker (Brokers (client Cluster.exporter))
    /\ labels (mkMetric consumergroupLagSumRate 300
                 [LStr "g1"; LStr "orders";
                  LFloat (PrimFloat.div 400 60);
                  LFloat (PrimFloat.div 900 (PrimFloat.div 400 60));
                  LInt 60])
       = [LStr group; LStr topic; LFloat rate; LFloat time;
          LInt (if start Cluster.afterFirstCycle then 0
                else Int64.sub (unixAtBroker Cluster.secondClock broker)
                       (lastScrape Cluster.afterFirstCycle))].
Proof.
  apply (rate_sample_elapsed_time Cluster.exporter Cluster.secondClock
           Cluster.afterFirstCycle).
  - pick_member.
  - reflexivity.
Defined.

(** X24.  The member count.  Every [consumergroup.members] sample of a
    cycle is labelled with a group that some broker of the cluster
    described, and its value is the number of members in that
    description. *)
Theorem members_sample_counts_members
    (e : Exporter) (clk : Clock) (G : Globals) (m : Metric) :
  In (Emit m) (traceOf (collect e clk G)) ->
  desc m = consumergroupMembers ->
  exists broker group,
    In broker (Brokers (client e))
    /\ In group (describedGroups e broker)
    /\ labels m = [LStr (GroupId group)]
    /\ value m = len (Members group).
Proof.
  intros Hin Hdesc.
  pose proof (collect_scanShape e clk G) as Hall.
  rewrite List.Forall_forall in Hall. specialize (Hall _ Hin). simpl in Hall.
  rewrite Hdesc in Hall.
  destruct (Hall eq_refl) as (broker & group & Hb & Hg & Hm).
  unfold describes in Hm. rewrite Hdesc in Hm. destruct Hm as [Hl Hv].
  now exists broker, group.
Qed.

Lemma members_sample_counts_members_witness :
  exists broker group,
    In broker (Brokers (client Cluster.exporter))
    /\ In group (describedGroups Cluster.exporter broker)
    /\ labels (mkMetric consumergroupMembers 1 [LStr "g1"])
       = [LStr (GroupId group)]
    /\ value (mkMetric consumergroupMembers 1 [LStr "g1"])
       = len (Members group).
Proof.
  apply (members_sample_counts_members Cluster.exporter Cluster.firstClock
           (initGlobals 0)).
  - pick_member.
  - reflexivity.
Defined.

(** * The reports of a group *)

Lemma samplesOf_app d tr tr' :
  samplesOf d (tr ++ tr') = samplesOf d tr ++ samplesOf d tr'.
Proof. unfold samplesOf, metricsOf. now rewrite omap_app, List.filter_app. Qed.

Section Reports.

Variables (e : Exporter) (broker : Z) (group : string).

(** The loop over the partition blocks sends no aggregate sample. *)
Lemma partitionLags_no_sum topic bs cs ls :
  samplesOf consumergroupCurrentOffsetSum
    (fst (fst (partitionLags e broker group topic bs cs ls))) = [].
Proof.
  rewrite partitionLags_trace.
  induction bs as [|[p blk] bs IH]; [reflexivity|].
  cbn [flat_map fst snd]. rewrite samplesOf_app, IH, app_nil_r.
  unfold partitionLag. destruct (negb (Err blk =? ErrNoError)); [reflexivity|].
  destruct (GetOffset (client e) (GroupScan broker group) topic p OffsetNewest)
    as [latest err].
  now destruct (failed err), (Offset blk =? -1).
Qed.

Lemma reportTopic_sum topic bs timeDiff G :
  samplesOf consumergroupCurrentOffsetSum
    (fst (reportTopic e broker group topic bs timeDiff G))
  = [mkMetric consumergroupCurrentOffsetSum
       (currentOffsetSumOf e broker group topic bs) [LStr group; LStr topic]]
  /\ snd (reportTopic e broker group topic bs timeDiff G)
     = storeBaseline G group topic (currentOffsetSumOf e broker group topic bs).
Proof.
  unfold reportTopic, currentOffsetSumOf.
  pose proof (partitionLags_no_sum topic bs 0 0) as Hnone.
  destruct (partitionLags e broker group topic bs 0 0) as [[tr cs] ls].
  destruct (consumeRateTime G group topic cs timeDiff) as [rate time].
  cbn [fst snd] in *. now rewrite samplesOf_app, Hnone.
Qed.

End Reports.

(** X25.  One report per consumed topic.  Of the topics of a fetch
    response, those in which the group has no commit at all are passed
    over: the loop over the response does what it does on the consumed
    topics alone.  Each consumed topic gets exactly one
    [consumergroup.current_offset_sum] sample, in the order of the visit,
    with the reduced total of its committed offsets, and the state left is
    the one reached by storing these totals as baselines, topic by
    topic. *)
Theorem one_report_per_consumed_topic
    (e : Exporter) (broker : Z) (group : string) (blocks : Blocks)
    (timeDiff : Z) (G : Globals) :
  blocksLoop e broker group blocks timeDiff G
  = blocksLoop e broker group (consumedTopics blocks) timeDiff G
  /\ samplesOf consumergroupCurrentOffsetSum
       (fst (blocksLoop e broker group blocks timeDiff G))
     = map (fun tb =>
              mkMetric consumergroupCurrentOffsetSum
                (Int64.wrap (committedTotal (snd tb)))
                [LStr group; LStr (fst tb)])
           (consumedTopics blocks)
  /\ snd (blocksLoop e broker group blocks timeDiff G)
     = fold_left (fun G tb =>
                    storeBaseline G group (fst tb)
                      (Int64.wrap (committedTotal (snd tb))))
                 (consumedTopics blocks) G.
Proof.
  revert G. induction blocks as [|[topic bs] blocks IH]; intros G.
  - repeat split.
  - unfold consumedTopics in *. cbn [List.filter blocksLoop fst snd].
    destruct (topicConsumed bs) eqn:Hc; [|apply IH].
    cbn [blocksLoop map fold_left fst snd]. rewrite Hc.
    destruct (reportTopic_sum e broker group topic bs timeDiff G) as [Hs HG].
    destruct (partitionLags_totals e broker group topic bs 0 0 eq_refl eq_refl)
      as [Htot _].
    unfold currentOffsetSumOf in Hs, HG. rewrite Htot in Hs, HG.
    destruct (reportTopic e broker group topic bs timeDiff G) as [tr G1].
    cbn [fst snd] in Hs, HG. subst G1.
    destruct (IH (storeBaseline G group topic
                    (Int64.wrap (0 + committedTotal bs))))
      as (Heq & Hsum & Hstate).
    rewrite <- Heq.
    destruct (blocksLoop e broker group blocks timeDiff
                (storeBaseline G group topic
                   (Int64.wrap (0 + committedTotal bs)))) as [tr' G2].
    cbn [fst snd] in *. rewrite samplesOf_app, Hs, Hsum, Hstate.
    repeat split.
Qed.

Section MembersEmitted.

Variables (e : Exporter) (snap : Snapshot) (clk : Clock).

Lemma getConsumerGroupMetrics_members broker group G :
  scansGroups e broker = true ->
  offsetShowAll e = true \/ Forall readable (describedGroups e broker) ->
  In group (describedGroups e broker) ->
  In (Emit (mkMetric consumergroupMembers (len (Members group))
              [LStr (GroupId group)]))
     (fst (getConsumerGroupMetrics e snap clk broker G)).
Proof.
  unfold scansGroups, describedGroups, getConsumerGroupMetrics.
  destruct (ListGroups (client e) broker) as [groups err]. cbn [fst snd].
  intros Hscan Hok Hin.
  pose proof (groupsLoop_members e snap broker _ (timeDiffAt clk broker G) G
                group Hok Hin) as Hloop.
  destruct (DescribeGroups (client e) broker _) as [described err'].
  cbn [fst snd] in *.
  destruct (Open (client e) broker) as [[|msg]|];
    destruct (failed err), (failed err'); try discriminate; exact Hloop.
Qed.

Lemma brokersLoop_members brokers broker ev G :
  In broker brokers ->
  (forall G', In ev (fst (getConsumerGroupMetrics e snap clk broker G'))) ->
  In ev (fst (brokersLoop e snap clk brokers G)).
Proof.
  revert G. induction brokers as [|b brokers IH]; intros G Hin Hev;
    [destruct Hin|].
  simpl. pose proof (Hev G) as Hhere.
  destruct Hin as [->|Hin].
  - destruct (getConsumerGroupMetrics e snap clk broker G) as [tr G1].
    destruct (brokersLoop e snap clk brokers G1) as [tr' G2].
    simpl in *. apply in_or_app. now left.
  - destruct (getConsumerGroupMetrics e snap clk b G) as [tr G1].
    specialize (IH G1 Hin Hev).
    destruct (brokersLoop e snap clk brokers G1) as [tr' G2].
    simpl in *. apply in_or_app. now right.
Qed.

End MembersEmitted.

(** The member count of each group described by a broker whose scan gets
    to the groups is sent, in show-all mode or when every assignment that
    broker reports can be read. *)
Lemma groupPhase_members e snap clk G broker group :
  In broker (Brokers (client e)) ->
  scansGroups e broker = true ->
  offsetShowAll e = true \/ Forall readable (describedGroups e broker) ->
  In group (describedGroups e broker) ->
  In (Emit (mkMetric consumergroupMembers (len (Members group))
              [LStr (GroupId group)]))
     (fst (groupPhase e snap clk G)).
Proof.
  intros Hb Hscan Hok Hin. unfold groupPhase.
  destruct (Z.ltb_spec 0 (len (Brokers (client e)))) as [_|Hle].
  - apply (brokersLoop_members e snap clk _ broker _ G Hb).
    intros G'. now apply getConsumerGroupMetrics_members.
  - destruct (Brokers (client e)); [destruct Hb|].
    unfold len in Hle. simpl in Hle. lia.
Qed.

(** An event of the group scan is an event of a cycle that completes. *)
Lemma collect_scan_event e clk G ev :
  completes e = true ->
  (forall snap G1, In ev (fst (groupPhase e snap clk G1))) ->
  In ev (traceOf (collect e clk G)).
Proof.
  unfold completes, collect. intros Hc Hscan.
  destruct (refreshMetadata e clk G) as [refresh G1].
  destruct (Topics (client e)) as [topics err]. cbn [fst snd] in Hc.
  destruct (failed err); [discriminate|].
  destruct (topicPhase e topics) as [[walk snap]|]; [|discriminate].
  specialize (Hscan snap G1).
  destruct (groupPhase e snap clk G1) as [scan G2]. cbn [fst traceOf] in *.
  right. apply in_or_app. right. apply in_or_app. now right.
Qed.

(** X26.  When the member count is sent.  In a cycle that gets past the
    topic walk, for a broker of the cluster whose connection, group list
    and group descriptions are obtained, every group that broker
    describes gets its [consumergroup.members] sample, with the number of
    members of the description, provided the exporter runs in show-all
    mode or every member assignment that broker reports can be read. *)
Theorem members_sample_emitted
    (e : Exporter) (clk : Clock) (G : Globals) (broker : Z)
    (group : GroupDescription) :
  completes e = true ->
  In broker (Brokers (client e)) ->
  scansGroups e broker = true ->
  offsetShowAll e = true \/ Forall readable (describedGroups e broker) ->
  In group (describedGroups e broker) ->
  In (Emit (mkMetric consumergroupMembers (len (Members group))
              [LStr (GroupId group)]))
     (traceOf (collect e clk G)).
Proof.
  intros Hc Hb Hscan Hok Hin.
  apply collect_scan_event; [exact Hc|].
  intros snap G1. now apply groupPhase_members with (broker := broker).
Qed.

Lemma members_sample_emitted_witness :
  In (Emit (mkMetric consumergroupMembers
              (len (Members (mkGroup "g2" [Cluster.member])))
              [LStr (GroupId (mkGroup "g2" [Cluster.member]))]))
     (traceOf (collect Cluster.exporter Cluster.firstClock (initGlobals 0))).
Proof.
  apply (members_sample_emitted Cluster.exporter Cluster.firstClock
           (initGlobals 0) 1 (mkGroup "g2" [Cluster.member])).
  - reflexivity.
  - now left.
  - reflexivity.
  - right. vm_compute. repeat constructor.
  - vm_compute. right. now left.
Defined.

(** X27.  [Describe] does not announce everything a cycle sends.  Of the
    descriptors [setup] declares, [Describe] sends all but
    [consumergroupMembers] and [consumergroupLagSumRate]; and a cycle that
    gets past the topic walk and describes a group, in show-all mode or
    with readable assignments, sends a sample whose descriptor [Describe]
    has not announced. *)
Theorem describe_misses_scan_samples
    (e : Exporter) (clk : Clock) (G : Globals) (broker : Z)
    (group : GroupDescription) :
  (forall d,
     In d Describe
     <-> d <> consumergroupMembers /\ d <> consumergroupLagSumRate)
  /\ (completes e = true ->
      In broker (Brokers (client e)) ->
      scansGroups e broker = true ->
      offsetShowAll e = true \/ Forall readable (describedGroups e broker) ->
      In group (describedGroups e broker) ->
      exists m,
        In (Emit m) (traceOf (collect e clk G)) /\ ~ In (desc m) Describe).
Proof.
  assert (Hd : forall d,
            In d Describe
            <-> d <> consumergroupMembers /\ d <> consumergroupLagSumRate).
  { intros d. split.
    - intros Hin. split; intros ->; simpl in Hin;
        repeat (destruct Hin as [Hin|Hin]; [discriminate|]); exact Hin.
    - intros [Hm Hr]. destruct d; simpl; try tauto. }
  split; [exact Hd|].
  intros Hc Hb Hscan Hok Hin.
  exists (mkMetric consumergroupMembers (len (Members group))
            [LStr (GroupId group)]).
  split.
  { apply collect_scan_event; [exact Hc|].
    intros snap G1. now apply groupPhase_members with (broker := broker). }
  intros Hdesc. apply Hd in Hdesc as [Hm _]. now apply Hm.
Qed.

Lemma describe_misses_scan_samples_witness :
  exists m,
    In (Emit m)
       (traceOf (collect Cluster.exporter Cluster.firstClock (initGlobals 0)))
    /\ ~ In (desc m) Describe.
Proof.
  apply (proj2 (describe_misses_scan_samples Cluster.exporter
                  Cluster.firstClock (initGlobals 0) 1
                  (mkGroup "g1" [Cluster.member]))).
  - reflexivity.
  - now left.
  - reflexivity.
  - right. vm_compute. repeat constructor.
  - vm_compute. now left.
Defined.

(** * What the walk sends for every partition *)

Section WalkSends.

Variable e : Exporter.

(** The two flag samples of a partition are sent whatever fails. *)
Lemma partitionFacts_flags topic p offs :
  let replicas := fst (Replicas (client e) topic p) in
  In (Emit (mkMetric topicPartitionUsesPreferredReplica
              (if usesPreferredReplica (leaderOf (Leader (client e) topic p))
                                       replicas
               then 1 else 0)
              [LStr topic; LInt p]))
     (fst (partitionFacts e topic p offs))
  /\ In (Emit (mkMetric topicUnderReplicatedPartition
                 (if underReplicated replicas
                                     (fst (InSyncReplicas (client e) topic p))
                  then 1 else 0)
                 [LStr topic; LInt p]))
        (fst (partitionFacts e topic p offs)).
Proof.
  cbv zeta. unfold partitionFacts, partitionLabels.
  destruct (Leader (client e) topic p);
    destruct (GetOffset (client e) TopicWalk topic p OffsetNewest) as [v1 e1];
    destruct (GetOffset (client e) TopicWalk topic p OffsetOldest) as [v2 e2];
    destruct (Replicas (client e) topic p) as [r e3];
    destruct (InSyncReplicas (client e) topic p) as [i e4];
    destruct (failed e1), (failed e2), (failed e3), (failed e4);
    cbn [fst snd leaderOf app];
    split; simpl; repeat first [left; reflexivity | right].
Qed.

Lemma partitionsLoop_sends topic ps offs p ev :
  In p ps ->
  (forall offs', In ev (fst (partitionFacts e topic p offs'))) ->
  In ev (fst (partitionsLoop e topic ps offs)).
Proof.
  revert offs. induction ps as [|q ps IH]; intros offs Hin Hev;
    [destruct Hin|].
  simpl. pose proof (Hev offs) as Hhere.
  destruct Hin as [->|Hin].
  - destruct (partitionFacts e topic p offs) as [tr offs1].
    destruct (partitionsLoop e topic ps offs1) as [tr' offs2].
    simpl in *. apply in_or_app. now left.
  - destruct (partitionFacts e topic q offs) as [tr offs1].
    specialize (IH offs1 Hin Hev).
    destruct (partitionsLoop e topic ps offs1) as [tr' offs2].
    simpl in *. apply in_or_app. now right.
Qed.

Lemma getTopicMetrics_sends topic snap p ev :
  walkedPartition e topic p ->
  (forall offs', In ev (fst (partitionFacts e topic p offs'))) ->
  In ev (fst (getTopicMetrics e topic snap)).
Proof.
  intros [[Hf Hok] Hp] Hev. unfold getTopicMetrics. rewrite Hf. simpl.
  destruct (Partitions (client e) topic) as [ps err]. simpl in Hok, Hp.
  subst err. simpl.
  pose proof (partitionsLoop_sends topic ps ∅ p ev Hp Hev) as Hloop.
  destruct (partitionsLoop e topic ps ∅) as [tr offs]. simpl in *.
  now right.
Qed.

Lemma runTopics_sends queued snap topic ev :
  In topic queued ->
  (forall snap', In ev (fst (getTopicMetrics e topic snap'))) ->
  In ev (fst (runTopics e queued snap)).
Proof.
  revert snap. induction queued as [|t queued IH]; intros snap Hin Hev;
    [destruct Hin|].
  rewrite runTopics_cons. cbn [fst]. apply in_or_app.
  destruct Hin as [->|Hin]; [left; apply Hev | right; now apply IH].
Qed.

(** An event every visit of a walked topic sends is an event of a cycle
    that completes, when the topic is listed. *)
Lemma collect_walk_event clk G topic ev :
  completes e = true ->
  In topic (fst (Topics (client e))) ->
  topicFilter e topic = true ->
  (forall snap, In ev (fst (getTopicMetrics e topic snap))) ->
  In ev (traceOf (collect e clk G)).
Proof.
  unfold completes, collect. intros Hc Hin Hf Hev.
  destruct (refreshMetadata e clk G) as [refresh G1].
  destruct (Topics (client e)) as [topics err]. cbn [fst snd] in Hc, Hin.
  destruct (failed err); [discriminate|].
  assert (Hret : topicPhase e topics <> None)
    by (destruct (topicPhase e topics); [discriminate | discriminate Hc]).
  rewrite (topicPhase_runs e topics Hret).
  assert (Hw : In ev (fst (runTopics e (List.filter (topicFilter e) topics)
                             emptySnapshot))).
  { apply (runTopics_sends _ _ topic); [|exact Hev].
    apply filter_In. now split. }
  destruct (runTopics e (List.filter (topicFilter e) topics) emptySnapshot)
    as [walk snap].
  destruct (groupPhase e snap clk G1) as [scan G2]. cbn [fst traceOf] in *.
  right. apply in_or_app. right. apply in_or_app. now left.
Qed.

End WalkSends.

(** X28.  What the walk sends whatever fails.  In a cycle that gets past
    the topic walk, every listed topic that passes the filter and whose
    partition list is fetched gets its [topic.partitions] sample with the
    length of the list, and each partition of the list gets the two flag
    samples, whatever the leader, offset and replica requests answer:
    "leader is preferred replica" is 1 exactly when the leader is known
    and is the first replica, "under replicated" is 1 exactly when both
    replica lists are known and fewer replicas are in sync. *)
Theorem walked_partition_samples
    (e : Exporter) (clk : Clock) (G : Globals) (topic : string) (p : Z) :
  completes e = true ->
  In topic (fst (Topics (client e))) ->
  walkedPartition e topic p ->
  let replicas := fst (Replicas (client e) topic p) in
  let sent m := In (Emit m) (traceOf (collect e clk G)) in
  sent (mkMetric topicPartitions (len (fst (Partitions (client e) topic)))
          [LStr topic])
  /\ sent (mkMetric topicPartitionUsesPreferredReplica
             (if usesPreferredReplica (leaderOf (Leader (client e) topic p))
                                      replicas
              then 1 else 0)
             [LStr topic; LInt p])
  /\ sent (mkMetric topicUnderReplicatedPartition
             (if underReplicated replicas
                                 (fst (InSyncReplicas (client e) topic p))
              then 1 else 0)
             [LStr topic; LInt p]).
Proof.
  intros Hc Hin Hp. cbv zeta.
  pose proof Hp as [[Hf Hok] Hlist].
  split; [|split].
  - apply (collect_walk_event e clk G topic); try assumption.
    intros snap. unfold getTopicMetrics. rewrite Hf. simpl.
    destruct (Partitions (client e) topic) as [ps err]. simpl in Hok.
    subst err. simpl.
    destruct (partitionsLoop e topic ps ∅) as [tr offs]. now left.
  - apply (collect_walk_event e clk G topic); try assumption.
    intros snap. apply (getTopicMetrics_sends e topic snap p); [exact Hp|].
    intros offs. apply partitionFacts_flags.
  - apply (collect_walk_event e clk G topic); try assumption.
    intros snap. apply (getTopicMetrics_sends e topic snap p); [exact Hp|].
    intros offs. apply partitionFacts_flags.
Qed.

Lemma walked_partition_samples_witness :
  In (Emit (mkMetric topicPartitions
              (len (fst (Partitions (client Cluster.exporter) "orders")))
              [LStr "orders"]))
     (traceOf (collect Cluster.exporter Cluster.firstClock (initGlobals 0)))
  /\ In (Emit (mkMetric topicPartitionUsesPreferredReplica
                 (if usesPreferredReplica
                      (leaderOf (Leader (client Cluster.exporter) "orders" 1))
                      (fst (Replicas (client Cluster.exporter) "orders" 1))
                  then 1 else 0)
                 [LStr "orders"; LInt 1]))
        (traceOf (collect Cluster.exporter Cluster.firstClock (initGlobals 0)))
  /\ In (Emit (mkMetric topicUnderReplicatedPartition
                 (if underReplicated
                      (fst (Replicas (client Cluster.exporter) "orders" 1))
                      (fst (InSyncReplicas (client Cluster.exporter)
                              "orders" 1))
                  then 1 else 0)
                 [LStr "orders"; LInt 1]))
        (traceOf (collect Cluster.exporter Cluster.firstClock (initGlobals 0))).
Proof.
  apply (walked_partition_samples Cluster.exporter Cluster.firstClock
           (initGlobals 0) "orders" 1).
  - reflexivity.
  - now left.
  - repeat split. simpl. right. now left.
Defined.

(** X29.  A cluster without brokers.  When the client knows no broker, a
    cycle that gets past the topic walk logs "No valid broker", sends no
    sample with a descriptor of the group scan, leaves every baseline as
    it was, and still ends as a completed cycle: [start] is cleared and
    [lastScrape] stamped; the broker count sample carries 0. *)
Theorem cycle_without_brokers (e : Exporter) (clk : Clock) (G : Globals) :
  Brokers (client e) = [] ->
  completes e = true ->
  let tr := traceOf (collect e clk G) in
  let G' := globalsOf (collect e clk G) in
  In (Emit (mkMetric clusterBrokers 0 [])) tr
  /\ In (LogError NoValidBroker) tr
  /\ (forall m, In (Emit m) tr -> groupLevel (desc m) = false)
  /\ store G' = store G /\ lastOffset G' = lastOffset G
  /\ start G' = false /\ lastScrape G' = unixAtEnd clk.
Proof.
  intros Hnone Hc. cbv zeta.
  pose proof (collect_scanShape e clk G) as Hall.
  rewrite List.Forall_forall in Hall.
  split; [|split; [|split]].
  - unfold collect. rewrite Hnone.
    destruct (refreshMetadata e clk G) as [refresh G1].
    destruct (Topics (client e)) as [topics err].
    destruct (failed err); [now left|].
    destruct (topicPhase e topics) as [[walk snap]|]; [|now left].
    destruct (groupPhase e snap clk G1) as [scan G2]. now left.
  - apply collect_scan_event; [exact Hc|]. intros snap G1.
    unfold groupPhase. rewrite Hnone. now left.
  - intros m Hin. specialize (Hall _ Hin). simpl in Hall.
    destruct (groupLevel (desc m)); [|reflexivity].
    destruct (Hall eq_refl) as (broker & _ & Hb & _).
    rewrite Hnone in Hb. destruct Hb.
  - unfold completes, collect, refreshMetadata, groupPhase in *.
    rewrite Hnone. cbn [len length Z.of_nat Z.ltb Z.compare].
    destruct (Topics (client e)) as [topics err]. cbn [fst snd] in Hc.
    destruct (nextMetadataRefresh G <? now clk);
      destruct (failed err); try discriminate;
      destruct (topicPhase e topics) as [[walk snap]|]; try discriminate;
      repeat split.
Qed.

Lemma cycle_without_brokers_witness :
  let e := withClient
             (mkGateway [] None (["orders"; "payments"]%string, None)
                (Partitions Cluster.gateway) (Leader Cluster.gateway)
                (GetOffset Cluster.gateway) (Replicas Cluster.gateway)
                (InSyncReplicas Cluster.gateway) (Open Cluster.gateway)
                (ListGroups Cluster.gateway) (DescribeGroups Cluster.gateway)
                (FetchOffset Cluster.gateway) (Consumergroups Cluster.gateway)
                (ZkFetchOffset Cluster.gateway))
             Cluster.exporter in
  let tr := traceOf (collect e Cluster.firstClock (initGlobals 0)) in
  let G' := globalsOf (collect e Cluster.firstClock (initGlobals 0)) in
  In (Emit (mkMetric clusterBrokers 0 [])) tr
  /\ In (LogError NoValidBroker) tr
  /\ (forall m, In (Emit m) tr -> groupLevel (desc m) = false)
  /\ store G' = store (initGlobals 0)
  /\ lastOffset G' = lastOffset (initGlobals 0)
  /\ start G' = false /\ lastScrape G' = unixAtEnd Cluster.firstClock.
Proof.
  intros e.
  apply (cycle_without_brokers e Cluster.firstClock (initGlobals 0));
    reflexivity.
Defined.

(** * The first cycle reports every processed topic as unavailable *)

Section FirstCycleSends.

Variable e : Exporter.

Lemma reportTopic_first_rate broker group topic bs timeDiff G :
  start G = true ->
  In (Emit (mkMetric consumergroupLagSumRate
              (lagSumOf e broker group topic bs)
              [LStr group; LStr topic; LFloat (-1); LFloat (-2);
               LInt timeDiff]))
     (fst (reportTopic e broker group topic bs timeDiff G)).
Proof.
  intros Hs. unfold reportTopic, lagSumOf.
  destruct (partitionLags e broker group topic bs 0 0) as [[tr cs] ls].
  rewrite (consumeRateTime_first G group topic cs timeDiff Hs).
  cbn [fst snd]. apply in_or_app. right. now left.
Qed.

Lemma blocksLoop_first_rate broker group blocks timeDiff G topic bs :
  start G = true ->
  In (topic, bs) blocks ->
  topicConsumed bs = true ->
  In (Emit (mkMetric consumergroupLagSumRate
              (lagSumOf e broker group topic bs)
              [LStr group; LStr topic; LFloat (-1); LFloat (-2);
               LInt timeDiff]))
     (fst (blocksLoop e broker group blocks timeDiff G)).
Proof.
  revert G. induction blocks as [|[t bs'] blocks IH]; intros G Hs Hin Hc;
    [destruct Hin|].
  cbn [blocksLoop].
  pose proof (reportTopic_first_rate broker group t bs' timeDiff G Hs) as Hhere.
  pose proof (reportTopic_keeps e (fun G' => start G' = true)
                (fun G1 g t' v H => H) broker group t bs' timeDiff G Hs)
    as Hs1.
  destruct Hin as [[= -> ->]|Hin].
  - rewrite Hc.
    destruct (reportTopic e broker group topic bs timeDiff G) as [tr G1].
    destruct (blocksLoop e broker group blocks timeDiff G1) as [tr' G2].
    cbn [fst] in *. apply in_or_app. now left.
  - destruct (topicConsumed bs'); [|now apply IH].
    destruct (reportTopic e broker group t bs' timeDiff G) as [tr G1].
    cbn [snd] in Hs1. specialize (IH G1 Hs1 Hin Hc).
    destruct (blocksLoop e broker group blocks timeDiff G1) as [tr' G2].
    cbn [fst] in *. apply in_or_app. now right.
Qed.

Lemma groupsLoop_first_rate snap broker before group after timeDiff G
    request blocks topic bs :
  start G = true ->
  offsetShowAll e = true \/ Forall readable before ->
  offsetRequest e snap group = Some request ->
  FetchOffset (client e) broker request = (blocks, None) ->
  In (topic, bs) blocks ->
  topicConsumed bs = true ->
  In (Emit (mkMetric consumergroupLagSumRate
              (lagSumOf e broker (GroupId group) topic bs)
              [LStr (GroupId group); LStr topic; LFloat (-1); LFloat (-2);
               LInt timeDiff]))
     (fst (groupsLoop e snap broker (before ++ group :: after) timeDiff G)).
Proof.
  intros Hs Hok Hreq Hfetch Hin Hc. revert G Hs.
  induction before as [|g before IH]; intros G Hs.
  - cbn [app groupsLoop]. unfold offsetRequest in Hreq. rewrite Hreq, Hfetch.
    cbn [failed].
    pose proof (blocksLoop_first_rate broker (GroupId group) blocks timeDiff G
                  topic bs Hs Hin Hc) as Hhere.
    destruct (blocksLoop e broker (GroupId group) blocks timeDiff G)
      as [tr G1].
    destruct (groupsLoop e snap broker after timeDiff G1) as [tr' G2].
    cbn [fst] in *. right. apply in_or_app. now left.
  - assert (Hrest : offsetShowAll e = true \/ Forall readable before).
    { destruct Hok as [H|H]; [now left | right; now inversion H]. }
    assert (Hg : exists r,
      (if offsetShowAll e
       then Some (requestShowAll snap (mkRequest (GroupId g) 1 []))
       else requestAssigned (Members g) (mkRequest (GroupId g) 1 []))
      = Some r).
    { destruct Hok as [H|H].
      - rewrite H. eauto.
      - destruct (offsetShowAll e); [eauto|].
        apply requestAssigned_readable. now inversion H. }
    destruct Hg as [r Hg]. cbn [app groupsLoop]. rewrite Hg.
    destruct (FetchOffset (client e) broker r) as [blocks' err].
    destruct (failed err).
    + specialize (IH Hrest G Hs).
      destruct (groupsLoop e snap broker (before ++ group :: after) timeDiff G)
        as [tr G1].
      cbn [fst] in *. right. now right.
    + pose proof (blocksLoop_keeps e (fun G' => start G' = true)
                    (fun G1 g' t' v H => H) broker (GroupId g) blocks'
                    timeDiff G Hs) as Hs1.
      destruct (blocksLoop e broker (GroupId g) blocks' timeDiff G)
        as [tr G1].
      cbn [snd] in Hs1. specialize (IH Hrest G1 Hs1).
      destruct (groupsLoop e snap broker (before ++ group :: after) timeDiff
                  G1) as [tr' G2].
      cbn [fst] in *. right. apply in_or_app. now right.
Qed.

Lemma getConsumerGroupMetrics_first_rate snap clk broker before group after G
    request blocks topic bs :
  start G = true ->
  scansGroups e broker = true ->
  describedGroups e broker = before ++ group :: after ->
  offsetShowAll e = true \/ Forall readable before ->
  offsetRequest e snap group = Some request ->
  FetchOffset (client e) broker request = (blocks, None) ->
  In (topic, bs) blocks ->
  topicConsumed bs = true ->
  In (Emit (mkMetric consumergroupLagSumRate
              (lagSumOf e broker (GroupId group) topic bs)
              [LStr (GroupId group); LStr topic; LFloat (-1); LFloat (-2);
               LInt 0]))
     (fst (getConsumerGroupMetrics e snap clk broker G)).
Proof.
  intros Hs Hscan Hdesc Hok Hreq Hfetch Hin Hc.
  pose proof (groupsLoop_first_rate snap broker before group after 0 G request
                blocks topic bs Hs Hok Hreq Hfetch Hin Hc) as Hloop.
  rewrite <- Hdesc in Hloop.
  unfold scansGroups, describedGroups, getConsumerGroupMetrics, timeDiffAt in *.
  rewrite Hs.
  destruct (ListGroups (client e) broker) as [groups err]. cbn [fst snd] in *.
  destruct (DescribeGroups (client e) broker _) as [described err'].
  cbn [fst snd] in *.
  destruct (Open (client e) broker) as [[|msg]|];
    destruct (failed err), (failed err'); try discriminate; exact Hloop.
Qed.

Lemma brokersLoop_first_sends snap clk brokers broker ev G :
  start G = true ->
  In broker brokers ->
  (forall G', start G' = true ->
              In ev (fst (getConsumerGroupMetrics e snap clk broker G'))) ->
  In ev (fst (brokersLoop e snap clk brokers G)).
Proof.
  revert G. induction brokers as [|b brokers IH]; intros G Hs Hin Hev;
    [destruct Hin|].
  cbn [brokersLoop].
  pose proof (getConsumerGroupMetrics_keeps e (fun G' => start G' = true)
                (fun G1 g t v H => H) snap clk b G Hs) as Hs1.
  destruct Hin as [->|Hin].
  - pose proof (Hev G Hs) as Hhere.
    destruct (getConsumerGroupMetrics e snap clk broker G) as [tr G1].
    destruct (brokersLoop e snap clk brokers G1) as [tr' G2].
    cbn [fst] in *. apply in_or_app. now left.
  - destruct (getConsumerGroupMetrics e snap clk b G) as [tr G1].
    cbn [snd] in Hs1. specialize (IH G1 Hs1 Hin Hev).
    destruct (brokersLoop e snap clk brokers G1) as [tr' G2].
    cbn [fst] in *. apply in_or_app. now right.
Qed.

(** In a first cycle, each processed (group, topic) gets its rate sample,
    with the two sentinels and the elapsed time 0. *)
Lemma collect_first_rate clk G broker group topic bs :
  start G = true ->
  processed e broker group topic bs ->
  In (Emit (mkMetric consumergroupLagSumRate
              (lagSumOf e broker (GroupId group) topic bs)
              [LStr (GroupId group); LStr topic; LFloat (-1); LFloat (-2);
               LInt 0]))
     (traceOf (collect e clk G)).
Proof.
  intros Hs (Hc & Hb & Hscan & before & after & walk & snap & request & blocks
             & Hdesc & Hok & Hwalk & Hreq & Hfetch & Hin & Hcons).
  unfold completes in Hc. unfold collect.
  pose proof (refreshMetadata_start e clk G) as Hs1. rewrite Hs in Hs1.
  destruct (refreshMetadata e clk G) as [refresh G1]. cbn [snd] in Hs1.
  destruct (Topics (client e)) as [topics err]. cbn [fst snd] in Hc, Hwalk.
  destruct (failed err); [discriminate|]. rewrite Hwalk.
  assert (Hg : In (Emit (mkMetric consumergroupLagSumRate
                           (lagSumOf e broker (GroupId group) topic bs)
                           [LStr (GroupId group); LStr topic; LFloat (-1);
                            LFloat (-2); LInt 0]))
                  (fst (groupPhase e snap clk G1))).
  { unfold groupPhase.
    destruct (Z.ltb_spec 0 (len (Brokers (client e)))) as [_|Hle].
    - apply (brokersLoop_first_sends snap clk _ broker _ G1 Hs1 Hb).
      intros G' Hs'.
      now apply (getConsumerGroupMetrics_first_rate snap clk broker before
                   group after G' request blocks).
    - destruct (Brokers (client e)); [destruct Hb|].
      unfold len in Hle. simpl in Hle. lia. }
  destruct (groupPhase e snap clk G1) as [scan G2]. cbn [fst traceOf] in *.
  right. apply in_or_app. right. apply in_or_app. now right.
Qed.

End FirstCycleSends.

(** The rate samples of a first cycle carry nothing but the sentinels. *)
Lemma collect_first_only clk e G :
  start G = true -> Forall rateUnavailable (traceOf (collect e clk G)).
Proof.
  intros Hs. unfold collect.
  pose proof (refreshMetadata_notRate e clk G) as Hr.
  pose proof (refreshMetadata_start e clk G) as Hs1. rewrite Hs in Hs1.
  destruct (refreshMetadata e clk G) as [refresh G1]; simpl in Hr, Hs1.
  assert (Hr' : Forall rateUnavailable refresh)
    by (eapply Forall_impl; [exact Hr | exact notRate_unavailable]).
  destruct (Topics (client e)) as [topics err].
  destruct (failed err); simpl.
  - constructor; [simpl; discriminate|].
    apply Forall_app_2; [exact Hr' | split_trace; exact I].
  - destruct (topicPhase e topics) as [[walk snap]|] eqn:Hw; simpl.
    + apply topicPhase_notRate in Hw.
      assert (Hw' : Forall rateUnavailable walk)
        by (eapply Forall_impl; [exact Hw | exact notRate_unavailable]).
      pose proof (groupPhase_first e snap clk G1 Hs1) as Hg.
      destruct (groupPhase e snap clk G1) as [scan G2]; simpl in *.
      constructor; [simpl; discriminate|].
      repeat apply Forall_app_2; assumption.
    + constructor; [simpl; discriminate | exact Hr'].
Qed.

(** C7.  During a cycle that starts with no earlier scrape recorded
    ([start] still true), every (group, topic) the cycle processes gets its
    [consumergroup.lag_sum_rate] sample, and that sample carries the rate
    label [-1], the drain-time label [-2] and the elapsed label 0; every
    [consumergroup.lag_sum_rate] sample the cycle emits carries these
    labels.  They are the two "unavailable" sentinels, which differ from
    zero, and never a value computed from a delta. *)
Theorem first_cycle_rate_unavailable (e : Exporter) (clk : Clock) (G : Globals) :
  start G = true ->
  (forall broker group topic bs,
     processed e broker group topic bs ->
     In (Emit (mkMetric consumergroupLagSumRate
                 (lagSumOf e broker (GroupId group) topic bs)
                 [LStr (GroupId group); LStr topic; LFloat (-1); LFloat (-2);
                  LInt 0]))
        (traceOf (collect e clk G)))
  /\ Forall rateUnavailable (traceOf (collect e clk G))
  /\ (-1)%float <> 0%float /\ (-2)%float <> 0%float.
Proof.
  intros Hs. split; [|split; [|split]].
  - intros broker group topic bs Hp. now apply collect_first_rate.
  - now apply collect_first_only.
  - exact minus_one_not_zero.
  - exact minus_two_not_zero.
Qed.

Lemma first_cycle_rate_unavailable_witness :
  In (Emit (mkMetric consumergroupLagSumRate
              (lagSumOf Cluster.exporter 1 "g1" "orders" Cluster.ordersOfG1)
              [LStr "g1"; LStr "orders"; LFloat (-1); LFloat (-2); LInt 0]))
     (traceOf (collect Cluster.exporter Cluster.firstClock (initGlobals 0)))
  /\ Forall rateUnavailable
       (traceOf (collect Cluster.exporter Cluster.firstClock (initGlobals 0)))
  /\ (-1)%float <> 0%float /\ (-2)%float <> 0%float.
Proof.
  destruct (first_cycle_rate_unavailable Cluster.exporter Cluster.firstClock
              (initGlobals 0) eq_refl) as (Hsent & Honly & Hone & Htwo).
  split; [|split; [exact Honly | split; [exact Hone | exact Htwo]]].
  apply (Hsent 1 (mkGroup "g1" [Cluster.member]) "orders" Cluster.ordersOfG1).
  split; [reflexivity|]. split; [now left|]. split; [reflexivity|].
  exists [], [mkGroup "g2" [Cluster.member]],
         (fst (runTopics Cluster.exporter ["orders"; "payments"]%string
                 emptySnapshot)),
         Cluster.snapshot,
         (mkRequest "g1" 1 [("orders"%string, 0); ("orders"%string, 1)]),
         [("orders"%string, Cluster.ordersOfG1)].
  split; [reflexivity|]. split; [right; constructor|].
  split; [vm_compute; reflexivity|]. split; [reflexivity|].
  split; [reflexivity|]. split; [now left | reflexivity].
Defined.

(** * Coalesced scrapes *)

Section ScrapeMachine.

Import Scrapes.

Variable e : Exporter.

Lemma sum_insert {A} (f : A -> nat) (l : list A) (i : nat) (x y : A) :
  l !! i = Some x ->
  (sum_list_with f (<[ i := y ]> l) + f x = sum_list_with f l + f y)%nat.
Proof.
  intros Hi.
  rewrite <- (take_drop_middle l i x Hi) at 2.
  rewrite insert_take_drop by (eapply lookup_lt_Some; exact Hi).
  rewrite !sum_list_with_app. simpl. lia.
Qed.

Lemma sum_lookup {A} (f : A -> nat) (l : list A) (i : nat) (x : A) :
  l !! i = Some x -> (f x <= sum_list_with f l)%nat.
Proof.
  intros Hi. rewrite <- (take_drop_middle l i x Hi).
  rewrite sum_list_with_app. simpl. lia.
Qed.

Lemma sum_pointwise {A} (f g : A -> nat) (l : list A) :
  (forall x, (f x <= g x)%nat) ->
  (sum_list_with f l <= sum_list_with g l)%nat.
Proof.
  intros Hle. induction l as [|x l IH]; simpl; [lia|].
  specialize (Hle x). lia.
Qed.

Lemma reset_holds k : (resetK k <= holdsK k)%nat.
Proof. unfold resetK, holdsK. destruct (kpc k); lia. Qed.

Lemma reset_active k : (resetK k <= activeK k)%nat.
Proof. unfold resetK, activeK. destruct (kpc k); lia. Qed.

Lemma scrapes_inv_init n G : Inv (init n G).
Proof.
  constructor; unfold underWay; simpl; try lia.
  induction n as [|n IH]; simpl; [reflexivity | exact IH].
Qed.

(** The weights of the goroutine that moves, before and after. *)
Ltac weigh :=
  repeat match goal with
         | H : ?l !! ?i = Some ?x |- context [<[ ?i := ?y ]> ?l] =>
             lazymatch type of x with
             | Caller =>
                 pose proof (sum_insert holdsC l i x y H);
                 pose proof (sum_lookup holdsC l i x H)
             | Cycle =>
                 pose proof (sum_insert holdsK l i x y H);
                 pose proof (sum_insert activeK l i x y H);
                 pose proof (sum_insert resetK l i x y H);
                 pose proof (sum_lookup activeK l i x H);
                 pose proof (sum_pointwise resetK activeK (<[ i := y ]> l)
                               reset_active)
             end;
             revert H
         end;
  intros.

Lemma scrapes_inv_step s s' : Inv s -> step e s s' -> Inv s'.
Proof.
  intros [Hm Ho Hr] Hstep. unfold underWay in *.
  destruct Hstep; cbn [sgMutex sgChans callers cycles] in *; weigh;
    try (pose proof (sum_pointwise resetK holdsK ks reset_holds));
    try (pose proof (sum_pointwise resetK activeK ks reset_active));
    constructor; unfold underWay;
    cbn [sgMutex sgChans callers cycles] in *;
    rewrite ?sum_list_with_app; cbn [sum_list_with];
    unfold holdsC, holdsK, activeK, resetK in *; cbn [cpc kpc] in *;
    try (intros Hchans; try discriminate;
         try (apply app_eq_nil in Hchans as [_ Hchans]; discriminate);
         try specialize (Hr Hchans));
    try (destruct m); try (specialize (Hr eq_refl)); try lia.
Qed.

End ScrapeMachine.

Section ScrapeRuns.

Import Scrapes.

Variable e : Exporter.

Lemma scrapes_inv_reachable n G s :
  reachable e (init n G) s -> Inv s.
Proof.
  induction 1 as [|s1 s2 _ IH Hstep]; [apply scrapes_inv_init|].
  eapply scrapes_inv_step; [exact IH | exact Hstep].
Qed.

Lemma scrapes_trans s1 s2 s3 :
  reachable e s1 s2 -> reachable e s2 s3 -> reachable e s1 s3.
Proof.
  intros H12 H23. induction H23 as [|s s' _ IH Hstep]; [exact H12|].
  eapply reach_step; [exact IH | exact Hstep].
Qed.

Lemma scrapes_head s1 s2 s3 :
  step e s1 s2 -> reachable e s2 s3 -> reachable e s1 s3.
Proof.
  intros Hstep. apply scrapes_trans.
  eapply reach_step; [apply reach_refl | exact Hstep].
Qed.

(** As long as the drain goroutine appends each sample before the next
    one is sent, [container] follows the sends. *)
Lemma drain_keeps_up pre rest o m chans w cl f cs q ct G :
  reachable e
    (mkState m chans w cl f cs
       [mkCycle (Collecting (pre ++ rest) o) q false ct Ranging] G)
    (mkState m chans w cl f cs
       [mkCycle (Collecting rest o) q false (ct ++ pre) Ranging] G).
Proof.
  revert ct. induction pre as [|x pre IH]; intros ct.
  - rewrite app_nil_r. apply reach_refl.
  - eapply scrapes_head.
    { eapply (cycle_send e _ _ _ _ _ _ _ _ O). reflexivity. }
    eapply scrapes_head.
    { eapply (drain_append e _ _ _ _ _ _ _ _ O). reflexivity. }
    cbn [list_insert insert]. 
    replace (ct ++ x :: pre) with ((ct ++ [x]) ++ pre)
      by now rewrite <- app_assoc.
    apply IH.
Qed.

(** Every cycle sends the broker count first. *)
Lemma collect_sends clk G :
  metricsOf (traceOf (collect e clk G)) <> [].
Proof.
  unfold collect. destruct (refreshMetadata e clk G) as [refresh G1].
  destruct (Topics (client e)) as [topics err].
  destruct (failed err); [discriminate|].
  destruct (topicPhase e topics) as [[walk snap]|]; [|discriminate].
  destruct (groupPhase e snap clk G1) as [scan G2]. discriminate.
Qed.

(** A schedule of two coalesced calls in which the replay starts between
    the receive of the last sample and its [append]: the first caller is
    served [container] without the last sample, the second one with it. *)
Lemma lossy_replay clk G :
  returned (collect e clk G) = true ->
  let all := metricsOf (traceOf (collect e clk G)) in
  reachable e (init 2 G)
    (mkState false [] (Some O) [O] 1
       [mkCaller Done (removelast all); mkCaller Done all]
       [mkCycle Finished O true all Drained]
       (globalsOf (collect e clk G))).
Proof.
  intros Hret all.
  pose proof (collect_sends clk G) as Hne. fold all in Hne.
  pose proof (app_removelast_last (mkMetric clusterBrokers 0 []) Hne) as Hall.
  set (ms := removelast all) in *.
  set (final := List.last all (mkMetric clusterBrokers 0 [])) in *.
  unfold init. cbn [replicate].
  (* the first call starts the cycle and waits *)
  eapply scrapes_head; [eapply (caller_lock e _ _ _ _ _ _ _ O); reflexivity|].
  eapply scrapes_head; [eapply (caller_first e _ _ _ _ _ _ _ O); reflexivity|].
  eapply scrapes_head; [eapply (caller_unlock e _ _ _ _ _ _ _ _ O); reflexivity|].
  eapply scrapes_head;
    [eapply (cycle_enter e _ _ _ _ _ _ _ _ O _ _ _ _ clk); reflexivity|].
  (* the second call arrives while the cycle is in flight *)
  eapply scrapes_head; [eapply (caller_lock e _ _ _ _ _ _ _ 1%nat); reflexivity|].
  eapply scrapes_head; [eapply (caller_more e _ _ _ _ _ _ _ _ 1%nat); [reflexivity | discriminate]|].
  eapply scrapes_head; [eapply (caller_unlock e _ _ _ _ _ _ _ _ 1%nat); reflexivity|].
  cbn [list_insert insert app]. fold all. rewrite Hall.
  (* every sample but the last is sent and appended *)
  eapply scrapes_trans; [apply (drain_keeps_up ms [final])|].
  cbn [app].
  (* the last sample is received; [collect] returns before the append *)
  eapply scrapes_head; [eapply (cycle_send e _ _ _ _ _ _ _ _ O); reflexivity|].
  eapply scrapes_head;
    [eapply (cycle_return e _ _ _ _ _ _ _ _ O); [reflexivity | exact Hret]|].
  eapply scrapes_head; [eapply (cycle_close e _ _ _ _ _ _ _ _ O); reflexivity|].
  eapply scrapes_head; [eapply (cycle_lock e _ _ _ _ _ _ _ O); reflexivity|].
  cbn [list_insert insert].
  (* the first channel is served before the append, the second after it *)
  eapply scrapes_head;
    [eapply (cycle_replay e _ _ _ _ _ _ _ _ O _ _ _ _ O); reflexivity|].
  eapply scrapes_head; [eapply (drain_append e _ _ _ _ _ _ _ _ O); reflexivity|].
  cbn [list_insert insert].
  eapply scrapes_head;
    [eapply (cycle_replay e _ _ _ _ _ _ _ _ O _ _ _ _ 1%nat); reflexivity|].
  eapply scrapes_head; [eapply (cycle_reset e _ _ _ _ _ _ _ _ O); reflexivity|].
  eapply scrapes_head; [eapply (cycle_notify e _ _ _ _ _ _ _ _ O); reflexivity|].
  eapply scrapes_head; [eapply (cycle_release e _ _ _ _ _ _ _ _ O); reflexivity|].
  eapply scrapes_head; [eapply (drain_exit e _ _ _ _ _ _ _ _ O); reflexivity|].
  eapply scrapes_head;
    [eapply (caller_return e _ _ _ _ _ _ _ _ O _ O); [reflexivity | now left]|].
  eapply scrapes_head;
    [eapply (caller_return e _ _ _ _ _ _ _ _ 1%nat _ O);
       [reflexivity | now left]|].
  cbn [list_insert insert app]. apply reach_refl.
Qed.

End ScrapeRuns.

(** C2, at an input where the code departs from it.  No two calls of
    [collectChans] are ever under way together, whatever the number of
    callers and the schedule.  But the replay of lines 334-338 reads
    [container] without waiting for the goroutine that fills it.  Two
    scrapes of the small cluster, the second arriving while the cycle
    started by the first is in [collect]: on the schedule where the last
    sample (the offset sum of [g2] on [orders]) has been received but not
    yet appended when the replay starts, and is appended between the two
    rounds of the replay, [collect] has run once, both calls of [Collect]
    have returned, the first caller has got 44 of the 45 samples of the
    cycle and the second caller all of them. *)
Theorem coalesced_replay_loses_last_sample :
  let all :=
    metricsOf (traceOf (collect Cluster.exporter Cluster.firstClock
                          (initGlobals 0))) in
  (forall e n G s,
     Scrapes.reachable e (Scrapes.init n G) s -> (Scrapes.underWay s <= 1)%nat)
  /\ (exists s,
        Scrapes.reachable Cluster.exporter (Scrapes.init 2 (initGlobals 0)) s
        /\ length (Scrapes.cycles s) = 1%nat
        /\ map Scrapes.cpc (Scrapes.callers s) = [Scrapes.Done; Scrapes.Done]
        /\ map Scrapes.got (Scrapes.callers s) = [removelast all; all])
  /\ all
     = removelast all
         ++ [mkMetric consumergroupCurrentOffsetSum 500
               [LStr "g2"; LStr "orders"]]
  /\ length (removelast all) = 44%nat
  /\ length all = 45%nat.
Proof.
  cbv zeta. split; [|split; [|split; [|split]]].
  - intros e n G s Hreach.
    now destruct (scrapes_inv_reachable e n G s Hreach).
  - eexists. split.
    + apply (lossy_replay Cluster.exporter Cluster.firstClock (initGlobals 0)).
      reflexivity.
    + repeat split.
  - vm_compute. reflexivity.
  - vm_compute. reflexivity.
  - vm_compute. reflexivity.
Qed.
